(** * e-amp: the audio graph engine and its recording store

    A shallow embedding of [src/db.ts] and of the audio engine of
    [src/App.tsx] (graph construction, drive curve, noise gate, reverb mix,
    start/stop life cycle and the reactive parameter updates), with the
    component's list of recordings, the equalizer's controls
    ([src/unnamed/part_000]) and the search history.

    Numbers.  JavaScript numbers are IEEE-754 doubles.  The signal-processing
    definitions below are stated over the real numbers [R]: every formula is
    the source's formula read in exact arithmetic, so an equation proved here
    is the equation the rounded computation approximates, and a gap proved
    here (a difference of several hundredths) is far outside rounding error.

    Host.  The Web Audio nodes, IndexedDB and the device layer are the
    browser's, not the repository's.  Where a property depends on them they
    are either written out from their W3C definitions (gain, wave shaper,
    summing of connections, object store with a key generator) or taken as
    an arbitrary [Host] (filters, compressor, delay line, convolver). *)

From Stdlib Require Import Reals Lra Lia ZArith List String FunctionalExtensionality.
From stdpp Require Import gmap sorting list.

(* ===================================================================== *)
(** * src/db.ts: the recording store                                      *)
(* ===================================================================== *)

Module Db.

Local Open Scope Z_scope.

(** [Blob]: opaque encoded audio. *)
Definition Blob := list Byte.byte.

(** [interface Recording { id: number; date: Date; blob: Blob }]; a [Date]
    is its time value in milliseconds. *)
Record Recording := mkRecording { id : Z; date : Z; blob : Blob }.

(** The object store ['recordings'], created by
    [createObjectStore(STORE_NAME, { keyPath: 'id', autoIncrement: true })]:
    records indexed by key, and the key generator's current number. *)
Record IDBObjectStore := mkStore {
  records : gmap Z Recording;
  keyGenerator : Z
}.

Definition createObjectStore : IDBObjectStore :=
  {| records := ∅; keyGenerator := 1 |}.

(** [store.add(recording)] for a value without an [id]: the key generator's
    number becomes the key, is written into the value at the key path, and
    the generator moves on. *)
Definition store_add (now : Z) (b : Blob) (s : IDBObjectStore) : IDBObjectStore :=
  let key := keyGenerator s in
  {| records := <[key := mkRecording key now b]> (records s);
     keyGenerator := key + 1 |}.

(** [store.delete(id)]. *)
Definition store_delete (i : Z) (s : IDBObjectStore) : IDBObjectStore :=
  {| records := delete i (records s); keyGenerator := keyGenerator s |}.

(** The keys a cursor opened with direction ['prev'] visits: every key of
    the store, greatest first. *)
Definition prev : relation Z := λ a b, b ≤ a.

#[local] Instance prev_dec : RelDecision prev := λ a b, Z.le_dec b a.

Definition cursor_keys_prev (s : IDBObjectStore) : list Z :=
  merge_sort prev (elements (dom (records s))).

(** [store.openCursor(null, 'prev')] run to its end, every [cursor.value]
    pushed onto [recordings] in the order visited. *)
Definition openCursor_prev (s : IDBObjectStore) : list Recording :=
  omap (λ k, records s !! k) (cursor_keys_prev s).

(** The module's state: [let db: IDBDatabase], unset until [initDB]
    succeeds, and the database the browser keeps for the origin. *)
Inductive IDBDatabase := SoundAmplifierDB.

Record State := mkState {
  db : option IDBDatabase;
  storage : IDBObjectStore
}.

(** A request the browser fails ([request.onerror]) carries its error
    ([request.error], a [DOMException], here by name); the transaction is
    aborted and writes nothing. *)
Definition DOMException := string.
Definition HostFault := option DOMException.

(** What a promise of this module is rejected with: the string of the
    guard, [request.error], or [initDB]'s [false]. *)
Inductive Reason :=
| Message (s : string)
| RequestError (e : DOMException)
| RejectFalse.

Inductive Promise (A : Type) :=
| Resolved (a : A)
| Rejected (reason : Reason).
Arguments Resolved {A} a.
Arguments Rejected {A} reason.

Definition not_initialized : Reason := Message "Database not initialized."%string.

(** [initDB]: [request.onsuccess] sets [db]; [request.onerror] rejects. *)
Definition initDB (fault : HostFault) (st : State) : Promise bool * State :=
  match fault with
  | Some _ => (Rejected RejectFalse, st)
  | None => (Resolved true, {| db := Some SoundAmplifierDB; storage := storage st |})
  end.

Definition addRecording (b : Blob) (now : Z) (fault : HostFault) (st : State)
  : Promise unit * State :=
  match db st with
  | None => (Rejected not_initialized, st)
  | Some _ =>
      match fault with
      | Some e => (Rejected (RequestError e), st)
      | None => (Resolved tt, {| db := db st; storage := store_add now b (storage st) |})
      end
  end.

Definition getAllRecordings (fault : HostFault) (st : State)
  : Promise (list Recording) * State :=
  match db st with
  | None => (Rejected not_initialized, st)
  | Some _ =>
      match fault with
      | Some e => (Rejected (RequestError e), st)
      | None => (Resolved (openCursor_prev (storage st)), st)
      end
  end.

Definition deleteRecording (i : Z) (fault : HostFault) (st : State)
  : Promise unit * State :=
  match db st with
  | None => (Rejected not_initialized, st)
  | Some _ =>
      match fault with
      | Some e => (Rejected (RequestError e), st)
      | None => (Resolved tt, {| db := db st; storage := store_delete i (storage st) |})
      end
  end.

(** The recorder's calls on the persistence boundary. *)
Inductive Op :=
| Append (b : Blob) (now : Z) (fault : HostFault)
| Delete (i : Z) (fault : HostFault).

Definition step (st : State) (o : Op) : State :=
  match o with
  | Append b now f => snd (addRecording b now f st)
  | Delete i f => snd (deleteRecording i f st)
  end.

Definition run (ops : list Op) (st : State) : State := fold_left step ops st.

(** A fresh origin after a successful [initDB]. *)
Definition fresh : State := {| db := None; storage := createObjectStore |}.
Definition opened : State := snd (initDB None fresh).

(** The spec's reading of the store, to compare with: the recordings in the
    order they were appended, the [n]-th successful append carrying id [n],
    a successful delete dropping the recording of that id. *)
Definition chronological_step (acc : list Recording * Z) (o : Op)
  : list Recording * Z :=
  match o with
  | Append b now None => (fst acc ++ [mkRecording (snd acc) now b], snd acc + 1)
  | Delete i None => (filter (λ r, id r ≠ i) (fst acc), snd acc)
  | _ => acc
  end.

Definition chronological (ops : list Op) : list Recording :=
  fst (fold_left chronological_step ops ([], 1)).

(** ** Facts about the store *)

#[local] Instance prev_trans : Transitive prev.
Proof. unfold prev. intros a b c ? ?. lia. Qed.

#[local] Instance prev_total : Total prev.
Proof. unfold prev. intros a b. lia. Qed.

#[local] Instance prev_antisymm : AntiSymm (=) prev.
Proof. unfold prev. intros a b ? ?. lia. Qed.

(** What every reachable store satisfies: a record sits at its own id, and
    the key generator is ahead of every key in use. *)
Definition store_ok (s : IDBObjectStore) : Prop :=
  ∀ k r, records s !! k = Some r → id r = k ∧ k < keyGenerator s.

Lemma sorted_filter {A} (R : relation A) (P : A → Prop) `{∀ x, Decision (P x)} l :
  StronglySorted R l → StronglySorted R (filter P l).
Proof.
  induction 1 as [|x l Hl IH Hx]; [constructor|].
  rewrite filter_cons. destruct (decide (P x)); [|done].
  constructor; [done|]. apply Forall_forall. intros y [_ Hy]%list_elem_of_filter.
  revert y Hy. by apply Forall_forall.
Qed.

Lemma omap_agree {A B} (f g : A → option B) (l : list A) :
  (∀ x, x ∈ l → f x = g x) → omap f l = omap g l.
Proof.
  induction l as [|x l IH]; intros Hfg; [done|].
  assert (Hl : omap f l = omap g l).
  { apply IH. intros y Hy. apply Hfg. by right. }
  change (omap f (x :: l)) with (from_option (λ y, y :: omap f l) (omap f l) (f x)).
  change (omap g (x :: l)) with (from_option (λ y, y :: omap g l) (omap g l) (g x)).
  rewrite (Hfg x) by left. by rewrite Hl.
Qed.

Lemma cursor_keys_sorted s : StronglySorted prev (cursor_keys_prev s).
Proof. apply (StronglySorted_merge_sort prev). Qed.

Lemma cursor_keys_elem s k : k ∈ cursor_keys_prev s ↔ is_Some (records s !! k).
Proof.
  unfold cursor_keys_prev.
  rewrite (merge_sort_Permutation prev), elem_of_elements.
  apply elem_of_dom.
Qed.

Lemma cursor_keys_NoDup s : NoDup (cursor_keys_prev s).
Proof.
  unfold cursor_keys_prev.
  rewrite (merge_sort_Permutation prev). apply NoDup_elements.
Qed.

(** Two descending lists of the same keys are the same list. *)
Lemma cursor_keys_unique s l :
  StronglySorted prev l → NoDup l →
  (∀ k, k ∈ l ↔ is_Some (records s !! k)) →
  cursor_keys_prev s = l.
Proof.
  intros Hs Hn Hl.
  apply (StronglySorted_unique prev); auto using cursor_keys_sorted.
  apply NoDup_Permutation; auto using cursor_keys_NoDup.
  intros k. rewrite cursor_keys_elem. symmetry. apply Hl.
Qed.

Lemma cursor_keys_add now b s :
  store_ok s →
  cursor_keys_prev (store_add now b s) = keyGenerator s :: cursor_keys_prev s.
Proof.
  intros Hok.
  assert (Hbelow : ∀ k, k ∈ cursor_keys_prev s → k < keyGenerator s).
  { intros k [r Hr]%cursor_keys_elem. apply Hok in Hr. lia. }
  apply cursor_keys_unique.
  - apply StronglySorted_cons. split; [|apply cursor_keys_sorted].
    apply Forall_forall. intros k Hk%Hbelow. unfold prev. lia.
  - apply NoDup_cons. split; [|apply cursor_keys_NoDup].
    intros Hk%Hbelow. lia.
  - intros k. rewrite elem_of_cons, cursor_keys_elem. simpl.
    destruct (decide (keyGenerator s = k)) as [->|Hne].
    + rewrite lookup_insert_eq. split; eauto.
    + rewrite lookup_insert_ne by done. split; [intros [?|?]|]; auto; congruence.
Qed.

Lemma cursor_keys_delete i s :
  cursor_keys_prev (store_delete i s) = filter (λ k, k ≠ i) (cursor_keys_prev s).
Proof.
  apply cursor_keys_unique.
  - apply sorted_filter, cursor_keys_sorted.
  - apply NoDup_filter, cursor_keys_NoDup.
  - intros k. rewrite list_elem_of_filter, cursor_keys_elem. simpl.
    destruct (decide (i = k)) as [->|Hne].
    + rewrite lookup_delete_eq. split; [intros [? _]; done|intros [? ?]; done].
    + rewrite lookup_delete_ne by done. split; [intros [_ ?]|]; auto.
Qed.

Lemma openCursor_add now b s :
  store_ok s →
  openCursor_prev (store_add now b s)
  = mkRecording (keyGenerator s) now b :: openCursor_prev s.
Proof.
  intros Hok. unfold openCursor_prev. rewrite cursor_keys_add by done.
  simpl. rewrite lookup_insert_eq. simpl. f_equal.
  apply omap_agree. intros k [r Hr]%cursor_keys_elem.
  apply Hok in Hr. rewrite lookup_insert_ne by lia. done.
Qed.

Lemma openCursor_delete i s :
  store_ok s →
  openCursor_prev (store_delete i s) = filter (λ r, id r ≠ i) (openCursor_prev s).
Proof.
  intros Hok. unfold openCursor_prev. rewrite cursor_keys_delete. simpl.
  induction (cursor_keys_prev s) as [|k l IH]; [done|].
  rewrite filter_cons. destruct (decide (k ≠ i)) as [Hne|Heq].
  - simpl. rewrite lookup_delete_ne by done.
    destruct (records s !! k) as [r|] eqn:Hr; simpl; [|done].
    apply Hok in Hr as [Hid _]. rewrite filter_cons.
    destruct (decide (id r ≠ i)) as [|Hn]; [by f_equal|].
    exfalso. apply Hn. congruence.
  - simpl. destruct (records s !! k) as [r|] eqn:Hr; simpl; [|done].
    apply Hok in Hr as [Hid _]. rewrite filter_cons.
    destruct (decide (id r ≠ i)); [|done]. exfalso. apply Heq. congruence.
Qed.

Lemma store_ok_create : store_ok createObjectStore.
Proof. intros k r. simpl. by rewrite lookup_empty. Qed.

Lemma store_ok_add now b s : store_ok s → store_ok (store_add now b s).
Proof.
  intros Hok k r. simpl.
  destruct (decide (keyGenerator s = k)) as [->|Hne].
  - rewrite lookup_insert_eq. intros [= <-]. simpl. lia.
  - rewrite lookup_insert_ne by done. intros Hr%Hok. lia.
Qed.

Lemma store_ok_delete i s : store_ok s → store_ok (store_delete i s).
Proof.
  intros Hok k r. simpl.
  destruct (decide (i = k)) as [->|Hne].
  - by rewrite lookup_delete_eq.
  - rewrite lookup_delete_ne by done. apply Hok.
Qed.

(** The store and the chronological list move together. *)
Definition tracks (st : State) (acc : list Recording * Z) : Prop :=
  db st = Some SoundAmplifierDB ∧ store_ok (storage st) ∧
  keyGenerator (storage st) = snd acc ∧
  openCursor_prev (storage st) = reverse (fst acc).

Lemma tracks_step st acc o :
  tracks st acc → tracks (step st o) (chronological_step acc o).
Proof.
  intros H. pose proof H as (Hdb & Hok & Hgen & Hcur).
  destruct o as [b now [e|]|i [e|]]; simpl;
    unfold addRecording, deleteRecording; rewrite Hdb; simpl; try exact H.
  - unfold tracks. simpl. split; [done|]. split; [by apply store_ok_add|].
    split; [lia|].
    rewrite openCursor_add, reverse_snoc, Hcur, Hgen by done. done.
  - unfold tracks. simpl. split; [done|]. split; [by apply store_ok_delete|].
    split; [done|].
    rewrite openCursor_delete, Hcur, filter_reverse by done. done.
Qed.

Lemma tracks_run ops : ∀ st acc,
  tracks st acc → tracks (run ops st) (fold_left chronological_step ops acc).
Proof.
  induction ops as [|o ops IH]; intros st acc H; [done|].
  simpl. apply IH, tracks_step, H.
Qed.

Lemma tracks_opened : tracks opened ([], 1).
Proof.
  unfold tracks. split; [done|]. split; [apply store_ok_create|]. done.
Qed.

Definition ascending (acc : list Recording * Z) : Prop :=
  StronglySorted (λ a b, id a < id b) (fst acc) ∧
  Forall (λ r, id r < snd acc) (fst acc).

Lemma ascending_step acc o : ascending acc → ascending (chronological_step acc o).
Proof.
  intros [Hs Hb]. destruct o as [b now [e|]|i [e|]]; simpl; try done; split; simpl.
  - apply StronglySorted_app_2; [|done|repeat constructor].
    intros r1 r2 Hr1 ->%list_elem_of_singleton. simpl.
    revert r1 Hr1. by apply Forall_forall.
  - apply Forall_app. split.
    + eapply Forall_impl; [exact Hb|]. simpl. intros; lia.
    + repeat constructor. simpl. lia.
  - by apply sorted_filter.
  - apply Forall_forall. intros r [_ Hr]%list_elem_of_filter.
    revert r Hr. by apply Forall_forall.
Qed.

Lemma ascending_run ops : ∀ acc,
  ascending acc → ascending (fold_left chronological_step ops acc).
Proof.
  induction ops as [|o ops IH]; intros acc H; [done|].
  simpl. apply IH, ascending_step, H.
Qed.

(** C9.  After any sequence of appends and deletes on an opened database
    (requests the browser fails included, which change nothing),
    [getAllRecordings] resolves with exactly the recordings still stored,
    newest first: the reverse of the order they were appended in, with
    strictly descending ids. *)
Theorem getAllRecordings_newest_first (ops : list Op) :
  let st := run ops opened in
  getAllRecordings None st = (Resolved (reverse (chronological ops)), st) ∧
  StronglySorted (λ a b, id b < id a) (reverse (chronological ops)) ∧
  (∀ r, r ∈ reverse (chronological ops) ↔ records (storage st) !! id r = Some r).
Proof.
  pose proof (tracks_run ops _ _ tracks_opened) as (Hdb & Hok & _ & Hcur).
  fold (chronological ops) in Hcur. cbv zeta.
  split; [|split].
  - unfold getAllRecordings. rewrite Hdb. simpl. by rewrite Hcur.
  - destruct (ascending_run ops ([], 1)) as [Hs _]; [by split; constructor|].
    fold (chronological ops) in Hs. revert Hs.
    generalize (chronological ops). clear.
    induction 1 as [|x l Hl IH Hx]; [constructor|].
    rewrite reverse_cons. apply StronglySorted_app_2; [|done|repeat constructor].
    intros r1 r2 Hr1 ->%list_elem_of_singleton.
    rewrite elem_of_reverse in Hr1. rewrite Forall_forall in Hx. by apply Hx.
  - intros r. rewrite <- Hcur. unfold openCursor_prev.
    rewrite list_elem_of_omap. split.
    + intros (k & _ & Hr). by destruct (Hok _ _ Hr) as [-> _].
    + intros Hr. exists (id r). split; [|done]. apply cursor_keys_elem. eauto.
Qed.

(** C10.  While [db] is unset, [addRecording], [getAllRecordings] and
    [deleteRecording] each reject with ['Database not initialized.'] and
    leave the state, the stored recordings with it, as it was. *)
Theorem uninitialized_rejects (st : State) (b : Blob) (now i : Z)
    (f1 f2 f3 : HostFault) :
  db st = None →
  addRecording b now f1 st = (Rejected (Message "Database not initialized."), st) ∧
  getAllRecordings f2 st = (Rejected (Message "Database not initialized."), st) ∧
  deleteRecording i f3 st = (Rejected (Message "Database not initialized."), st).
Proof.
  intros Hdb. unfold addRecording, getAllRecordings, deleteRecording.
  rewrite Hdb. done.
Qed.

Lemma uninitialized_rejects_witness :
  addRecording [] 0 None fresh = (Rejected (Message "Database not initialized."), fresh) ∧
  getAllRecordings None fresh = (Rejected (Message "Database not initialized."), fresh) ∧
  deleteRecording 1 None fresh = (Rejected (Message "Database not initialized."), fresh).
Proof. apply (uninitialized_rejects fresh [] 0 1 None None None). reflexivity. Defined.

(** ** Appending, deleting and the ids *)

(** Every state reached from an opened database has [db] set and a store
    that is in order. *)
Lemma run_opened_ok ops :
  db (run ops opened) = Some SoundAmplifierDB ∧ store_ok (storage (run ops opened)).
Proof.
  destruct (tracks_run ops _ _ tracks_opened) as (Hdb & Hok & _). by split.
Qed.

(** The ids listed are the keys the cursor visits. *)
Lemma openCursor_ids s :
  store_ok s → List.map id (openCursor_prev s) = cursor_keys_prev s.
Proof.
  intros Hok. unfold openCursor_prev.
  assert (Hin : ∀ k, k ∈ cursor_keys_prev s → is_Some (records s !! k))
    by (intros k; apply cursor_keys_elem).
  induction (cursor_keys_prev s) as [|k l IH]; [done|].
  destruct (Hin k) as [r Hr]; [left|].
  change (omap (λ k, records s !! k) (k :: l))
    with (from_option (λ y, y :: omap (λ k, records s !! k) l)
            (omap (λ k, records s !! k) l) (records s !! k)).
  rewrite Hr. simpl. destruct (Hok _ _ Hr) as [-> _]. f_equal.
  apply IH. intros k' Hk'. apply Hin. by right.
Qed.

Lemma openCursor_below s :
  store_ok s → Forall (λ r, id r < keyGenerator s) (openCursor_prev s).
Proof.
  intros Hok. apply Forall_forall. intros r Hr.
  unfold openCursor_prev in Hr. apply list_elem_of_omap in Hr as (k & _ & Hk).
  destruct (Hok _ _ Hk) as [-> ?]. done.
Qed.

Lemma filter_all {A} (P : A → Prop) `{∀ x, Decision (P x)} (l : list A) :
  Forall P l → filter P l = l.
Proof.
  induction 1 as [|x l Hx Hl IH]; [done|]. rewrite filter_cons_True by done. by f_equal.
Qed.

Lemma filter_drops_one (i : Z) (l : list Z) :
  NoDup l → i ∈ l → (length (filter (λ k, k ≠ i) l) + 1 = length l)%nat.
Proof.
  induction 1 as [|k l Hk Hl IH]; [by intros ?%elem_of_nil|].
  rewrite filter_cons. intros [Heq|Hi]%elem_of_cons.
  - subst k. rewrite decide_False by (intros H; by apply H). simpl.
    assert (Hall : filter (λ k, k ≠ i) l = l); [|rewrite Hall; lia].
    apply filter_all. apply Forall_forall. intros k' Hk' ->. done.
  - rewrite decide_True by (intros ->; done). simpl. rewrite <- IH by done. lia.
Qed.

Lemma filter_ids (i : Z) (l : list Recording) :
  List.map id (filter (λ r, id r ≠ i) l) = filter (λ k, k ≠ i) (List.map id l).
Proof.
  induction l as [|r l IH]; [done|]. simpl. rewrite !filter_cons.
  destruct (decide (id r ≠ i)); simpl; by rewrite IH.
Qed.

(** X1.  On an opened database, whatever was appended and deleted before:
    [addRecording] resolves, and [getAllRecordings] then resolves with the
    new recording, under an id greater than every id listed, in front of the
    list it resolved with before. *)
Theorem added_recording_is_listed_first (ops : list Op) (b : Blob) (now : Z) :
  let st := run ops opened in
  let st' := snd (addRecording b now None st) in
  let new := mkRecording (keyGenerator (storage st)) now b in
  ∃ old,
    getAllRecordings None st = (Resolved old, st) ∧
    addRecording b now None st = (Resolved tt, st') ∧
    getAllRecordings None st' = (Resolved (new :: old), st') ∧
    Forall (λ r, id r < id new) old.
Proof.
  intros st st' new. destruct (run_opened_ok ops) as [Hdb Hok]. fold st in Hdb, Hok.
  exists (openCursor_prev (storage st)).
  subst st'. unfold addRecording, getAllRecordings. rewrite Hdb. simpl. rewrite ?Hdb.
  split; [done|]. split; [done|]. split.
  - by rewrite openCursor_add.
  - by apply openCursor_below.
Qed.

(** X2.  On an opened database [deleteRecording] resolves whether or not
    the id is stored, and [getAllRecordings] then resolves with the list it
    resolved with before, less the recording of that id: one entry shorter
    when the id was listed, the same list when it was not. *)
Theorem deleted_recording_is_gone (ops : list Op) (i : Z) :
  let st := run ops opened in
  let st' := snd (deleteRecording i None st) in
  ∃ old,
    getAllRecordings None st = (Resolved old, st) ∧
    deleteRecording i None st = (Resolved tt, st') ∧
    getAllRecordings None st' = (Resolved (filter (λ r, id r ≠ i) old), st') ∧
    (i ∈ List.map id old → length (filter (λ r, id r ≠ i) old) + 1 = length old)%nat ∧
    (i ∉ List.map id old → filter (λ r, id r ≠ i) old = old).
Proof.
  intros st st'. destruct (run_opened_ok ops) as [Hdb Hok]. fold st in Hdb, Hok.
  exists (openCursor_prev (storage st)).
  subst st'. unfold deleteRecording, getAllRecordings. rewrite Hdb. simpl. rewrite ?Hdb.
  split; [done|]. split; [done|]. split; [by rewrite openCursor_delete|]. split.
  - intros Hi. rewrite <- (length_map id), filter_ids, <- (length_map id (openCursor_prev _)).
    apply filter_drops_one; [|done]. rewrite openCursor_ids by done.
    apply cursor_keys_NoDup.
  - intros Hi. apply filter_all. apply Forall_forall. intros r Hr Heq.
    apply Hi. apply list_elem_of_fmap. by exists r.
Qed.

(** Once the key generator has passed [k], the record at [k] can only be
    deleted. *)
Lemma key_is_settled k (rec : Recording) ops : ∀ st,
  k < keyGenerator (storage st) →
  records (storage st) !! k = None ∨ records (storage st) !! k = Some rec →
  k < keyGenerator (storage (run ops st)) ∧
  (records (storage (run ops st)) !! k = None
   ∨ records (storage (run ops st)) !! k = Some rec).
Proof.
  induction ops as [|o ops IH]; intros st Hk Hr; [by auto|].
  simpl. apply IH.
  - destruct o as [b now [e|]|i [e|]]; simpl;
      unfold addRecording, deleteRecording; destruct (db st); simpl; auto. lia.
  - destruct o as [b now [e|]|i [e|]]; simpl;
      unfold addRecording, deleteRecording; destruct (db st); simpl; auto.
    + by rewrite lookup_insert_ne by lia.
    + destruct (decide (i = k)) as [->|Hne].
      * left. apply lookup_delete_eq.
      * by rewrite lookup_delete_ne.
Qed.

Lemma run_store_ok ops : ∀ st, store_ok (storage st) → store_ok (storage (run ops st)).
Proof.
  induction ops as [|o ops IH]; intros st H; [done|]. simpl. apply IH.
  destruct o as [b now [e|]|i [e|]]; simpl;
    unfold addRecording, deleteRecording; destruct (db st); simpl; auto.
  - by apply store_ok_add.
  - by apply store_ok_delete.
Qed.

(** X3.  An id is handed out once: after a recording was added under an id,
    whatever is appended or deleted later, that id is either no longer
    stored or still names that recording; a later recording never takes it,
    also after the first was deleted. *)
Theorem id_is_never_reused (ops1 ops2 : list Op) (b : Blob) (now : Z) :
  let st1 := run ops1 opened in
  let k := keyGenerator (storage st1) in
  let st2 := run ops2 (snd (addRecording b now None st1)) in
  k < keyGenerator (storage st2) ∧
  (records (storage st2) !! k = None ∨
   records (storage st2) !! k = Some (mkRecording k now b)) ∧
  Forall (λ r, id r = k → r = mkRecording k now b) (openCursor_prev (storage st2)).
Proof.
  intros st1 k st2. destruct (run_opened_ok ops1) as [Hdb Hok]. fold st1 in Hdb, Hok.
  assert (Hadd : snd (addRecording b now None st1)
                 = {| db := db st1; storage := store_add now b (storage st1) |}).
  { unfold addRecording. by rewrite Hdb. }
  destruct (key_is_settled k (mkRecording k now b) ops2
              (snd (addRecording b now None st1))) as [Hlt Hrec].
  { rewrite Hadd. simpl. fold k. lia. }
  { rewrite Hadd. simpl. fold k. right. apply lookup_insert_eq. }
  fold st2 in Hlt, Hrec. split; [done|]. split; [done|].
  apply Forall_forall. intros r Hr Hid.
  unfold openCursor_prev in Hr. apply list_elem_of_omap in Hr as (k' & _ & Hk').
  assert (Hok2 : store_ok (storage st2)).
  { subst st2. rewrite Hadd. apply run_store_ok. simpl. by apply store_ok_add. }
  destruct (Hok2 _ _ Hk') as [Hidr _]. rewrite Hid in Hidr. subst k'.
  destruct Hrec as [Hnone|Hsome]; congruence.
Qed.

End Db.

(* ===================================================================== *)
(** * src/App.tsx: the list of recordings and the recorder                *)
(* ===================================================================== *)

Module Recordings.

Import Db.
Local Open Scope Z_scope.

(** The component's side of the store: [recordings] and [dbLoaded]
    ([useState]), the chunks the recorder has delivered
    ([recordedChunksRef]), and the state of [db.ts]. *)
Record Component := mkComponent {
  database : State;
  recordings : list Recording;
  dbLoaded : bool;
  recordedChunksRef : list Blob
}.

(** [loadRecordings]: [const recs = await getAllRecordings();
    setRecordings(recs)].  A rejection is not caught: nothing is set. *)
Definition loadRecordings (fault : HostFault) (c : Component) : Component :=
  match getAllRecordings fault (database c) with
  | (Resolved recs, st) => mkComponent st recs (dbLoaded c) (recordedChunksRef c)
  | (Rejected _, st) => mkComponent st (recordings c) (dbLoaded c) (recordedChunksRef c)
  end.

(** The effect run on mount: [initDB().then(success => { if (success) {
    setDbLoaded(true); loadRecordings(); } })]. *)
Definition mount (open_fault load_fault : HostFault) (c : Component) : Component :=
  match initDB open_fault (database c) with
  | (Resolved success, st) =>
      if success
      then loadRecordings load_fault
             (mkComponent st (recordings c) true (recordedChunksRef c))
      else mkComponent st (recordings c) (dbLoaded c) (recordedChunksRef c)
  | (Rejected _, st) => mkComponent st (recordings c) (dbLoaded c) (recordedChunksRef c)
  end.

(** [mediaRecorderRef.current.ondataavailable]:
    [recordedChunksRef.current.push(event.data)]. *)
Definition ondataavailable (data : Blob) (c : Component) : Component :=
  mkComponent (database c) (recordings c) (dbLoaded c) (recordedChunksRef c ++ [data]).

(** [new Blob(recordedChunksRef.current, ...)]: the chunks, one after the
    other. *)
Definition new_Blob (chunks : list Blob) : Blob := concat chunks.

(** [mediaRecorderRef.current.onstop]: with at least one chunk, the take is
    added, the chunks are dropped and the list is loaded again; a rejected
    [addRecording] ends the handler where it is. *)
Definition onstop (now : Z) (add_fault load_fault : HostFault) (c : Component)
  : Component :=
  if bool_decide (0 < length (recordedChunksRef c))%nat then
    let blob := new_Blob (recordedChunksRef c) in
    match addRecording blob now add_fault (database c) with
    | (Resolved _, st) =>
        loadRecordings load_fault (mkComponent st (recordings c) (dbLoaded c) [])
    | (Rejected _, st) => mkComponent st (recordings c) (dbLoaded c) (recordedChunksRef c)
    end
  else c.

(** [handleDeleteRecording]: [await deleteRecording(id); await
    loadRecordings()]. *)
Definition handleDeleteRecording (i : Z) (delete_fault load_fault : HostFault)
    (c : Component) : Component :=
  match deleteRecording i delete_fault (database c) with
  | (Resolved _, st) =>
      loadRecordings load_fault
        (mkComponent st (recordings c) (dbLoaded c) (recordedChunksRef c))
  | (Rejected _, st) => mkComponent st (recordings c) (dbLoaded c) (recordedChunksRef c)
  end.

(** [recordedChunksRef.current = []], as a recording is started. *)
Definition clear_chunks (c : Component) : Component :=
  mkComponent (database c) (recordings c) (dbLoaded c) [].

(** What happens to the component, one handler at a time: each handler's
    requests settle before the next one starts. *)
Inductive Action :=
| DataAvailable (data : Blob)
| RecorderStopped (now : Z) (add_fault load_fault : HostFault)
| DeleteClicked (i : Z) (delete_fault load_fault : HostFault)
| RecordingStarted.

Definition step (c : Component) (act : Action) : Component :=
  match act with
  | DataAvailable data => ondataavailable data c
  | RecorderStopped now f1 f2 => onstop now f1 f2 c
  | DeleteClicked i f1 f2 => handleDeleteRecording i f1 f2 c
  | RecordingStarted => clear_chunks c
  end.

Definition run (acts : list Action) (c : Component) : Component := foldl step c acts.

(** The page as loaded: nothing listed, [db] unset, and in the origin's
    store what earlier visits ([ops]) left there. *)
Definition loaded_page (ops : list Op) : Component :=
  mkComponent {| db := None; storage := storage (Db.run ops opened) |} [] false [].

(** The browser fails no read. *)
Definition reads_succeed (act : Action) : Prop :=
  match act with
  | RecorderStopped _ _ load_fault | DeleteClicked _ _ load_fault => load_fault = None
  | _ => True
  end.

(** The list shown is the list stored. *)
Definition shows_store (c : Component) : Prop :=
  db (database c) = Some SoundAmplifierDB ∧ store_ok (storage (database c)) ∧
  dbLoaded c = true ∧
  recordings c = openCursor_prev (storage (database c)).

Definition a_session : list Action :=
  [ RecordingStarted; DataAvailable [Byte.x01; Byte.x02]; DataAvailable [Byte.x03];
    RecorderStopped 1000 None None;
    DeleteClicked 7 (Some "AbortError"%string) None;
    DeleteClicked 1 None None ].

(** ** Facts about the list of recordings *)

Lemma mount_shows_store ops : shows_store (mount None None (loaded_page ops)).
Proof.
  unfold shows_store, mount, loaded_page, loadRecordings, getAllRecordings. simpl.
  split; [done|]. split; [apply run_opened_ok|]. by split.
Qed.

Lemma step_shows_store c act :
  reads_succeed act → shows_store c → shows_store (step c act).
Proof.
  intros Hread (Hdb & Hok & Hl & Hrec).
  destruct act as [data|now f1 f2|i f1 f2|]; simpl in *.
  - done.
  - subst f2. unfold onstop. case_bool_decide; [|done].
    unfold addRecording. rewrite Hdb. destruct f1; simpl; [done|].
    unfold loadRecordings, getAllRecordings. simpl. rewrite ?Hdb.
    split; [done|]. split; [by apply store_ok_add|]. by split.
  - subst f2. unfold handleDeleteRecording, deleteRecording. rewrite Hdb.
    destruct f1; simpl; [done|].
    unfold loadRecordings, getAllRecordings. simpl. rewrite ?Hdb.
    split; [done|]. split; [by apply store_ok_delete|]. by split.
  - done.
Qed.

Lemma run_shows_store acts : ∀ c,
  Forall reads_succeed acts → shows_store c → shows_store (run acts c).
Proof.
  induction acts as [|act acts IH]; intros c Hr Hc; [done|].
  apply Forall_cons in Hr as [Ha Hr]. simpl. apply IH; [done|].
  by apply step_shows_store.
Qed.

(** X4.  Once the mount effect has opened the database and loaded the
    list, and as long as the browser fails no read, the list the component
    shows is the list [getAllRecordings] resolves with, after every stop of
    the recorder and every click on delete, whether the write succeeded or
    was failed by the browser. *)
Theorem shown_list_is_stored_list (ops : list Op) (acts : list Action) :
  Forall reads_succeed acts →
  let c := run acts (mount None None (loaded_page ops)) in
  dbLoaded c = true ∧
  getAllRecordings None (database c) = (Resolved (recordings c), database c).
Proof.
  intros Hr c.
  destruct (run_shows_store acts _ Hr (mount_shows_store ops)) as (Hdb & _ & Hl & Hrec).
  fold c in Hdb, Hl, Hrec. split; [done|].
  unfold getAllRecordings. by rewrite Hdb, Hrec.
Qed.

Lemma shown_list_is_stored_list_witness :
  Forall reads_succeed a_session ∧
  let c := run a_session (mount None None (loaded_page [])) in
  dbLoaded c = true ∧
  getAllRecordings None (database c) = (Resolved (recordings c), database c).
Proof.
  split; [repeat constructor|].
  apply (shown_list_is_stored_list [] a_session). repeat constructor.
Defined.

(** X5.  The recorder's [onstop] on a page that shows its store: without a
    chunk it does nothing; with chunks and no fault the list gains, in
    front, one recording whose blob is the chunks in the order they were
    delivered, and the chunks are dropped; when the browser fails the write
    nothing is stored, the list stays and the chunks are kept. *)
Theorem onstop_stores_the_take (ops : list Op) (acts : list Action) (now : Z)
    (e : DOMException) (load_fault : HostFault) :
  Forall reads_succeed acts →
  let c := run acts (mount None None (loaded_page ops)) in
  match recordedChunksRef c with
  | [] => onstop now None None c = c
  | chunks =>
      recordings (onstop now None None c)
      = mkRecording (keyGenerator (storage (database c))) now (concat chunks)
          :: recordings c ∧
      recordedChunksRef (onstop now None None c) = [] ∧
      onstop now (Some e) load_fault c = c
  end.
Proof.
  intros Hr c.
  destruct (run_shows_store acts _ Hr (mount_shows_store ops)) as (Hdb & Hok & Hl & Hrec).
  fold c in Hdb, Hok, Hl, Hrec.
  destruct (recordedChunksRef c) as [|chunk chunks] eqn:Hch.
  - unfold onstop. rewrite Hch. by rewrite bool_decide_false by (simpl; lia).
  - unfold onstop. rewrite Hch. rewrite bool_decide_true by (simpl; lia).
    unfold addRecording. rewrite Hdb. simpl.
    unfold loadRecordings, getAllRecordings. simpl. rewrite ?Hdb. simpl.
    split; [|split; [done|]].
    + rewrite openCursor_add by done. by rewrite Hrec.
    + destruct c as [d r l ch]. simpl in *. by rewrite Hch.
Qed.

Lemma onstop_stores_the_take_witness :
  Forall reads_succeed [DataAvailable [Byte.x01]; DataAvailable [Byte.x02]] ∧
  let c := run [DataAvailable [Byte.x01]; DataAvailable [Byte.x02]]
             (mount None None (loaded_page [])) in
  match recordedChunksRef c with
  | [] => onstop 5 None None c = c
  | chunks =>
      recordings (onstop 5 None None c)
      = mkRecording (keyGenerator (storage (database c))) 5 (concat chunks)
          :: recordings c ∧
      recordedChunksRef (onstop 5 None None c) = [] ∧
      onstop 5 (Some "QuotaExceededError"%string) None c = c
  end.
Proof.
  split; [repeat constructor|].
  apply (onstop_stores_the_take [] [DataAvailable [Byte.x01]; DataAvailable [Byte.x02]] 5
           "QuotaExceededError"%string None).
  repeat constructor.
Defined.

End Recordings.

(* ===================================================================== *)
(** * src/App.tsx: the drive curve                                        *)
(* ===================================================================== *)

Module Drive.

Local Open Scope R_scope.

(** [new Float32Array(256)]. *)
Definition tableSize : nat := 256.

(** The body of the loop, at index [i]:
    [k = drive * 50; deg = Math.PI / 180; x = (i * 2) / 256 - 1;
     curve[i] = ((3 + k) * x * 20 * deg) / (Math.PI + k * Math.abs(x))]. *)
Definition curve_at (drive : R) (i : nat) : R :=
  let k := drive * 50 in
  let deg := PI / 180 in
  let x := (INR i * 2) / 256 - 1 in
  ((3 + k) * x * 20 * deg) / (PI + k * Rabs x).

(** [for (let i = 0; i < 256; i++) curve[i] = ...]: the whole table, built
    the same way in [connectNodes] and in the drive effect. *)
Definition makeCurve (drive : R) : list R :=
  List.map (curve_at drive) (seq 0 tableSize).

(** [curve[i]]. *)
Definition curve_get (curve : list R) (i : nat) : R := nth i curve 0.

(** The shaping function the loop samples. *)
Definition shaper (k x : R) : R :=
  ((3 + k) * x * 20 * (PI / 180)) / (PI + k * Rabs x).

(** The grid: [x = (i * 2) / 256 - 1]. *)
Definition grid (i : nat) : R := (INR i * 2) / 256 - 1.

(** The odd symmetry of the spec, [curve[tableSize-1-i] ≈ -curve[i]], with
    its tolerance made explicit. *)
Definition odd_symmetric_within (eps : R) (curve : list R) : Prop :=
  ∀ i, (i < 256)%nat →
    Rabs (curve_get curve (255 - i) - (- curve_get curve i)) <= eps.

(** ** Facts about the curve *)

Lemma curve_at_shaper drive i : curve_at drive i = shaper (drive * 50) (grid i).
Proof. reflexivity. Qed.

Lemma makeCurve_length drive : length (makeCurve drive) = 256%nat.
Proof. unfold makeCurve. rewrite length_map, length_seq. reflexivity. Qed.

Lemma makeCurve_get drive i :
  (i < 256)%nat → curve_get (makeCurve drive) i = curve_at drive i.
Proof.
  intros Hi. unfold curve_get, makeCurve, tableSize.
  rewrite (nth_indep _ 0 (curve_at drive 0)) by (rewrite length_map, length_seq; lia).
  rewrite (map_nth (curve_at drive)), seq_nth by lia. reflexivity.
Qed.

Lemma grid_mirror i : (1 <= i <= 255)%nat → grid (256 - i) = - grid i.
Proof.
  intros Hi. unfold grid. rewrite minus_INR by lia.
  rewrite (INR_IZR_INZ 256). change (Z.of_nat 256) with 256%Z. lra.
Qed.

Lemma grid_step i : (i < 256)%nat → grid (255 - i) = - grid i - / 128.
Proof.
  intros Hi. unfold grid. rewrite minus_INR by lia.
  rewrite (INR_IZR_INZ 255). change (Z.of_nat 255) with 255%Z. lra.
Qed.

Lemma shaper_odd k x : shaper k (- x) = - shaper k x.
Proof. unfold shaper. rewrite Rabs_Ropp. unfold Rdiv. ring. Qed.

Lemma PI_gt_3 : 3 < PI.
Proof. pose proof PI2_3_2. lra. Qed.

Lemma shaper_denominator_pos k x : 0 <= k → 0 < PI + k * Rabs x.
Proof.
  intros Hk. pose proof PI_gt_3. pose proof (Rabs_pos x).
  assert (0 <= k * Rabs x) by (apply Rmult_le_pos; assumption). lra.
Qed.

(** [x * |x|] grows with [x]. *)
Lemma signed_square_mono a b : a <= b → a * Rabs a <= b * Rabs b.
Proof.
  intros Hab. unfold Rabs.
  destruct (Rcase_abs a), (Rcase_abs b); nra.
Qed.

Lemma cross_abs_nonneg a b : a <= b → 0 <= b * Rabs a - a * Rabs b.
Proof.
  intros Hab. unfold Rabs.
  destruct (Rcase_abs a), (Rcase_abs b); nra.
Qed.

(** The shaper rises, with slope at most [(3 + k) / 9] (its slope at 0). *)
Lemma shaper_slope k a b :
  0 <= k → a <= b →
  0 <= shaper k b - shaper k a <= (3 + k) / 9 * (b - a).
Proof.
  intros Hk Hab.
  pose proof (shaper_denominator_pos k a Hk) as Ha.
  pose proof (shaper_denominator_pos k b Hk) as Hb.
  pose proof PI_gt_3 as Hpi.
  pose proof (Rabs_pos a) as Hpa. pose proof (Rabs_pos b) as Hpb.
  pose proof (signed_square_mono a b Hab) as Hsq.
  pose proof (cross_abs_nonneg a b Hab) as Hcr.
  set (A := Rabs a) in *. set (B := Rabs b) in *.
  assert (Hdiff : shaper k b - shaper k a
                  = (3 + k) / 9 * (PI * (PI * (b - a) + k * (b * A - a * B))
                                   / ((PI + k * A) * (PI + k * B)))).
  { unfold shaper. fold A B. field. lra. }
  rewrite Hdiff.
  assert (Hden : 0 < (PI + k * A) * (PI + k * B)) by (apply Rmult_lt_0_compat; lra).
  assert (Hnum : 0 <= PI * (PI * (b - a) + k * (b * A - a * B))).
  { apply Rmult_le_pos; [lra|].
    assert (0 <= k * (b * A - a * B)) by (apply Rmult_le_pos; lra). nra. }
  assert (Hle : PI * (PI * (b - a) + k * (b * A - a * B))
                <= (b - a) * ((PI + k * A) * (PI + k * B))).
  { assert (0 <= k * (b * B - a * A)) by (apply Rmult_le_pos; lra).
    assert (0 <= (b - a) * (k * k * (A * B))).
    { apply Rmult_le_pos; [lra|]. apply Rmult_le_pos; [nra|nra]. }
    nra. }
  split.
  - apply Rmult_le_pos; [lra|]. apply Rmult_le_pos; [lra|].
    left. apply Rinv_0_lt_compat. lra.
  - apply Rmult_le_compat_l; [lra|].
    apply (Rmult_le_reg_r ((PI + k * A) * (PI + k * B))); [lra|].
    unfold Rdiv. rewrite Rmult_assoc, Rinv_l by lra. lra.
Qed.

(** C5, as stated, fails.  At full drive the two entries next to the centre
    of the table, [curve[128] = 0] and [curve[127]], are not opposite: they
    differ from odd symmetry by more than 0.04. *)
Lemma odd_symmetry_fails_at_centre :
  0 <= 1 <= 1 ∧ (127 < 256)%nat ∧
  1 / 25 < Rabs (curve_get (makeCurve 1) (255 - 127) - (- curve_get (makeCurve 1) 127)).
Proof.
  split; [lra|]. split; [lia|].
  rewrite !makeCurve_get by lia. rewrite !curve_at_shaper.
  change (255 - 127)%nat with 128%nat.
  assert (H128 : grid 128 = 0).
  { unfold grid. rewrite (INR_IZR_INZ 128). change (Z.of_nat 128) with 128%Z. lra. }
  assert (H127 : grid 127 = - / 128).
  { unfold grid. rewrite (INR_IZR_INZ 127). change (Z.of_nat 127) with 127%Z. lra. }
  rewrite H128, H127, shaper_odd. unfold shaper.
  rewrite Rabs_R0, (Rabs_pos_eq (/ 128)) by lra.
  pose proof PI_gt_3 as Hpi. pose proof PI_4 as Hpi4.
  assert (Hval : (3 + 1 * 50) * 0 * 20 * (PI / 180) / (PI + 1 * 50 * 0)
                 - - - ((3 + 1 * 50) * / 128 * 20 * (PI / 180) / (PI + 1 * 50 * / 128))
                 = - (53 * PI / (1152 * PI + 450))).
  { field. lra. }
  rewrite Hval, Rabs_Ropp, Rabs_pos_eq.
  - apply (Rmult_lt_reg_r (1152 * PI + 450)); [lra|].
    unfold Rdiv at 2. rewrite Rmult_assoc, Rinv_l by lra. lra.
  - apply Rmult_le_pos; [lra|]. left. apply Rinv_0_lt_compat. lra.
Qed.

(** C5, amended.  For every drive in [0,1] the table is exactly odd about
    index 128, where it is 0: [curve[256-i] = -curve[i]] for [1 <= i <= 255].
    About its midpoint it is odd only up to one grid step:
    [curve[255-i]] and [-curve[i]] differ by at most [(3 + 50*drive) / 1152]. *)
Theorem curve_odd_about_128 (drive : R) :
  0 <= drive <= 1 →
  curve_get (makeCurve drive) 128 = 0 ∧
  (∀ i, (1 <= i <= 255)%nat →
     curve_get (makeCurve drive) (256 - i) = - curve_get (makeCurve drive) i) ∧
  odd_symmetric_within ((3 + 50 * drive) / 1152) (makeCurve drive).
Proof.
  intros Hd. split; [|split].
  - rewrite makeCurve_get by lia. rewrite curve_at_shaper.
    assert (H128 : grid 128 = 0).
    { unfold grid. rewrite (INR_IZR_INZ 128). change (Z.of_nat 128) with 128%Z. lra. }
    rewrite H128. unfold shaper, Rdiv. ring.
  - intros i Hi. rewrite !makeCurve_get by lia. rewrite !curve_at_shaper.
    rewrite grid_mirror by lia. apply shaper_odd.
  - intros i Hi. rewrite !makeCurve_get by lia. rewrite !curve_at_shaper.
    rewrite grid_step by lia. rewrite <- (shaper_odd _ (grid i)).
    destruct (shaper_slope (drive * 50) (- grid i - / 128) (- grid i)) as [H0 H1];
      [lra|lra|].
    rewrite Rabs_left1 by lra.
    replace ((3 + 50 * drive) / 1152) with ((3 + drive * 50) / 9 * (- grid i - (- grid i - / 128)))
      by (field_simplify; lra).
    lra.
Qed.

Lemma curve_odd_about_128_witness :
  0 <= 1 / 2 <= 1 ∧
  curve_get (makeCurve (1 / 2)) 128 = 0 ∧
  (∀ i, (1 <= i <= 255)%nat →
     curve_get (makeCurve (1 / 2)) (256 - i) = - curve_get (makeCurve (1 / 2)) i) ∧
  odd_symmetric_within ((3 + 50 * (1 / 2)) / 1152) (makeCurve (1 / 2)).
Proof. split; [lra|]. apply (curve_odd_about_128 (1 / 2)). lra. Defined.

(** ** The shape of the curve *)

(** The shaper rises strictly. *)
Lemma shaper_increasing k a b : 0 <= k → a < b → shaper k a < shaper k b.
Proof.
  intros Hk Hab.
  pose proof (shaper_denominator_pos k a Hk) as Ha.
  pose proof (shaper_denominator_pos k b Hk) as Hb.
  pose proof PI_gt_3 as Hpi.
  pose proof (cross_abs_nonneg a b (Rlt_le _ _ Hab)) as Hcr.
  set (A := Rabs a) in *. set (B := Rabs b) in *.
  assert (Hdiff : shaper k b - shaper k a
                  = (3 + k) / 9 * (PI * (PI * (b - a) + k * (b * A - a * B))
                                   / ((PI + k * A) * (PI + k * B)))).
  { unfold shaper. fold A B. field. lra. }
  assert (Hden : 0 < (PI + k * A) * (PI + k * B)) by (apply Rmult_lt_0_compat; lra).
  assert (Hnum : 0 < PI * (PI * (b - a) + k * (b * A - a * B))).
  { apply Rmult_lt_0_compat; [lra|].
    assert (0 <= k * (b * A - a * B)) by (apply Rmult_le_pos; lra). nra. }
  assert (0 < shaper k b - shaper k a); [|lra].
  rewrite Hdiff. apply Rmult_lt_0_compat; [lra|].
  apply Rmult_lt_0_compat; [lra|]. apply Rinv_0_lt_compat. lra.
Qed.

Lemma grid_increasing i j : (i < j)%nat → grid i < grid j.
Proof. intros Hij. unfold grid. apply lt_INR in Hij. lra. Qed.

Lemma grid_range i : (i < 256)%nat → -1 <= grid i < 1.
Proof.
  intros Hi. unfold grid. pose proof (pos_INR i) as H0.
  apply lt_INR in Hi. rewrite (INR_IZR_INZ 256) in Hi.
  change (Z.of_nat 256) with 256%Z in Hi. lra.
Qed.

(** At the ends of its range the shaper is below one half in size. *)
Lemma shaper_at_1 k : 0 <= k → shaper k 1 < 1 / 2.
Proof.
  intros Hk. unfold shaper. rewrite Rabs_R1.
  pose proof PI_gt_3 as Hpi. pose proof PI_4 as Hpi4.
  apply (Rmult_lt_reg_r (PI + k * 1)); [lra|].
  unfold Rdiv at 1. rewrite Rmult_assoc, Rinv_l by lra.
  nra.
Qed.

(** X6.  For every drive from 0 up, the table rises strictly from its first
    entry to its last and stays between -1/2 and 1/2. *)
Theorem curve_rises_within_half (drive : R) :
  0 <= drive →
  (∀ i j, (i < j < 256)%nat →
     curve_get (makeCurve drive) i < curve_get (makeCurve drive) j) ∧
  (∀ i, (i < 256)%nat → -1 / 2 < curve_get (makeCurve drive) i < 1 / 2).
Proof.
  intros Hd. assert (Hk : 0 <= drive * 50) by lra. split.
  - intros i j Hij. rewrite !makeCurve_get by lia. rewrite !curve_at_shaper.
    apply shaper_increasing; [done|]. apply grid_increasing. lia.
  - intros i Hi. rewrite makeCurve_get by done. rewrite curve_at_shaper.
    destruct (grid_range i Hi) as [Hlo Hhi].
    pose proof (shaper_at_1 (drive * 50) Hk) as H1.
    assert (Hodd : shaper (drive * 50) (-1) = - shaper (drive * 50) 1)
      by (rewrite <- shaper_odd; f_equal; lra).
    split.
    + destruct (Req_dec (grid i) (-1)) as [->|Hne]; [lra|].
      pose proof (shaper_increasing (drive * 50) (-1) (grid i) Hk). lra.
    + pose proof (shaper_increasing (drive * 50) (grid i) 1 Hk). lra.
Qed.

Lemma curve_rises_within_half_witness :
  0 <= 1 ∧
  (∀ i j, (i < j < 256)%nat →
     curve_get (makeCurve 1) i < curve_get (makeCurve 1) j) ∧
  (∀ i, (i < 256)%nat → -1 / 2 < curve_get (makeCurve 1) i < 1 / 2).
Proof. split; [lra|]. apply (curve_rises_within_half 1). lra. Defined.

End Drive.

(* ===================================================================== *)
(** * src/App.tsx: the noise gate's block handler                         *)
(* ===================================================================== *)

Module NoiseGate.

Local Open Scope R_scope.

(** [useState({ threshold: -50, release: 0.25 })], read by the handler
    through [noiseGateRef.current]. *)
Record NoiseGateParams := mkParams { threshold : R; release : R }.

(** [noiseGateAnalyserNodeRef.current.fftSize = 256]; the handler's buffer is
    [new Uint8Array(frequencyBinCount)]. *)
Definition fftSize : nat := 256.
Definition frequencyBinCount : nat := 128.

(** An element of the [Uint8Array], as a number. *)
Definition byte_value (val : Byte.byte) : R := IZR (Z.of_N (Byte.to_N val)).

(** [Math.pow(10, threshold / 20)]. *)
Definition thresholdValue (threshold : R) : R := Rpower 10 (threshold / 20).

(** [Math.sqrt(data.reduce((acc, val) =>
       acc + Math.pow((val - 128) / 128, 2), 0) / data.length)]. *)
Definition rms (data : list Byte.byte) : R :=
  sqrt (fold_left (λ acc val, acc + ((byte_value val - 128) / 128) ^ 2) data 0
        / INR (length data)).

(** [gain.setTargetAtTime(target, startTime, timeConstant)]. *)
Inductive ParamEvent :=
| SetTargetAtTime (target startTime timeConstant : R).

(** [scriptProcessorNodeRef.current.onaudioprocess]: nothing when a ref is
    gone, otherwise one [setTargetAtTime] on the gate's gain.  [data] is what
    [getByteTimeDomainData] wrote. *)
Definition onaudioprocess (refs : bool) (noiseGate : NoiseGateParams)
    (data : list Byte.byte) (currentTime : R) : option ParamEvent :=
  if negb refs then None
  else if Rlt_dec (thresholdValue (threshold noiseGate)) (rms data)
       then Some (SetTargetAtTime 1 currentTime 0.01)
       else Some (SetTargetAtTime 0 currentTime (release noiseGate)).

(** The host's reading of the event (Web Audio, [setTargetAtTime]): from
    value [v0] at [startTime], the parameter at time [t] is
    [target + (v0 - target) * exp (- (t - startTime) / timeConstant)]. *)
Definition param_at (e : ParamEvent) (v0 t : R) : R :=
  match e with
  | SetTargetAtTime target startTime timeConstant =>
      target + (v0 - target) * exp (- ((t - startTime) / timeConstant))
  end.

Definition target_of (e : ParamEvent) : R :=
  match e with SetTargetAtTime target _ _ => target end.

Definition timeConstant_of (e : ParamEvent) : R :=
  match e with SetTargetAtTime _ _ tau => tau end.

(** The spec's formula, to compare with: samples normalized about the
    centre 128 of the byte range, the mean of their squares, its root. *)
Definition center : R := 128.
Definition normalized (val : Byte.byte) : R := (byte_value val - center) / 128.
Definition mean (l : list R) : R := fold_right Rplus 0 l / INR (length l).
Definition spec_rms (data : list Byte.byte) : R :=
  sqrt (mean (List.map (λ s, s ^ 2) (List.map normalized data))).

(** A block at full scale: every byte 0. *)
Definition full_scale : list Byte.byte := repeat Byte.x00 frequencyBinCount.

(** ** Facts about the handler *)

Lemma byte_value_range val : 0 <= byte_value val <= 255.
Proof.
  unfold byte_value. pose proof (Byte.to_N_bounded val) as Hb.
  split; apply IZR_le; lia.
Qed.

Lemma normalized_range val : -1 <= normalized val <= 1.
Proof. unfold normalized, center. pose proof (byte_value_range val). lra. Qed.

Lemma reduce_sum (f : Byte.byte → R) data : ∀ acc,
  fold_left (λ acc val, acc + f val) data acc
  = acc + fold_right Rplus 0 (List.map f data).
Proof.
  induction data as [|val data IH]; intros acc; simpl; [lra|].
  rewrite IH. lra.
Qed.

Lemma rms_spec data : rms data = spec_rms data.
Proof.
  unfold rms, spec_rms, mean. rewrite reduce_sum, Rplus_0_l.
  rewrite List.map_map, !length_map. reflexivity.
Qed.

Lemma ln_10_pos : 0 < ln 10.
Proof. rewrite <- ln_1. apply ln_increasing; lra. Qed.

Lemma thresholdValue_dB t : 20 * (ln (thresholdValue t) / ln 10) = t.
Proof.
  unfold thresholdValue, Rpower. rewrite ln_exp.
  pose proof ln_10_pos. field. lra.
Qed.

Lemma param_at_approaches e v0 dt :
  0 < dt → 0 < timeConstant_of e → v0 ≠ target_of e →
  match e with
  | SetTargetAtTime target startTime _ =>
      Rabs (param_at e v0 (startTime + dt) - target) < Rabs (v0 - target)
  end.
Proof.
  destruct e as [target startTime tau]. simpl. intros Hdt Htau Hv.
  replace (startTime + dt - startTime) with dt by lra.
  replace (target + (v0 - target) * exp (- (dt / tau)) - target)
    with ((v0 - target) * exp (- (dt / tau))) by ring.
  assert (Hx : 0 < dt / tau) by (apply Rdiv_lt_0_compat; lra).
  assert (He : 0 < exp (- (dt / tau)) < 1).
  { split; [apply exp_pos|]. rewrite <- exp_0. apply exp_increasing. lra. }
  rewrite Rabs_mult, (Rabs_pos_eq (exp _)) by lra.
  assert (0 < Rabs (v0 - target)) by (apply Rabs_pos_lt; lra).
  nra.
Qed.

(** C4.  On every block handled while the gate is wired: the handler's level
    is the root mean square of the byte samples normalized to [-1,1] about
    their centre 128; the threshold is the configured dB value as a linear
    amplitude; above the threshold the handler schedules an approach of the
    gate gain to 1 with time constant 0.01 s, otherwise an approach to 0 with
    the configured release; and the scheduled approach does bring the gain
    nearer its target. *)
Theorem onaudioprocess_gate (noiseGate : NoiseGateParams)
    (data : list Byte.byte) (currentTime : R) :
  0 < release noiseGate →
  Forall (λ val, -1 <= normalized val <= 1) data ∧
  rms data = spec_rms data ∧
  20 * (ln (thresholdValue (threshold noiseGate)) / ln 10) = threshold noiseGate ∧
  (rms data > thresholdValue (threshold noiseGate) →
     onaudioprocess true noiseGate data currentTime
     = Some (SetTargetAtTime 1 currentTime 0.01)) ∧
  (¬ rms data > thresholdValue (threshold noiseGate) →
     onaudioprocess true noiseGate data currentTime
     = Some (SetTargetAtTime 0 currentTime (release noiseGate))) ∧
  (∀ e v0 dt,
     onaudioprocess true noiseGate data currentTime = Some e →
     0 < dt → v0 ≠ target_of e →
     Rabs (param_at e v0 (currentTime + dt) - target_of e) < Rabs (v0 - target_of e)).
Proof.
  intros Hrel. split; [|split; [|split; [|split; [|split]]]].
  - apply Forall_forall. intros val _. apply normalized_range.
  - apply rms_spec.
  - apply thresholdValue_dB.
  - intros Hgt. unfold onaudioprocess. simpl.
    destruct (Rlt_dec _ _) as [_|Hn]; [reflexivity|]. exfalso. apply Hn. exact Hgt.
  - intros Hle. unfold onaudioprocess. simpl.
    destruct (Rlt_dec _ _) as [Hlt|_]; [|reflexivity]. exfalso. apply Hle. exact Hlt.
  - intros e v0 dt He Hdt Hv. unfold onaudioprocess in He. simpl in He.
    destruct (Rlt_dec _ _); injection He as <-;
      apply (param_at_approaches (SetTargetAtTime _ currentTime _) v0 dt);
      simpl; auto; lra.
Qed.

(** A block of digital silence, at the default settings. *)
Definition silence : list Byte.byte := repeat Byte.x80 frequencyBinCount.
Definition default_noiseGate : NoiseGateParams := mkParams (-50) 0.25.

Lemma onaudioprocess_gate_witness :
  0 < release default_noiseGate ∧
  Forall (λ val, -1 <= normalized val <= 1) silence ∧
  rms silence = spec_rms silence ∧
  20 * (ln (thresholdValue (threshold default_noiseGate)) / ln 10)
  = threshold default_noiseGate ∧
  (rms silence > thresholdValue (threshold default_noiseGate) →
     onaudioprocess true default_noiseGate silence 0
     = Some (SetTargetAtTime 1 0 0.01)) ∧
  (¬ rms silence > thresholdValue (threshold default_noiseGate) →
     onaudioprocess true default_noiseGate silence 0
     = Some (SetTargetAtTime 0 0 (release default_noiseGate))) ∧
  (∀ e v0 dt,
     onaudioprocess true default_noiseGate silence 0 = Some e →
     0 < dt → v0 ≠ target_of e →
     Rabs (param_at e v0 (0 + dt) - target_of e) < Rabs (v0 - target_of e)).
Proof.
  split; [simpl; lra|].
  apply (onaudioprocess_gate default_noiseGate silence 0). simpl. lra.
Defined.

(** ** Silence and the threshold *)

Lemma thresholdValue_pos t : 0 < thresholdValue t.
Proof. unfold thresholdValue, Rpower. apply exp_pos. Qed.

Lemma thresholdValue_0dB t : 0 <= t → 1 <= thresholdValue t.
Proof.
  intros Ht. unfold thresholdValue, Rpower. rewrite <- exp_0.
  pose proof ln_10_pos as Hl.
  assert (H : 0 <= t / 20 * ln 10) by (apply Rmult_le_pos; lra).
  destruct H as [H|<-]; [left; by apply exp_increasing|right; reflexivity].
Qed.

(** The sum the handler accumulates lies between 0 and the number of
    samples. *)
Lemma squares_sum_range data :
  0 <= fold_right Rplus 0 (List.map (λ val, ((byte_value val - 128) / 128) ^ 2) data)
    <= INR (length data).
Proof.
  set (f := λ val, ((byte_value val - 128) / 128) ^ 2).
  induction data as [|val data IH]; [simpl; lra|].
  change (length (val :: data)) with (S (length data)). rewrite S_INR.
  cbn [List.map fold_right]. pose proof (normalized_range val) as Hn.
  unfold normalized, center in Hn.
  assert (0 <= f val <= 1).
  { unfold f. set (y := (byte_value val - 128) / 128) in *. simpl. nra. }
  lra.
Qed.

Lemma rms_range data : 0 <= rms data <= 1.
Proof.
  unfold rms. rewrite reduce_sum, Rplus_0_l.
  pose proof (squares_sum_range data) as [H0 H1].
  set (sum := fold_right Rplus 0 _) in *.
  split; [apply sqrt_pos|].
  rewrite <- sqrt_1. apply sqrt_le_1_alt.
  destruct data as [|val data].
  - simpl in *. unfold Rdiv. rewrite Rinv_0. lra.
  - assert (Hn : 0 < INR (length (val :: data))) by (apply lt_0_INR; simpl; lia).
    apply (Rmult_le_reg_r (INR (length (val :: data)))); [done|].
    unfold Rdiv. rewrite Rmult_assoc, Rinv_l by lra. lra.
Qed.

Lemma rms_silence data : Forall (λ val, val = Byte.x80) data → rms data = 0.
Proof.
  intros Hs. unfold rms. rewrite reduce_sum, Rplus_0_l.
  assert (Hsum : fold_right Rplus 0
                   (List.map (λ val, ((byte_value val - 128) / 128) ^ 2) data) = 0).
  { set (f := λ val, ((byte_value val - 128) / 128) ^ 2).
    induction Hs as [|val data -> _ IH]; [done|]. cbn [List.map fold_right]. rewrite IH.
    unfold f, byte_value. simpl. lra. }
  rewrite Hsum. unfold Rdiv. rewrite Rmult_0_l. apply sqrt_0.
Qed.

(** X7.  On a block of digital silence (every byte of the analyser's
    buffer at the centre, 128) the handler schedules the gate towards 0
    with the configured release, whatever the threshold: no threshold is
    low enough for silence to open the gate. *)
Theorem silence_closes_gate (noiseGate : NoiseGateParams) (data : list Byte.byte)
    (currentTime : R) :
  length data = frequencyBinCount →
  Forall (λ val, val = Byte.x80) data →
  rms data = 0 ∧
  onaudioprocess true noiseGate data currentTime
  = Some (SetTargetAtTime 0 currentTime (release noiseGate)).
Proof.
  intros _ Hs. pose proof (rms_silence data Hs) as Hr. split; [done|].
  unfold onaudioprocess. simpl. rewrite Hr.
  pose proof (thresholdValue_pos (threshold noiseGate)).
  destruct (Rlt_dec _ _); [lra|done].
Qed.

Lemma silence_closes_gate_witness :
  length silence = frequencyBinCount ∧
  Forall (λ val, val = Byte.x80) silence ∧
  rms silence = 0 ∧
  onaudioprocess true (mkParams (-100) 0.25) silence 0
  = Some (SetTargetAtTime 0 0 (release (mkParams (-100) 0.25))).
Proof.
  split; [reflexivity|]. split; [repeat constructor|].
  apply (silence_closes_gate (mkParams (-100) 0.25) silence 0);
    [reflexivity|repeat constructor].
Defined.

(** X8.  The level the handler computes from the analyser's buffer never
    exceeds 1, so with the threshold at 0 dB (the top of its control) or
    above, the handler schedules the gate towards 0 on every block,
    however loud; and with a ref gone it schedules nothing. *)
Theorem gate_never_opens_at_0dB (noiseGate : NoiseGateParams) (data : list Byte.byte)
    (currentTime : R) :
  length data = frequencyBinCount →
  0 <= threshold noiseGate →
  0 <= rms data <= 1 ∧
  onaudioprocess true noiseGate data currentTime
  = Some (SetTargetAtTime 0 currentTime (release noiseGate)) ∧
  onaudioprocess false noiseGate data currentTime = None.
Proof.
  intros _ Ht. pose proof (rms_range data) as Hr. split; [done|]. split; [|done].
  unfold onaudioprocess. simpl.
  pose proof (thresholdValue_0dB _ Ht).
  destruct (Rlt_dec _ _); [lra|done].
Qed.

Lemma gate_never_opens_at_0dB_witness :
  length full_scale = frequencyBinCount ∧
  0 <= threshold (mkParams 0 0.25) ∧
  0 <= rms full_scale <= 1 ∧
  onaudioprocess true (mkParams 0 0.25) full_scale 0
  = Some (SetTargetAtTime 0 0 (release (mkParams 0 0.25))) ∧
  onaudioprocess false (mkParams 0 0.25) full_scale 0 = None.
Proof.
  split; [reflexivity|]. split; [simpl; lra|].
  apply (gate_never_opens_at_0dB (mkParams 0 0.25) full_scale 0);
    [reflexivity|simpl; lra].
Defined.

End NoiseGate.

(* ===================================================================== *)
(** * src/App.tsx: [connectNodes], the audio graph                        *)
(* ===================================================================== *)

Module Graph.

Local Open Scope R_scope.

(** ** The configuration: the component's state that [connectNodes] reads *)

Inductive BiquadFilterType := lowshelf | peaking | highshelf.

(** An entry of [eqBands]; [q] is absent on the two shelves. *)
Record EqBand := mkBand {
  band_id : string;
  label : string;
  band_gain : R;
  q : option R;
  freq : R;
  band_type : BiquadFilterType
}.

Record CompressorParams := mkCompressor {
  threshold : R; knee : R; ratio : R; attack : R; release : R
}.

Record DelayParams := mkDelay { time : R; feedback : R }.

Record Configuration := mkConfiguration {
  gain : R;
  drive : R;
  latency : R;
  eqBands : list EqBand;
  postGain : R;
  compressorEnabled : bool;
  compressor : CompressorParams;
  delayEnabled : bool;
  delay : DelayParams;
  pan : R;
  noiseGateEnabled : bool;
  noiseGate : NoiseGate.NoiseGateParams;
  reverbEnabled : bool;
  mix : R
}.

(** [initialEqBands]. *)
Definition initialEqBands : list EqBand :=
  [ mkBand "sub" "Sub Bass" 0 None 60 lowshelf;
    mkBand "bass" "Low Mid" 0 (Some 1) 250 peaking;
    mkBand "mid" "Mid" 0 (Some 1) 1000 peaking;
    mkBand "upperMid" "High Mid" 0 (Some 1) 4000 peaking;
    mkBand "treble" "Treble" 0 None 10000 highshelf ].

(** The [useState] initial values. *)
Definition initialConfiguration : Configuration :=
  {| gain := 1; drive := 0; latency := 0.01;
     eqBands := initialEqBands; postGain := 1;
     compressorEnabled := false;
     compressor := mkCompressor (-24) 30 12 0.003 0.25;
     delayEnabled := false; delay := mkDelay 0.5 0.5;
     pan := 0;
     noiseGateEnabled := false; noiseGate := NoiseGate.mkParams (-50) 0.25;
     reverbEnabled := false; mix := 0.5 |}.

(** ** Nodes *)

(** A node of one graph, named by the ref (or local) [connectNodes] keeps
    it in: [sourceNodeRef], [noiseGateAnalyserNodeRef],
    [scriptProcessorNodeRef], [noiseGateNodeRef], [gainNodeRef],
    [driveNodeRef], [compressorNodeRef], [eqNodesRef.current[i]],
    [postGainNodeRef], [delayNodeRef], [feedbackNodeRef], [pannerNodeRef],
    [finalMixer], [reverbDryGainRef], [reverbWetGainRef], [reverbNodeRef],
    [analyserNodeRef] and the context's [destination].  One run of
    [connectNodes] creates at most one node per name. *)
Inductive NodeName :=
| Source | NoiseGateAnalyser | ScriptProcessor | NoiseGate
| Gain | Drive | Compressor | Eq (index : nat) | PostGain
| Delay | Feedback | Panner | FinalMixer
| ReverbDry | ReverbWet | Reverb | Analyser | Destination.

#[global] Instance NodeName_eq_dec : EqDecision NodeName.
Proof. solve_decision. Defined.

Definition NodeName_code (n : NodeName) : nat + nat :=
  match n with
  | Source => inl 0 | NoiseGateAnalyser => inl 1 | ScriptProcessor => inl 2
  | NoiseGate => inl 3 | Gain => inl 4 | Drive => inl 5 | Compressor => inl 6
  | Eq i => inr i | PostGain => inl 7 | Delay => inl 8 | Feedback => inl 9
  | Panner => inl 10 | FinalMixer => inl 11 | ReverbDry => inl 12
  | ReverbWet => inl 13 | Reverb => inl 14 | Analyser => inl 15
  | Destination => inl 16
  end%nat.

Definition NodeName_decode (c : nat + nat) : NodeName :=
  match c with
  | inr i => Eq i
  | inl 0 => Source | inl 1 => NoiseGateAnalyser | inl 2 => ScriptProcessor
  | inl 3 => NoiseGate | inl 4 => Gain | inl 5 => Drive | inl 6 => Compressor
  | inl 7 => PostGain | inl 8 => Delay | inl 9 => Feedback
  | inl 10 => Panner | inl 11 => FinalMixer | inl 12 => ReverbDry
  | inl 13 => ReverbWet | inl 14 => Reverb | inl 15 => Analyser
  | inl _ => Destination
  end%nat.

#[global] Instance NodeName_countable : Countable NodeName.
Proof.
  apply (inj_countable' NodeName_code NodeName_decode). by intros [].
Defined.

(** The impulse buffer: [createBuffer(2, length, sampleRate)] with its
    channel data. *)
Record AudioBuffer := mkBuffer {
  numberOfChannels : nat;
  buffer_length : N;
  buffer_sampleRate : N;
  getChannelData : N → N → R
}.

Inductive OverSampleType := oversample_none | oversample_2x | oversample_4x.

(** What [onaudioprocess] is set to: the gate handler of [NoiseGate], which
    reads the analyser [noiseGateAnalyserNodeRef] and drives the gain of
    [noiseGateNodeRef]. *)
Inductive AudioProcessHandler := GateHandler.

(** A node with the parameters the source sets on it. *)
Inductive AudioNode :=
| MediaStreamAudioSourceNode
| AudioDestinationNode
| GainNode (gain_value : R)
| WaveShaperNode (curve : list R) (oversample : OverSampleType)
| DynamicsCompressorNode (threshold knee ratio attack release : R)
| BiquadFilterNode (type : BiquadFilterType) (frequency gain_dB Q : R)
| DelayNode (maxDelayTime delayTime : R)
| StereoPannerNode (pan_value : R)
| ConvolverNode (buffer : AudioBuffer)
| AnalyserNode (fftSize : nat)
| ScriptProcessorNode (bufferSize inputs outputs : nat)
    (onaudioprocess : AudioProcessHandler).

(** The graph of one audio context: its nodes, and the connections made,
    in the order [connect] was called. *)
Record AudioGraph := mkGraph {
  nodes : gmap NodeName AudioNode;
  edges : list (NodeName * NodeName)
}.

(** ** Building: a state monad over the graph *)

Definition Build (A : Type) : Type := AudioGraph → A * AudioGraph.

Definition ret {A} (a : A) : Build A := λ g, (a, g).

Definition bind {A B} (m : Build A) (f : A → Build B) : Build B :=
  λ g, let (a, g') := m g in f a g'.

Declare Scope build_scope.
Delimit Scope build_scope with build.
Notation "x <- m ;; k" := (bind m (λ x, k))
  (at level 100, m at next level, right associativity) : build_scope.
Notation "m ;;; k" := (bind m (λ _, k))
  (at level 100, right associativity) : build_scope.
Local Open Scope build_scope.

(** [audioContextRef.current.createX()] followed by the assignments of the
    node's parameters: the node enters the graph with those values. *)
Definition create (n : NodeName) (node : AudioNode) : Build NodeName :=
  λ g, (n, {| nodes := <[n := node]> (nodes g); edges := edges g |}).

(** [a.connect(b)]. *)
Definition connect (a b : NodeName) : Build unit :=
  λ g, (tt, {| nodes := nodes g; edges := edges g ++ [(a, b)] |}).

(** [if (band.q) filter.Q.value = band.q]: the value written, if any
    ([undefined] and [0] are falsy). *)
Definition truthy (q : option R) : option R :=
  match q with
  | Some v => if Req_dec_T v 0 then None else Some v
  | None => None
  end.

(** The default [Q] of a [BiquadFilterNode]. *)
Definition default_Q : R := 1.

(** The callback of [eqBands.map]. *)
Definition createFilter (band : EqBand) : AudioNode :=
  BiquadFilterNode (band_type band) (freq band) (band_gain band)
    (default default_Q (truthy (q band))).

(** [eqNodesRef.current = eqBands.map(band => ...)]. *)
Fixpoint createFilters (bands : list EqBand) (index : nat) : Build (list NodeName) :=
  match bands with
  | [] => ret []
  | band :: rest =>
      filter <- create (Eq index) (createFilter band) ;;
      filters <- createFilters rest (S index) ;;
      ret (filter :: filters)
  end.

(** [eqNodesRef.current.forEach(filter => { lastNode.connect(filter);
    lastNode = filter; })]. *)
Fixpoint connectFilters (lastNode : NodeName) (filters : list NodeName) : Build NodeName :=
  match filters with
  | [] => ret lastNode
  | filter :: rest => connect lastNode filter ;;; connectFilters filter rest
  end.

(** The impulse response: [length = sampleRate * 2]; sample [i] of each
    channel is [(Math.random() * 2 - 1) * Math.pow(1 - i / length, 2.5)],
    the left channel drawing before the right.  [random n] is the [n]-th
    draw. *)
Definition impulse (random : N → R) (sampleRate : N) : AudioBuffer :=
  let length := (sampleRate * 2)%N in
  {| numberOfChannels := 2;
     buffer_length := length;
     buffer_sampleRate := sampleRate;
     getChannelData := λ channel i,
       (random (2 * i + channel)%N * 2 - 1)
       * Rpower (1 - IZR (Z.of_N i) / IZR (Z.of_N length)) 2.5 |}.

(** [connectNodes], after its guard: the context and the source exist. *)
Definition connectNodes (cfg : Configuration) (random : N → R) (sampleRate : N)
  : Build unit :=
  let lastNode := Source in
  lastNode <-
    (if noiseGateEnabled cfg then
       analyser <- create NoiseGateAnalyser (AnalyserNode 256) ;;
       processor <- create ScriptProcessor (ScriptProcessorNode 256 1 1 GateHandler) ;;
       gate <- create NoiseGate (GainNode 1) ;;
       connect lastNode analyser ;;;
       connect analyser processor ;;;
       connect processor Destination ;;;
       connect lastNode gate ;;;
       ret gate
     else ret lastNode) ;;
  gainNode <- create Gain (GainNode (gain cfg)) ;;
  connect lastNode gainNode ;;;
  let lastNode := gainNode in
  driveNode <- create Drive (WaveShaperNode (Drive.makeCurve (drive cfg)) oversample_4x) ;;
  connect lastNode driveNode ;;;
  let lastNode := driveNode in
  lastNode <-
    (if compressorEnabled cfg then
       let c := compressor cfg in
       compressorNode <- create Compressor
         (DynamicsCompressorNode (threshold c) (knee c) (ratio c) (attack c) (release c)) ;;
       connect lastNode compressorNode ;;;
       ret compressorNode
     else ret lastNode) ;;
  eqNodes <- createFilters (eqBands cfg) 0 ;;
  lastNode <- connectFilters lastNode eqNodes ;;
  postGainNode <- create PostGain (GainNode (postGain cfg)) ;;
  connect lastNode postGainNode ;;;
  let lastNode := postGainNode in
  lastNode <-
    (if delayEnabled cfg then
       delayNode <- create Delay (DelayNode 5 (time (delay cfg))) ;;
       feedbackNode <- create Feedback (GainNode (feedback (delay cfg))) ;;
       connect lastNode delayNode ;;;
       connect delayNode feedbackNode ;;;
       connect feedbackNode delayNode ;;;
       ret delayNode
     else ret lastNode) ;;
  pannerNode <- create Panner (StereoPannerNode (pan cfg)) ;;
  connect lastNode pannerNode ;;;
  let lastNode := pannerNode in
  let mainSignalPath := lastNode in
  finalMixer <- create FinalMixer (GainNode 1) ;;
  lastNode <-
    (if reverbEnabled cfg then
       dry <- create ReverbDry (GainNode (1 - mix cfg)) ;;
       wet <- create ReverbWet (GainNode (mix cfg)) ;;
       convolver <- create Reverb (ConvolverNode (impulse random sampleRate)) ;;
       connect mainSignalPath dry ;;;
       connect dry finalMixer ;;;
       connect mainSignalPath convolver ;;;
       connect convolver wet ;;;
       connect wet finalMixer ;;;
       ret finalMixer
     else
       connect mainSignalPath finalMixer ;;;
       ret finalMixer) ;;
  analyserNode <- create Analyser (AnalyserNode 256) ;;
  connect lastNode analyserNode ;;;
  connect lastNode Destination.

(** A new context with the source [start] has just created on it. *)
Definition context_with_source : AudioGraph :=
  {| nodes := {[ Source := MediaStreamAudioSourceNode;
                 Destination := AudioDestinationNode ]};
     edges := [] |}.

(** One rebuild: the graph [start] leaves in the new context. *)
Definition rebuild (cfg : Configuration) (random : N → R) (sampleRate : N)
  : AudioGraph :=
  snd (connectNodes cfg random sampleRate context_with_source).

(** ** The rebuilt graph in closed form *)

(** The node [lastNode] names after each optional block. *)
Definition after_gate (cfg : Configuration) : NodeName :=
  if noiseGateEnabled cfg then NoiseGate else Source.
Definition after_drive (cfg : Configuration) : NodeName :=
  if compressorEnabled cfg then Compressor else Drive.
Definition filter_names (cfg : Configuration) : list NodeName :=
  List.map Eq (seq 0 (length (eqBands cfg))).
Definition after_filters (cfg : Configuration) : NodeName :=
  List.last (filter_names cfg) (after_drive cfg).
Definition after_postGain (cfg : Configuration) : NodeName :=
  if delayEnabled cfg then Delay else PostGain.

(** [last -> n1 -> n2 -> ...]. *)
Fixpoint chain (last : NodeName) (l : list NodeName) : list (NodeName * NodeName) :=
  match l with
  | [] => []
  | n :: rest => (last, n) :: chain n rest
  end.

Definition gate_edges (cfg : Configuration) : list (NodeName * NodeName) :=
  if noiseGateEnabled cfg then
    [(Source, NoiseGateAnalyser); (NoiseGateAnalyser, ScriptProcessor);
     (ScriptProcessor, Destination); (Source, NoiseGate)]
  else [].
Definition compressor_edges (cfg : Configuration) : list (NodeName * NodeName) :=
  if compressorEnabled cfg then [(Drive, Compressor)] else [].
Definition delay_edges (cfg : Configuration) : list (NodeName * NodeName) :=
  if delayEnabled cfg then [(PostGain, Delay); (Delay, Feedback); (Feedback, Delay)]
  else [].
Definition reverb_edges (cfg : Configuration) : list (NodeName * NodeName) :=
  if reverbEnabled cfg then
    [(Panner, ReverbDry); (ReverbDry, FinalMixer); (Panner, Reverb);
     (Reverb, ReverbWet); (ReverbWet, FinalMixer)]
  else [(Panner, FinalMixer)].
Definition tap_edges : list (NodeName * NodeName) :=
  [(FinalMixer, Analyser); (FinalMixer, Destination)].

(** The connections up to the panner, which do not depend on the reverb. *)
Definition upstream_edges (cfg : Configuration) : list (NodeName * NodeName) :=
  gate_edges cfg ++ [(after_gate cfg, Gain); (Gain, Drive)] ++ compressor_edges cfg
  ++ chain (after_drive cfg) (filter_names cfg) ++ [(after_filters cfg, PostGain)]
  ++ delay_edges cfg ++ [(after_postGain cfg, Panner)].

(** The node a name stands for after a rebuild, if it was created. *)
Definition node_of (cfg : Configuration) (random : N → R) (sampleRate : N)
    (n : NodeName) : option AudioNode :=
  let gate (node : AudioNode) := if noiseGateEnabled cfg then Some node else None in
  let reverb (node : AudioNode) := if reverbEnabled cfg then Some node else None in
  match n with
  | Source => Some MediaStreamAudioSourceNode
  | Destination => Some AudioDestinationNode
  | NoiseGateAnalyser => gate (AnalyserNode 256)
  | ScriptProcessor => gate (ScriptProcessorNode 256 1 1 GateHandler)
  | NoiseGate => gate (GainNode 1)
  | Gain => Some (GainNode (gain cfg))
  | Drive => Some (WaveShaperNode (Drive.makeCurve (drive cfg)) oversample_4x)
  | Compressor =>
      if compressorEnabled cfg then
        let c := compressor cfg in
        Some (DynamicsCompressorNode (threshold c) (knee c) (ratio c) (attack c) (release c))
      else None
  | Eq i => createFilter <$> eqBands cfg !! i
  | PostGain => Some (GainNode (postGain cfg))
  | Delay => if delayEnabled cfg then Some (DelayNode 5 (time (delay cfg))) else None
  | Feedback => if delayEnabled cfg then Some (GainNode (feedback (delay cfg))) else None
  | Panner => Some (StereoPannerNode (pan cfg))
  | FinalMixer => Some (GainNode 1)
  | ReverbDry => reverb (GainNode (1 - mix cfg))
  | ReverbWet => reverb (GainNode (mix cfg))
  | Reverb => reverb (ConvolverNode (impulse random sampleRate))
  | Analyser => Some (AnalyserNode 256)
  end.

(** The nodes each optional block adds. *)
Definition gate_nodes (cfg : Configuration) (m : gmap NodeName AudioNode) :=
  if noiseGateEnabled cfg then
    <[NoiseGate := GainNode 1]>
      (<[ScriptProcessor := ScriptProcessorNode 256 1 1 GateHandler]>
         (<[NoiseGateAnalyser := AnalyserNode 256]> m))
  else m.
Definition compressor_nodes (cfg : Configuration) (m : gmap NodeName AudioNode) :=
  if compressorEnabled cfg then
    let c := compressor cfg in
    <[Compressor := DynamicsCompressorNode (threshold c) (knee c) (ratio c) (attack c) (release c)]> m
  else m.
Definition delay_nodes (cfg : Configuration) (m : gmap NodeName AudioNode) :=
  if delayEnabled cfg then
    <[Feedback := GainNode (feedback (delay cfg))]> (<[Delay := DelayNode 5 (time (delay cfg))]> m)
  else m.
Definition reverb_nodes (cfg : Configuration) random sampleRate (m : gmap NodeName AudioNode) :=
  if reverbEnabled cfg then
    <[Reverb := ConvolverNode (impulse random sampleRate)]>
      (<[ReverbWet := GainNode (mix cfg)]> (<[ReverbDry := GainNode (1 - mix cfg)]> m))
  else m.

(** The nodes [createFilters] adds. *)
Fixpoint with_filters (bands : list EqBand) (index : nat)
    (m : gmap NodeName AudioNode) : gmap NodeName AudioNode :=
  match bands with
  | [] => m
  | band :: rest => with_filters rest (S index) (<[Eq index := createFilter band]> m)
  end.

(** ** What a graph renders

    A signal is a stream of samples (one channel).  The browser's stateful
    nodes are an arbitrary [Host]; gain, summing of connections and the wave
    shaper's table lookup are written out from the Web Audio definitions. *)

Definition Signal : Type := nat → R.

Record Host := mkHost {
  biquadFilter : BiquadFilterType → R → R → R → Signal → Signal;
  dynamicsCompressor : R → R → R → R → R → Signal → Signal;
  delayLine : R → R → Signal → Signal;
  stereoPanner : R → Signal → Signal;
  convolver : AudioBuffer → Signal → Signal;
  (** the gain a handler's [setTargetAtTime] calls produce over time, given
      the signal its analyser receives *)
  scheduledGain : AudioProcessHandler → Signal → Signal
}.

(** [WaveShaperNode.curve] (Web Audio): with [N] the length of the curve,
    [v = (N-1)/2 * (x+1)], [k = floor v], [f = v - k]; the output is [c_0]
    when [v < 0], [c_(N-1)] when [v >= N-1], and
    [(1-f) * c_k + f * c_(k+1)] otherwise.  The oversampling filter around
    it is not modelled. *)
Definition waveshape (curve : list R) (x : R) : R :=
  let N := INR (length curve) in
  let v := (N - 1) / 2 * (x + 1) in
  if Rlt_dec v 0 then nth 0 curve 0
  else if Rle_dec (N - 1) v then nth (length curve - 1) curve 0
  else
    let k := Z.to_nat (Zfloor v) in
    let f := v - INR k in
    (1 - f) * nth k curve 0 + f * nth (k + 1) curve 0.

(** The sum of what is connected to [n]. *)
Definition incoming (G : AudioGraph) (σ : NodeName → Signal) (n : NodeName) : Signal :=
  λ t, foldr (λ e acc, if decide (e.2 = n) then σ e.1 t + acc else acc) 0 (edges G).

(** The handler that drives the gain of [n], with the analyser it reads:
    the gate handler closes over [noiseGateNodeRef] and
    [noiseGateAnalyserNodeRef]. *)
Definition automation (G : AudioGraph) (n : NodeName)
  : option (AudioProcessHandler * NodeName) :=
  match n, nodes G !! ScriptProcessor with
  | NoiseGate, Some (ScriptProcessorNode _ _ _ handler) =>
      Some (handler, NoiseGateAnalyser)
  | _, _ => None
  end.

(** The output of node [n], given the outputs [σ] of all nodes.  The gate
    handler never writes its [outputBuffer]: the script processor renders
    silence. *)
Definition render (h : Host) (G : AudioGraph) (input : Signal)
    (σ : NodeName → Signal) (n : NodeName) (node : AudioNode) : Signal :=
  let x := incoming G σ n in
  match node with
  | MediaStreamAudioSourceNode => input
  | AudioDestinationNode => x
  | GainNode g =>
      match automation G n with
      | Some (handler, analyser) =>
          λ t, scheduledGain h handler (incoming G σ analyser) t * x t
      | None => λ t, g * x t
      end
  | WaveShaperNode curve _ => λ t, waveshape curve (x t)
  | DynamicsCompressorNode th kn ra at_ re => dynamicsCompressor h th kn ra at_ re x
  | BiquadFilterNode ty f g Q => biquadFilter h ty f g Q x
  | DelayNode m d => delayLine h m d x
  | StereoPannerNode p => stereoPanner h p x
  | ConvolverNode b => convolver h b x
  | AnalyserNode _ => x
  | ScriptProcessorNode _ _ _ _ => λ _, 0
  end.

(** [σ] is a rendering of [G] on [input]: every node outputs what its kind
    makes of its inputs.  What is heard is [σ Destination]. *)
Definition renders (h : Host) (G : AudioGraph) (input : Signal)
    (σ : NodeName → Signal) : Prop :=
  ∀ n node, nodes G !! n = Some node → σ n = render h G input σ n node.

(** Host facts used below: a filter of 0 dB gain of the three kinds used
    (shelves and peaking) has the unit transfer function, and a centred
    panner passes its input. *)
Definition flat_filters_pass (h : Host) : Prop :=
  ∀ type f Q s, biquadFilter h type f 0 Q s = s.

Definition centred_panner_passes (h : Host) : Prop :=
  ∀ s, stereoPanner h 0 s = s.

(** ** Definitions used to state the facts *)

(** What the connections [E] bring to [n] at time [t]. *)
Definition sum_into (E : list (NodeName * NodeName)) (σ : NodeName → Signal)
    (n : NodeName) (t : nat) : R :=
  foldr (λ e acc, if decide (e.2 = n) then σ e.1 t + acc else acc) 0 E.

(** The nodes connected to [n] after a rebuild. *)
Definition feeders (cfg : Configuration) (n : NodeName) : list NodeName :=
  match n with
  | Source => []
  | NoiseGateAnalyser => if noiseGateEnabled cfg then [Source] else []
  | ScriptProcessor => if noiseGateEnabled cfg then [NoiseGateAnalyser] else []
  | NoiseGate => if noiseGateEnabled cfg then [Source] else []
  | Gain => [after_gate cfg]
  | Drive => [Gain]
  | Compressor => if compressorEnabled cfg then [Drive] else []
  | Eq j =>
      if decide (j < length (eqBands cfg))%nat
      then [if decide (j = 0%nat) then after_drive cfg else Eq (j - 1)]
      else []
  | PostGain => [after_filters cfg]
  | Delay => if delayEnabled cfg then [PostGain; Feedback] else []
  | Feedback => if delayEnabled cfg then [Delay] else []
  | Panner => [after_postGain cfg]
  | FinalMixer => if reverbEnabled cfg then [ReverbDry; ReverbWet] else [Panner]
  | ReverbDry => if reverbEnabled cfg then [Panner] else []
  | Reverb => if reverbEnabled cfg then [Panner] else []
  | ReverbWet => if reverbEnabled cfg then [Reverb] else []
  | Analyser => [FinalMixer]
  | Destination =>
      (if noiseGateEnabled cfg then [ScriptProcessor] else []) ++ [FinalMixer]
  end.

Definition sum_of (σ : NodeName → Signal) (t : nat) (l : list NodeName) : R :=
  foldr (λ m acc, σ m t + acc) 0 l.

(** [x] limited to the wave shaper's input range [-1, 1]. *)
Definition clamp (x : R) : R := Rmax (-1) (Rmin 1 x).

(** ** C1: gain 2, drive 0, flat equalizer, nothing optional *)

Definition doubling_scenario (cfg : Configuration) : Prop :=
  gain cfg = 2 ∧ drive cfg = 0 ∧ Forall (λ b, band_gain b = 0) (eqBands cfg) ∧
  postGain cfg = 1 ∧ compressorEnabled cfg = false ∧ delayEnabled cfg = false ∧
  noiseGateEnabled cfg = false ∧ reverbEnabled cfg = false.

(** The claim: whatever is rendered, the output is twice the input. *)
Definition output_doubles_input (cfg : Configuration) : Prop :=
  ∀ h random sampleRate input σ,
    flat_filters_pass h → centred_panner_passes h →
    renders h (rebuild cfg random sampleRate) input σ →
    ∀ t, σ Destination t = 2 * input t.

(** A host whose stateful nodes pass their input through, and whose gate
    stays open. *)
Definition passthrough_host : Host :=
  {| biquadFilter := λ _ _ _ _ s, s;
     dynamicsCompressor := λ _ _ _ _ _ s, s;
     delayLine := λ _ _ s, s;
     stereoPanner := λ _ s, s;
     convolver := λ _ s, s;
     scheduledGain := λ _ _ _, 1 |}.

(** The initial settings with the gain at 2. *)
Definition doubling_config : Configuration :=
  {| gain := 2; drive := 0; latency := 0.01;
     eqBands := initialEqBands; postGain := 1;
     compressorEnabled := false;
     compressor := mkCompressor (-24) 30 12 0.003 0.25;
     delayEnabled := false; delay := mkDelay 0.5 0.5;
     pan := 0;
     noiseGateEnabled := false; noiseGate := NoiseGate.mkParams (-50) 0.25;
     reverbEnabled := false; mix := 0.5 |}.

(** What the graph of [doubling_config] renders on [input]. *)
Definition shaped (input : Signal) : Signal :=
  λ t, (255 * clamp (2 * input t) - 1) / 768.

Definition doubling_rendering (input : Signal) (n : NodeName) : Signal :=
  match n with
  | Source => input
  | Gain => λ t, 2 * input t
  | Drive | Eq _ | PostGain | Panner | FinalMixer | Analyser | Destination => shaped input
  | _ => λ _, 0
  end.

(** A constant input of a quarter of full scale. *)
Definition quarter : Signal := λ _, 1 / 4.

Definition no_random : N → R := λ _, 0.

(** ** C2: the spec's chain *)

(** The stages of the spec's chain. *)
Inductive Stage :=
| noiseGateStage | gainStage | driveStage | compressorStage
| eqBand (id : string) | postGainStage | delayStage | pannerStage
| reverbStage | passthrough | analyzerTap.

(** [source → [noiseGate] → gain → drive → [compressor] → eqBand(sub) →
    eqBand(bass) → eqBand(mid) → eqBand(upperMid) → eqBand(treble) →
    postGain → [delay+feedback] → panner →
    [reverb dry/wet split + remix else passthrough] → analyzerTap → sink],
    a bracketed stage being listed when its flag is set. *)
Definition spec_chain (cfg : Configuration) : list Stage :=
  (if noiseGateEnabled cfg then [noiseGateStage] else []) ++
  [gainStage; driveStage] ++
  (if compressorEnabled cfg then [compressorStage] else []) ++
  [eqBand "sub"; eqBand "bass"; eqBand "mid"; eqBand "upperMid"; eqBand "treble"] ++
  [postGainStage] ++
  (if delayEnabled cfg then [delayStage] else []) ++
  [pannerStage] ++
  [if reverbEnabled cfg then reverbStage else passthrough] ++
  [analyzerTap].

(** How a stage is wired: the paths that leave the stage before it, and the
    node the next stage is fed from (none for a tap, which leaves the
    signal where it was). *)
Record Wiring := mkWiring {
  paths : list (list NodeName);
  outlet : option NodeName
}.

Definition inline (n : NodeName) : Wiring := mkWiring [[n]] (Some n).

(** The filter of the band with a given id: its position in [eqBands]. *)
Definition band_index (cfg : Configuration) (id : string) : nat :=
  default 0%nat (fst <$> list_find (λ b, band_id b = id) (eqBands cfg)).

Definition wiring (cfg : Configuration) (s : Stage) : Wiring :=
  match s with
  | noiseGateStage =>
      (* the side chain that measures the level, kept alive by the sink,
         and the gain it drives *)
      mkWiring [[NoiseGateAnalyser; ScriptProcessor; Destination]; [NoiseGate]]
        (Some NoiseGate)
  | gainStage => inline Gain
  | driveStage => inline Drive
  | compressorStage => inline Compressor
  | eqBand id => inline (Eq (band_index cfg id))
  | postGainStage => inline PostGain
  | delayStage =>
      (* the delay, and its feedback loop back into itself *)
      mkWiring [[Delay; Feedback; Delay]] (Some Delay)
  | pannerStage => inline Panner
  | reverbStage =>
      (* dry and wet branches, remixed *)
      mkWiring [[ReverbDry; FinalMixer]; [Reverb; ReverbWet; FinalMixer]]
        (Some FinalMixer)
  | passthrough => inline FinalMixer
  | analyzerTap => mkWiring [[Analyser]] None
  end.

(** The connections of a chain of stages fed from [last], ending at the
    sink. *)
Fixpoint wire (cfg : Configuration) (last : NodeName) (stages : list Stage)
  : list (NodeName * NodeName) :=
  match stages with
  | [] => [(last, Destination)]
  | s :: rest =>
      flat_map (chain last) (paths (wiring cfg s))
      ++ wire cfg (default last (outlet (wiring cfg s))) rest
  end.

(** The nodes of a chain. *)
Definition stage_nodes (cfg : Configuration) (stages : list Stage) : list NodeName :=
  Source :: Destination :: flat_map (λ s, concat (paths (wiring cfg s))) stages.

(** The nodes that exist only for an optional stage. *)
Definition optional_nodes (s : Stage) : list NodeName :=
  match s with
  | noiseGateStage => [NoiseGateAnalyser; ScriptProcessor; NoiseGate]
  | compressorStage => [Compressor]
  | delayStage => [Delay; Feedback]
  | reverbStage => [ReverbDry; Reverb; ReverbWet]
  | _ => []
  end.

Definition enabled (cfg : Configuration) (s : Stage) : bool :=
  match s with
  | noiseGateStage => noiseGateEnabled cfg
  | compressorStage => compressorEnabled cfg
  | delayStage => delayEnabled cfg
  | reverbStage => reverbEnabled cfg
  | _ => true
  end.

Definition five_bands : list string := ["sub"; "bass"; "mid"; "upperMid"; "treble"]%string.

(** ** C6: the reverb stage *)

(** The configuration with the reverb switched off. *)
Definition bypass_reverb (cfg : Configuration) : Configuration :=
  mkConfiguration (gain cfg) (drive cfg) (latency cfg) (eqBands cfg) (postGain cfg)
    (compressorEnabled cfg) (compressor cfg) (delayEnabled cfg) (delay cfg) (pan cfg)
    (noiseGateEnabled cfg) (noiseGate cfg) false (mix cfg).

(** A rendering extended to the three nodes of the reverb stage: the dry
    gain, the convolver and the wet gain, all fed from the panner. *)
Definition with_reverb (h : Host) (cfg : Configuration) (random : N → R) (sampleRate : N)
    (σ : NodeName → Signal) : NodeName → Signal :=
  λ n, match n with
       | ReverbDry => λ t, (1 - mix cfg) * σ Panner t
       | Reverb => convolver h (impulse random sampleRate) (σ Panner)
       | ReverbWet => λ t, mix cfg * convolver h (impulse random sampleRate) (σ Panner) t
       | _ => σ n
       end.

Definition reverb_node (n : NodeName) : bool :=
  match n with ReverbDry | ReverbWet | Reverb => true | _ => false end.

(** ** Definitions used to state the facts about the shape of the graph *)

(** The place of a node along the signal path. *)
Definition stage_rank (cfg : Configuration) (n : NodeName) : nat :=
  let bands := length (eqBands cfg) in
  match n with
  | Source => 0
  | NoiseGateAnalyser => 1
  | ScriptProcessor => 2
  | NoiseGate => 3
  | Gain => 4
  | Drive => 5
  | Compressor => 6
  | Eq i => 7 + i
  | PostGain => 7 + bands
  | Delay => 8 + bands
  | Feedback => 9 + bands
  | Panner => 10 + bands
  | ReverbDry => 11 + bands
  | Reverb => 11 + bands
  | ReverbWet => 12 + bands
  | FinalMixer => 13 + bands
  | Analyser => 14 + bands
  | Destination => 15 + bands
  end.

(** Whether a rebuild creates the node of that name. *)
Definition created (cfg : Configuration) (n : NodeName) : bool :=
  match n with
  | NoiseGateAnalyser | ScriptProcessor | NoiseGate => noiseGateEnabled cfg
  | Compressor => compressorEnabled cfg
  | Eq i => bool_decide (i < length (eqBands cfg))%nat
  | Delay | Feedback => delayEnabled cfg
  | ReverbDry | ReverbWet | Reverb => reverbEnabled cfg
  | _ => true
  end.

(** The filter [createFilter] makes of a band, with its [Q] written out. *)
Definition filter_of (band : EqBand) : AudioNode :=
  BiquadFilterNode (band_type band) (freq band) (band_gain band)
    (match q band with
     | Some v => if Req_dec_T v 0 then 1 else v
     | None => 1
     end).

(** The envelope of the impulse response at sample [i] of [length]. *)
Definition envelope (length i : N) : R :=
  Rpower (1 - IZR (Z.of_N i) / IZR (Z.of_N length)) 2.5.

(** The scenario of C1 with the noise gate switched on, and what its graph
    renders when the gate stays open. *)
Definition gated_config : Configuration :=
  {| gain := 2; drive := 0; latency := 0.01;
     eqBands := initialEqBands; postGain := 1;
     compressorEnabled := false;
     compressor := mkCompressor (-24) 30 12 0.003 0.25;
     delayEnabled := false; delay := mkDelay 0.5 0.5;
     pan := 0;
     noiseGateEnabled := true; noiseGate := NoiseGate.mkParams (-50) 0.25;
     reverbEnabled := false; mix := 0.5 |}.

Definition gated_rendering (input : Signal) (n : NodeName) : Signal :=
  match n with
  | NoiseGateAnalyser | NoiseGate => input
  | _ => doubling_rendering input n
  end.

(** A full-scale input. *)
Definition unit_input : Signal := λ _, 1.

(** ** Facts about [connectNodes] *)

Lemma createFilters_spec bands : ∀ index g,
  createFilters bands index g
  = (List.map Eq (seq index (length bands)),
     {| nodes := with_filters bands index (nodes g); edges := edges g |}).
Proof.
  induction bands as [|band rest IH]; intros index g; simpl.
  - by destruct g.
  - unfold bind, create at 1. rewrite IH. reflexivity.
Qed.

Lemma last_cons {A} (l : list A) : ∀ x d, List.last (x :: l) d = List.last l x.
Proof.
  induction l as [|y l IH]; intros x d; [reflexivity|].
  change (List.last (x :: y :: l) d) with (List.last (y :: l) d).
  rewrite !IH. reflexivity.
Qed.

Lemma connectFilters_spec filters : ∀ lastNode g,
  connectFilters lastNode filters g
  = (List.last filters lastNode,
     {| nodes := nodes g; edges := edges g ++ chain lastNode filters |}).
Proof.
  induction filters as [|f rest IH]; intros lastNode g; simpl.
  - rewrite app_nil_r. by destruct g.
  - unfold bind, connect at 1. rewrite IH. simpl.
    rewrite <- app_assoc. simpl. f_equal. symmetry. apply last_cons.
Qed.

Lemma with_filters_other bands n : ∀ index m,
  (∀ i, n ≠ Eq i) → with_filters bands index m !! n = m !! n.
Proof.
  induction bands as [|band rest IH]; intros index m Hn; simpl; [done|].
  rewrite IH by done. apply lookup_insert_ne. by apply not_eq_sym.
Qed.

Lemma with_filters_Eq bands i : ∀ index m,
  with_filters bands index m !! Eq i
  = if decide (index <= i < index + length bands)%nat
    then createFilter <$> bands !! (i - index)%nat
    else m !! Eq i.
Proof.
  induction bands as [|band rest IH]; intros index m; simpl.
  - destruct (decide _); [lia|done].
  - rewrite IH. destruct (decide (S index <= i < S index + length rest)%nat).
    + rewrite decide_True by lia.
      replace (i - index)%nat with (S (i - S index)) by lia. done.
    + destruct (decide (index = i)) as [->|Hne].
      * rewrite decide_True by lia. rewrite lookup_insert_eq.
        by replace (i - i)%nat with 0%nat by lia.
      * rewrite decide_False by lia. rewrite lookup_insert_ne by congruence. done.
Qed.

Lemma rebuild_edges cfg random sampleRate :
  edges (rebuild cfg random sampleRate)
  = upstream_edges cfg ++ reverb_edges cfg ++ tap_edges.
Proof.
  unfold rebuild, connectNodes, upstream_edges, gate_edges, compressor_edges,
    delay_edges, reverb_edges, tap_edges, after_gate, after_filters,
    after_postGain, after_drive, filter_names, bind.
  destruct (noiseGateEnabled cfg), (compressorEnabled cfg), (delayEnabled cfg),
    (reverbEnabled cfg); simpl;
    rewrite createFilters_spec, connectFilters_spec; simpl;
    rewrite <- ?app_assoc; reflexivity.
Qed.

Lemma rebuild_nodes_stack cfg random sampleRate :
  nodes (rebuild cfg random sampleRate)
  = <[Analyser := AnalyserNode 256]>
      (reverb_nodes cfg random sampleRate
        (<[FinalMixer := GainNode 1]>
          (<[Panner := StereoPannerNode (pan cfg)]>
            (delay_nodes cfg
              (<[PostGain := GainNode (postGain cfg)]>
                (with_filters (eqBands cfg) 0
                  (compressor_nodes cfg
                    (<[Drive := WaveShaperNode (Drive.makeCurve (drive cfg)) oversample_4x]>
                      (<[Gain := GainNode (gain cfg)]>
                        (gate_nodes cfg (nodes context_with_source))))))))))).
Proof.
  unfold rebuild, connectNodes, bind, gate_nodes, compressor_nodes, delay_nodes, reverb_nodes.
  destruct (noiseGateEnabled cfg), (compressorEnabled cfg), (delayEnabled cfg),
    (reverbEnabled cfg); simpl;
    rewrite createFilters_spec, connectFilters_spec; reflexivity.
Qed.


Lemma with_filters_lookup bands index m n :
  with_filters bands index m !! n
  = match n with
    | Eq i => if decide (index <= i < index + length bands)%nat
              then createFilter <$> bands !! (i - index)%nat
              else m !! n
    | _ => m !! n
    end.
Proof.
  destruct n; try (apply with_filters_other; intros ?; discriminate).
  apply with_filters_Eq.
Qed.

Lemma lookup_if (b : bool) (m1 m2 : gmap NodeName AudioNode) n :
  (if b then m1 else m2) !! n = if b then m1 !! n else m2 !! n.
Proof. by destruct b. Qed.

Lemma rebuild_nodes cfg random sampleRate n :
  nodes (rebuild cfg random sampleRate) !! n = node_of cfg random sampleRate n.
Proof.
  rewrite rebuild_nodes_stack.
  unfold gate_nodes, compressor_nodes, delay_nodes, reverb_nodes, context_with_source, node_of.
  cbv zeta. simpl nodes.
  repeat first [ rewrite lookup_insert | rewrite lookup_if | rewrite with_filters_lookup
               | rewrite lookup_empty ].
  destruct n as [| | | | | | |i| | | | | | | | | |]; simpl;
    destruct (noiseGateEnabled cfg), (compressorEnabled cfg), (delayEnabled cfg),
      (reverbEnabled cfg); try reflexivity;
    (destruct (decide _) as [Hi|Hi];
     [ by rewrite Nat.sub_0_r
     | rewrite (lookup_ge_None_2 (eqBands cfg) i) by lia; reflexivity ]).
Qed.

Lemma incoming_sum_into G σ n t : incoming G σ n t = sum_into (edges G) σ n t.
Proof. reflexivity. Qed.

Lemma sum_into_app E1 E2 σ n t :
  sum_into (E1 ++ E2) σ n t = sum_into E1 σ n t + sum_into E2 σ n t.
Proof.
  unfold sum_into. induction E1 as [|e E1 IH]; simpl; [lra|].
  destruct (decide (e.2 = n)); rewrite IH; lra.
Qed.

Lemma sum_into_ext E σ σ' n t :
  (∀ e, e ∈ E → σ e.1 = σ' e.1) → sum_into E σ n t = sum_into E σ' n t.
Proof.
  unfold sum_into. induction E as [|e E IH]; intros H; simpl; [done|].
  rewrite IH by (intros; apply H; by right).
  rewrite (H e) by left. done.
Qed.

Lemma sum_into_none E σ n t :
  (∀ e, e ∈ E → e.2 ≠ n) → sum_into E σ n t = 0.
Proof.
  unfold sum_into. induction E as [|e E IH]; intros H; simpl; [done|].
  rewrite decide_False by (apply H; left).
  apply IH. intros; apply H; by right.
Qed.

Lemma elem_of_chain e l : ∀ last,
  e ∈ chain last l → e.1 ∈ last :: l ∧ e.2 ∈ l.
Proof.
  induction l as [|n l IH]; intros last; simpl; [by intros ?%elem_of_nil|].
  intros [->|H]%elem_of_cons; simpl.
  - split; [left|left].
  - apply IH in H as [H1 H2]. split; by right.
Qed.

(** Into the [j]-th filter comes the filter before it, or, for the first,
    what preceded the filters. *)
Lemma sum_into_filters σ j t m : ∀ s last,
  sum_into (chain last (List.map Eq (seq s m))) σ (Eq j) t
  = if decide (s <= j < s + m)%nat
    then σ (if decide (j = s) then last else Eq (j - 1)) t
    else 0.
Proof.
  induction m as [|m IH]; intros s last; simpl.
  - rewrite decide_False by lia. done.
  - change (foldr _ 0 (chain (Eq s) (List.map Eq (seq (S s) m))))
      with (sum_into (chain (Eq s) (List.map Eq (seq (S s) m))) σ (Eq j) t).
    rewrite IH. unfold sum_into. simpl.
    repeat case_decide; simplify_eq; try lia; try lra; try done.
    by replace (S s - 1)%nat with s by lia.
Qed.

Lemma sum_into_chain σ n t m last :
  sum_into (chain last (List.map Eq (seq 0 m))) σ n t
  = match n with
    | Eq j => if decide (j < m)%nat
              then σ (if decide (j = 0%nat) then last else Eq (j - 1)) t
              else 0
    | _ => 0
    end.
Proof.
  destruct n as [| | | | | | |j| | | | | | | | | |];
    try (apply sum_into_none; intros e [_ He]%elem_of_chain;
         apply list_elem_of_fmap in He as (i & -> & _); discriminate).
  rewrite sum_into_filters. repeat case_decide; try lia; done.
Qed.

Lemma incoming_rebuild cfg random sampleRate σ n t :
  incoming (rebuild cfg random sampleRate) σ n t = sum_of σ t (feeders cfg n).
Proof.
  rewrite incoming_sum_into, rebuild_edges. unfold upstream_edges.
  rewrite !sum_into_app. unfold filter_names at 1. rewrite sum_into_chain.
  unfold feeders, gate_edges, compressor_edges, delay_edges, reverb_edges, tap_edges,
    after_gate, after_postGain, after_drive.
  destruct n as [| | | | | | |j| | | | | | | | | |];
    destruct (noiseGateEnabled cfg), (compressorEnabled cfg), (delayEnabled cfg),
      (reverbEnabled cfg); unfold sum_into, sum_of; simpl;
    repeat case_decide; simpl; try lra; try congruence.
Qed.

(** The wave shaper at drive 0. *)

Lemma shaper_zero x : Drive.shaper 0 x = x / 3.
Proof. unfold Drive.shaper. pose proof Drive.PI_gt_3. field. lra. Qed.

Lemma curve_drive0 i :
  (i < 256)%nat → nth i (Drive.makeCurve 0) 0 = (INR i / 128 - 1) / 3.
Proof.
  intros Hi. change (nth i (Drive.makeCurve 0) 0) with (Drive.curve_get (Drive.makeCurve 0) i).
  rewrite Drive.makeCurve_get, Drive.curve_at_shaper by done.
  rewrite Rmult_0_l, shaper_zero. unfold Drive.grid. lra.
Qed.

Lemma waveshape_drive0 x :
  waveshape (Drive.makeCurve 0) x = (255 * clamp x - 1) / 768.
Proof.
  unfold waveshape, clamp. rewrite Drive.makeCurve_length.
  rewrite (INR_IZR_INZ 256). change (Z.of_nat 256) with 256%Z.
  change (256 - 1)%nat with 255%nat.
  destruct (Rlt_dec ((256 - 1) / 2 * (x + 1)) 0) as [Hlo|Hlo].
  { rewrite curve_drive0 by lia. simpl INR.
    rewrite Rmin_right, Rmax_left by lra. lra. }
  destruct (Rle_dec (256 - 1) ((256 - 1) / 2 * (x + 1))) as [Hhi|Hhi].
  { rewrite curve_drive0 by lia.
    rewrite (INR_IZR_INZ 255). change (Z.of_nat 255) with 255%Z.
    rewrite Rmin_left, Rmax_right by lra. lra. }
  set (v := (256 - 1) / 2 * (x + 1)) in *.
  pose proof (Zfloor_bound v) as [Hk1 Hk2].
  assert (Hk0 : (0 <= Zfloor v)%Z) by (apply Zfloor_lub; simpl; lra).
  assert (Hk255 : (Zfloor v < 255)%Z) by (apply lt_IZR; lra).
  assert (HK : INR (Z.to_nat (Zfloor v)) = IZR (Zfloor v)).
  { rewrite INR_IZR_INZ, Z2Nat.id by done. done. }
  rewrite !curve_drive0 by lia.
  rewrite plus_INR, HK. simpl INR.
  assert (Hx : -1 <= x < 1) by (unfold v in Hlo, Hhi; lra).
  rewrite Rmin_right, Rmax_right by lra.
  unfold v. field.
Qed.

Lemma incoming_feeders cfg random sampleRate σ n :
  incoming (rebuild cfg random sampleRate) σ n = λ t, sum_of σ t (feeders cfg n).
Proof. apply functional_extensionality. intros t. apply incoming_rebuild. Qed.

Lemma renders_node h cfg random sampleRate input σ n node :
  renders h (rebuild cfg random sampleRate) input σ →
  node_of cfg random sampleRate n = Some node →
  σ n = render h (rebuild cfg random sampleRate) input σ n node.
Proof. intros Hr Hn. apply Hr. by rewrite rebuild_nodes. Qed.

Lemma automation_rebuild cfg random sampleRate n :
  automation (rebuild cfg random sampleRate) n
  = match n with
    | NoiseGate => if noiseGateEnabled cfg then Some (GateHandler, NoiseGateAnalyser) else None
    | _ => None
    end.
Proof.
  unfold automation. rewrite rebuild_nodes. simpl.
  destruct n; try reflexivity. by destruct (noiseGateEnabled cfg).
Qed.

Lemma last_filter_name m d :
  List.last (List.map Eq (seq 0 m)) d = match m with O => d | S k => Eq k end.
Proof.
  destruct m as [|k]; [reflexivity|].
  rewrite seq_S, List.map_app. simpl. apply last_last.
Qed.

Section Doubling.

Variables (h : Host) (cfg : Configuration) (random : N → R) (sampleRate : N).
Variables (input : Signal) (σ : NodeName → Signal).
Hypothesis scenario : doubling_scenario cfg.
Hypothesis flat : flat_filters_pass h.
Hypothesis rendering : renders h (rebuild cfg random sampleRate) input σ.

Let G := rebuild cfg random sampleRate.

Lemma scenario_source : σ Source = input.
Proof. by rewrite (renders_node _ _ _ _ _ _ Source _ rendering eq_refl). Qed.

Lemma scenario_gain t : σ Gain t = 2 * input t.
Proof.
  destruct scenario as (Hg & _ & _ & _ & _ & _ & Hng & _).
  rewrite (renders_node _ _ _ _ _ _ Gain _ rendering eq_refl).
  unfold render. rewrite automation_rebuild, incoming_rebuild.
  unfold feeders, after_gate. rewrite Hng, Hg. simpl.
  rewrite scenario_source. lra.
Qed.

Lemma scenario_drive t : σ Drive t = (255 * clamp (2 * input t) - 1) / 768.
Proof.
  destruct scenario as (_ & Hd & _ & _).
  rewrite (renders_node _ _ _ _ _ _ Drive _ rendering eq_refl).
  unfold render. rewrite incoming_rebuild, Hd. simpl.
  rewrite Rplus_0_r, scenario_gain. apply waveshape_drive0.
Qed.

Lemma scenario_filters j :
  (j < length (eqBands cfg))%nat → σ (Eq j) = σ Drive.
Proof.
  destruct scenario as (_ & _ & Hflat & _ & Hc & _).
  induction j as [|j IH]; intros Hj.
  all: destruct (lookup_lt_is_Some_2 (eqBands cfg) _ Hj) as [band Hband].
  all: pose proof (proj1 (Forall_forall _ _) Hflat band
                     (list_elem_of_lookup_2 _ _ _ Hband)) as H0.
  all: rewrite (renders_node _ _ _ _ _ _ (Eq _) (createFilter band) rendering)
         by (simpl; by rewrite Hband).
  all: unfold render, createFilter; rewrite H0, flat, incoming_feeders.
  all: apply functional_extensionality; intros t; unfold feeders.
  all: rewrite decide_True by done.
  - rewrite decide_True by done. unfold after_drive. rewrite Hc. simpl. lra.
  - rewrite decide_False by done. simpl. rewrite Nat.sub_0_r, IH by lia. lra.
Qed.

Lemma scenario_after_filters : σ (after_filters cfg) = σ Drive.
Proof.
  destruct scenario as (_ & _ & _ & _ & Hc & _).
  unfold after_filters, filter_names. rewrite last_filter_name.
  destruct (length (eqBands cfg)) as [|k] eqn:Hlen.
  - unfold after_drive. by rewrite Hc.
  - apply scenario_filters. lia.
Qed.

Lemma scenario_postGain t : σ PostGain t = σ Drive t.
Proof.
  destruct scenario as (_ & _ & _ & Hp & _).
  rewrite (renders_node _ _ _ _ _ _ PostGain _ rendering eq_refl).
  unfold render. rewrite automation_rebuild, incoming_rebuild, Hp.
  simpl. rewrite scenario_after_filters. lra.
Qed.

Lemma scenario_panner :
  σ Panner = stereoPanner h (pan cfg) (σ Drive).
Proof.
  destruct scenario as (_ & _ & _ & _ & _ & Hd & _).
  rewrite (renders_node _ _ _ _ _ _ Panner _ rendering eq_refl).
  unfold render. rewrite incoming_feeders. f_equal.
  apply functional_extensionality. intros t.
  unfold feeders, after_postGain. rewrite Hd. simpl.
  rewrite scenario_postGain. lra.
Qed.

Lemma scenario_output t : σ Destination t = σ Panner t.
Proof.
  destruct scenario as (_ & _ & _ & _ & _ & _ & Hng & Hr).
  rewrite (renders_node _ _ _ _ _ _ Destination _ rendering eq_refl).
  unfold render. rewrite incoming_rebuild. unfold feeders. rewrite Hng. simpl.
  rewrite (renders_node _ _ _ _ _ _ FinalMixer _ rendering eq_refl).
  unfold render. rewrite automation_rebuild, incoming_rebuild.
  unfold feeders. rewrite Hr. simpl. lra.
Qed.

End Doubling.

Lemma doubling_config_scenario : doubling_scenario doubling_config.
Proof.
  unfold doubling_scenario. simpl. repeat split; try reflexivity.
  repeat constructor.
Qed.

Lemma passthrough_host_flat : flat_filters_pass passthrough_host.
Proof. by intros ? ? ? ?. Qed.

Lemma passthrough_host_centred : centred_panner_passes passthrough_host.
Proof. by intros ?. Qed.

Lemma doubling_rendering_renders input :
  renders passthrough_host (rebuild doubling_config no_random 44100) input
    (doubling_rendering input).
Proof.
  intros n node. rewrite rebuild_nodes. intros Hn.
  destruct n as [| | | | | | |i| | | | | | | | | |]; simpl in Hn; try discriminate.
  all: try (do 5 (try destruct i as [|i]); simpl in Hn; try discriminate).
  all: injection Hn as <-; unfold render; simpl;
       rewrite ?automation_rebuild, ?incoming_feeders; simpl.
  all: try reflexivity.
  all: apply functional_extensionality; intros t; unfold shaped; simpl.
  all: rewrite ?Rplus_0_r, ?waveshape_drive0; try lra.
Qed.








(** ** The reverb stage (C6) *)

Lemma feeders_bypass cfg n :
  reverb_node n = false → n ≠ FinalMixer →
  feeders (bypass_reverb cfg) n = feeders cfg n.
Proof. destruct n; try done. Qed.

Lemma feeders_not_reverb cfg n m :
  n ≠ FinalMixer → reverb_node n = false → m ∈ feeders cfg n → reverb_node m = false.
Proof.
  intros Hn Hr. unfold feeders, after_filters, filter_names.
  rewrite ?last_filter_name. unfold after_gate, after_drive, after_postGain.
  destruct n as [| | | | | | |j| | | | | | | | | |]; try done;
    destruct (noiseGateEnabled cfg), (compressorEnabled cfg), (delayEnabled cfg);
    simpl; repeat case_decide; try destruct (length (eqBands cfg));
    intros Hin; repeat (apply elem_of_cons in Hin as [->|Hin]; [done|]);
    by apply elem_of_nil in Hin.
Qed.

Lemma sum_of_ext σ σ' t l :
  (∀ m, m ∈ l → σ m = σ' m) → sum_of σ t l = sum_of σ' t l.
Proof.
  induction l as [|m l IH]; intros H; [done|]. simpl.
  rewrite (H m) by left. rewrite IH; [done|]. intros m' Hm'. apply H. by right.
Qed.

(** Away from the reverb stage and the mixer, a node renders the same in
    the graph with the reverb and in the graph without it. *)
Lemma render_bypass h cfg random sampleRate input σ σ' n node :
  reverb_node n = false → n ≠ FinalMixer →
  (∀ m, reverb_node m = false → σ m = σ' m) →
  render h (rebuild (bypass_reverb cfg) random sampleRate) input σ n node
  = render h (rebuild cfg random sampleRate) input σ' n node.
Proof.
  intros Hr Hn Hσ.
  assert (Hin : ∀ n, reverb_node n = false → n ≠ FinalMixer →
            incoming (rebuild (bypass_reverb cfg) random sampleRate) σ n
            = incoming (rebuild cfg random sampleRate) σ' n).
  { intros k Hk Hk'. rewrite !incoming_feeders. apply functional_extensionality. intros t.
    rewrite feeders_bypass by done. apply sum_of_ext. intros m Hm. apply Hσ.
    by apply (feeders_not_reverb cfg k). }
  unfold render. rewrite !automation_rebuild, (Hin n Hr Hn).
  destruct node; try reflexivity.
  destruct n; try reflexivity. simpl.
  destruct (noiseGateEnabled cfg); [|reflexivity].
  by rewrite (Hin NoiseGateAnalyser).
Qed.

Lemma node_of_bypass cfg random sampleRate n :
  node_of (bypass_reverb cfg) random sampleRate n
  = if reverb_node n then None else node_of cfg random sampleRate n.
Proof. by destruct n. Qed.

(** With the reverb enabled, the mixer outputs the panner's signal times
    [1 - mix] plus its convolution times [mix]. *)
Lemma reverb_mixer_output h cfg random sampleRate input σ :
  reverbEnabled cfg = true →
  renders h (rebuild cfg random sampleRate) input σ →
  σ ReverbDry = (λ t, (1 - mix cfg) * σ Panner t) ∧
  σ ReverbWet = (λ t, mix cfg * convolver h (impulse random sampleRate) (σ Panner) t) ∧
  σ FinalMixer = (λ t, σ ReverbDry t + σ ReverbWet t).
Proof.
  intros He Hr.
  assert (Hdry : σ ReverbDry = (λ t, (1 - mix cfg) * σ Panner t)).
  { rewrite (renders_node h cfg random sampleRate input σ ReverbDry
               (GainNode (1 - mix cfg)) Hr) by (simpl; by rewrite He).
    unfold render. rewrite automation_rebuild, incoming_feeders. simpl. rewrite He. simpl.
    apply functional_extensionality. intros t. lra. }
  assert (Hrev : σ Reverb = convolver h (impulse random sampleRate) (σ Panner)).
  { rewrite (renders_node h cfg random sampleRate input σ Reverb
               (ConvolverNode (impulse random sampleRate)) Hr) by (simpl; by rewrite He).
    unfold render. rewrite incoming_feeders. simpl. rewrite He. simpl.
    f_equal. apply functional_extensionality. intros t. lra. }
  assert (Hwet : σ ReverbWet
                 = (λ t, mix cfg * convolver h (impulse random sampleRate) (σ Panner) t)).
  { rewrite (renders_node h cfg random sampleRate input σ ReverbWet
               (GainNode (mix cfg)) Hr) by (simpl; by rewrite He).
    unfold render. rewrite automation_rebuild, incoming_feeders. simpl. rewrite He. simpl.
    apply functional_extensionality. intros t. rewrite Hrev. lra. }
  split; [exact Hdry|]. split; [exact Hwet|].
  rewrite (renders_node h cfg random sampleRate input σ FinalMixer (GainNode 1) Hr)
    by reflexivity.
  unfold render. rewrite automation_rebuild, incoming_feeders. simpl. rewrite He. simpl.
  apply functional_extensionality. intros t. lra.
Qed.

(** At mix 0 a rendering of the graph with the reverb is a rendering of the
    graph without it. *)
Lemma mix_0_renders_bypass h cfg random sampleRate input σ :
  reverbEnabled cfg = true → mix cfg = 0 →
  renders h (rebuild cfg random sampleRate) input σ →
  renders h (rebuild (bypass_reverb cfg) random sampleRate) input σ.
Proof.
  intros He Hm Hr n node. rewrite rebuild_nodes, node_of_bypass.
  destruct (reverb_node n) eqn:Hn; [done|]. intros Hnode.
  destruct (decide (n = FinalMixer)) as [->|Hmix].
  - injection Hnode as <-.
    destruct (reverb_mixer_output h cfg random sampleRate input σ He Hr) as (Hd & Hw & ->).
    rewrite Hd, Hw, Hm.
    unfold render. rewrite automation_rebuild, incoming_feeders. simpl.
    apply functional_extensionality. intros t. lra.
  - rewrite (render_bypass h cfg random sampleRate input σ σ) by done.
    by apply renders_node.
Qed.

(** And a rendering of the graph without the reverb, extended to the
    reverb's nodes, is a rendering of the graph with it. *)
Lemma bypass_renders_mix_0 h cfg random sampleRate input σ :
  reverbEnabled cfg = true → mix cfg = 0 →
  renders h (rebuild (bypass_reverb cfg) random sampleRate) input σ →
  renders h (rebuild cfg random sampleRate) input (with_reverb h cfg random sampleRate σ).
Proof.
  intros He Hm Hr n node. rewrite rebuild_nodes. intros Hnode.
  destruct (reverb_node n) eqn:Hn.
  - destruct n; try discriminate; simpl in Hnode; rewrite He in Hnode;
      injection Hnode as <-; unfold render;
      rewrite ?automation_rebuild, !incoming_feeders; simpl; rewrite He; simpl.
    + apply functional_extensionality. intros t. by rewrite Rplus_0_r.
    + apply functional_extensionality. intros t. by rewrite Rplus_0_r.
    + f_equal. apply functional_extensionality. intros t. by rewrite Rplus_0_r.
  - destruct (decide (n = FinalMixer)) as [->|Hmix].
    + injection Hnode as <-. simpl.
      rewrite (renders_node h (bypass_reverb cfg) random sampleRate input σ FinalMixer
                 (GainNode 1) Hr) by reflexivity.
      unfold render. rewrite !automation_rebuild, !incoming_feeders. simpl.
      rewrite He. simpl. rewrite Hm. apply functional_extensionality. intros t. lra.
    + rewrite <- (render_bypass h cfg random sampleRate input σ
                    (with_reverb h cfg random sampleRate σ)).
      * replace (with_reverb h cfg random sampleRate σ n) with (σ n) by by destruct n.
        apply renders_node; [done|]. by rewrite node_of_bypass, Hn.
      * done.
      * done.
      * intros m Hm'. by destruct m.
Qed.

Lemma reverb_mixer_edges g random rate n :
  reverbEnabled g = true →
  (n, FinalMixer) ∈ edges (rebuild g random rate) ↔ n = ReverbDry ∨ n = ReverbWet.
Proof.
  intros He. rewrite rebuild_edges. unfold reverb_edges, tap_edges. rewrite He.
  rewrite !elem_of_app. split.
  - intros [Hup|[Hre|Htap]].
    + exfalso. unfold upstream_edges in Hup.
      rewrite !elem_of_app in Hup.
      unfold gate_edges, compressor_edges, delay_edges in Hup.
      destruct Hup as [H|[H|[H|[H|[H|[H|H]]]]]].
      * destruct (noiseGateEnabled g);
          repeat (apply elem_of_cons in H as [H|H]; [discriminate|]);
          by apply elem_of_nil in H.
      * repeat (apply elem_of_cons in H as [H|H]; [discriminate|]);
          by apply elem_of_nil in H.
      * destruct (compressorEnabled g);
          repeat (apply elem_of_cons in H as [H|H]; [discriminate|]);
          by apply elem_of_nil in H.
      * apply elem_of_chain in H as [_ H].
        apply list_elem_of_fmap in H as (i & [=] & _).
      * repeat (apply elem_of_cons in H as [H|H]; [discriminate|]);
          by apply elem_of_nil in H.
      * destruct (delayEnabled g);
          repeat (apply elem_of_cons in H as [H|H]; [discriminate|]);
          by apply elem_of_nil in H.
      * repeat (apply elem_of_cons in H as [H|H]; [discriminate|]);
          by apply elem_of_nil in H.
    + repeat (apply elem_of_cons in Hre as [Hre|Hre]; [simplify_eq; auto|]).
      by apply elem_of_nil in Hre.
    + repeat (apply elem_of_cons in Htap as [Htap|Htap]; [discriminate|]).
      by apply elem_of_nil in Htap.
  - intros [->| ->]; right; left; repeat constructor.
Qed.

(** ** The shape of the graph and what its stages render *)

Lemma Forall_chain_filters (P : NodeName * NodeName → Prop) m : ∀ s last,
  ((0 < m)%nat → P (last, Eq s)) →
  (∀ j, (s <= j)%nat → (S j < s + m)%nat → P (Eq j, Eq (S j))) →
  Forall P (chain last (List.map Eq (seq s m))).
Proof.
  induction m as [|m IH]; intros s last H0 Hj; [constructor|].
  simpl. constructor; [apply H0; lia|].
  apply IH.
  - intros Hm. apply Hj; lia.
  - intros j H1 H2. apply Hj; lia.
Qed.

(** The connections of a rebuild, piece by piece. *)
Lemma Forall_rebuild_edges (P : NodeName * NodeName → Prop) cfg random rate :
  Forall P (gate_edges cfg) →
  P (after_gate cfg, Gain) → P (Gain, Drive) →
  Forall P (compressor_edges cfg) →
  Forall P (chain (after_drive cfg) (filter_names cfg)) →
  P (after_filters cfg, PostGain) →
  Forall P (delay_edges cfg) →
  P (after_postGain cfg, Panner) →
  Forall P (reverb_edges cfg) →
  P (FinalMixer, Analyser) → P (FinalMixer, Destination) →
  Forall P (edges (rebuild cfg random rate)).
Proof.
  intros. rewrite rebuild_edges. unfold upstream_edges, tap_edges.
  repeat (apply Forall_app; split); try done; repeat constructor; done.
Qed.

Ltac each_edge := repeat first [apply Forall_nil_2 | apply Forall_cons_2].

Lemma after_filters_cases cfg :
  after_filters cfg
  = match length (eqBands cfg) with O => after_drive cfg | S k => Eq k end.
Proof. unfold after_filters, filter_names. apply last_filter_name. Qed.

Lemma created_iff cfg random rate n :
  is_Some (nodes (rebuild cfg random rate) !! n) ↔ created cfg n = true.
Proof.
  rewrite rebuild_nodes.
  destruct n as [| | | | | | |i| | | | | | | | | |]; simpl;
    try (destruct (noiseGateEnabled cfg)); try (destruct (compressorEnabled cfg));
    try (destruct (delayEnabled cfg)); try (destruct (reverbEnabled cfg));
    try (split; [done|intros _; by eexists]); try (split; [by intros [? ?]|done]).
  all: rewrite fmap_is_Some, lookup_lt_is_Some, bool_decide_eq_true; done.
Qed.

(** X9.  Every connection [connectNodes] makes joins two nodes of the
    graph: whichever stages are enabled and however many bands there are,
    no connection leads to or from a node that was not created. *)
Theorem connections_join_nodes (cfg : Configuration) (random : N → R) (rate : N) :
  Forall (λ e, is_Some (nodes (rebuild cfg random rate) !! e.1) ∧
               is_Some (nodes (rebuild cfg random rate) !! e.2))
    (edges (rebuild cfg random rate)).
Proof.
  apply (Forall_impl (λ e, created cfg e.1 = true ∧ created cfg e.2 = true)).
  2: { intros e [H1 H2]. by rewrite !created_iff. }
  apply Forall_rebuild_edges; cbn [fst snd].
  - unfold gate_edges. destruct (noiseGateEnabled cfg) eqn:Hg; repeat constructor;
      simpl; by rewrite ?Hg.
  - unfold after_gate. destruct (noiseGateEnabled cfg) eqn:Hg; simpl; by rewrite ?Hg.
  - done.
  - unfold compressor_edges. destruct (compressorEnabled cfg) eqn:Hc; repeat constructor;
      simpl; by rewrite ?Hc.
  - unfold filter_names, after_drive. apply Forall_chain_filters; cbn [fst snd].
    + intros Hm. split; [destruct (compressorEnabled cfg) eqn:Hc; simpl; by rewrite ?Hc|].
      simpl. apply bool_decide_eq_true. lia.
    + intros j _ Hj. split; simpl; apply bool_decide_eq_true; lia.
  - rewrite after_filters_cases. unfold after_drive.
    destruct (length (eqBands cfg)) as [|k] eqn:Hl.
    + destruct (compressorEnabled cfg) eqn:Hc; simpl; by rewrite ?Hc.
    + split; [|done]. simpl. apply bool_decide_eq_true. lia.
  - unfold delay_edges. destruct (delayEnabled cfg) eqn:Hd; repeat constructor;
      simpl; by rewrite ?Hd.
  - unfold after_postGain. destruct (delayEnabled cfg) eqn:Hd; simpl; by rewrite ?Hd.
  - unfold reverb_edges. destruct (reverbEnabled cfg) eqn:Hr; repeat constructor;
      simpl; by rewrite ?Hr.
  - done.
  - done.
Qed.

(** X10.  The one loop of the graph is the delay's: every connection leads
    from a node to a node further along the signal path, but for the
    connection from the feedback gain back into the delay, which is made
    exactly when the delay is enabled and is the only connection out of the
    feedback gain. *)
Theorem feedback_is_the_only_loop (cfg : Configuration) (random : N → R) (rate : N) :
  Forall (λ e, e = (Feedback, Delay) ∨ (stage_rank cfg e.1 < stage_rank cfg e.2)%nat)
    (edges (rebuild cfg random rate)) ∧
  ((Feedback, Delay) ∈ edges (rebuild cfg random rate) ↔ delayEnabled cfg = true) ∧
  Forall (λ e, e.1 = Feedback → e.2 = Delay) (edges (rebuild cfg random rate)).
Proof.
  split; [|split].
  - apply Forall_rebuild_edges; cbn [fst snd].
    + unfold gate_edges. destruct (noiseGateEnabled cfg); each_edge;
        right; simpl; lia.
    + right. unfold after_gate. destruct (noiseGateEnabled cfg); simpl; lia.
    + right. simpl. lia.
    + unfold compressor_edges. destruct (compressorEnabled cfg); each_edge;
        right; simpl; lia.
    + unfold filter_names, after_drive. apply Forall_chain_filters; cbn [fst snd].
      * intros _. right. destruct (compressorEnabled cfg); simpl; lia.
      * intros j _ _. right. simpl. lia.
    + right. rewrite after_filters_cases. unfold after_drive.
      destruct (length (eqBands cfg)) as [|k] eqn:Hl;
        [destruct (compressorEnabled cfg)|]; simpl; rewrite ?Hl; lia.
    + unfold delay_edges. destruct (delayEnabled cfg); each_edge;
        first [by left | right; simpl; lia].
    + right. unfold after_postGain. destruct (delayEnabled cfg); simpl; lia.
    + unfold reverb_edges. destruct (reverbEnabled cfg); each_edge;
        right; simpl; lia.
    + right. simpl. lia.
    + right. simpl. lia.
  - split.
    + intros Hin. destruct (delayEnabled cfg) eqn:Hd; [done|]. exfalso.
      assert (HF : Forall (λ e, e ≠ (Feedback, Delay)) (edges (rebuild cfg random rate)));
        [|rewrite Forall_forall in HF; by apply (HF _ Hin)].
      apply Forall_rebuild_edges;
        unfold gate_edges, compressor_edges, delay_edges, reverb_edges, after_gate,
          after_postGain, filter_names;
        rewrite ?Hd, ?after_filters_cases;
        try (apply Forall_chain_filters; done);
        destruct (noiseGateEnabled cfg), (compressorEnabled cfg), (reverbEnabled cfg),
          (length (eqBands cfg));
        each_edge; done.
    + intros Hd. rewrite rebuild_edges. unfold upstream_edges, delay_edges. rewrite Hd.
      rewrite !elem_of_app. left. do 5 right. left. do 2 right. left.
  - apply Forall_rebuild_edges;
      rewrite ?after_filters_cases;
      unfold gate_edges, compressor_edges, delay_edges, reverb_edges, after_gate,
        after_postGain, after_drive, filter_names;
      try (apply Forall_chain_filters; [destruct (compressorEnabled cfg)|]; done);
      destruct (noiseGateEnabled cfg), (compressorEnabled cfg), (reverbEnabled cfg),
        (delayEnabled cfg), (length (eqBands cfg));
      each_edge; done.
Qed.

Lemma gated_rendering_renders input :
  renders passthrough_host (rebuild gated_config no_random 44100) input
    (gated_rendering input).
Proof.
  intros n node. rewrite rebuild_nodes. intros Hn.
  destruct n as [| | | | | | |i| | | | | | | | | |]; simpl in Hn; try discriminate.
  all: try (do 5 (try destruct i as [|i]); simpl in Hn; try discriminate).
  all: injection Hn as <-; unfold render; cbv zeta;
       rewrite ?automation_rebuild, ?incoming_feeders; simpl.
  all: try reflexivity.
  all: apply functional_extensionality; intros t; unfold shaped; simpl.
  all: rewrite ?Rplus_0_r, ?waveshape_drive0; try lra.
Qed.

(** X11.  In every rendering of a rebuilt graph, what reaches the
    destination is the mixer's output, and the analyser taps that same
    signal: the script processor, connected to the destination to be kept
    alive, renders silence.  With the gate enabled its detector is fed the
    source itself, ahead of the gain, and the gate multiplies the source by
    the gain the handler schedules. *)
Theorem keep_alive_is_silent (h : Host) (cfg : Configuration) (random : N → R)
    (rate : N) (input : Signal) (σ : NodeName → Signal) :
  renders h (rebuild cfg random rate) input σ →
  σ Source = input ∧
  σ Destination = σ FinalMixer ∧
  σ Analyser = σ FinalMixer ∧
  (noiseGateEnabled cfg = true →
     σ ScriptProcessor = (λ _, 0) ∧
     σ NoiseGateAnalyser = input ∧
     σ NoiseGate = (λ t, scheduledGain h GateHandler input t * input t)).
Proof.
  intros Hr.
  assert (Hsrc : σ Source = input).
  { by rewrite (renders_node h cfg random rate input σ Source _ Hr eq_refl). }
  assert (Hgate : noiseGateEnabled cfg = true →
                  σ ScriptProcessor = (λ _, 0) ∧ σ NoiseGateAnalyser = input).
  { intros Hg. split.
    - rewrite (renders_node h cfg random rate input σ ScriptProcessor
                 (ScriptProcessorNode 256 1 1 GateHandler) Hr) by (simpl; by rewrite Hg).
      reflexivity.
    - rewrite (renders_node h cfg random rate input σ NoiseGateAnalyser
                 (AnalyserNode 256) Hr) by (simpl; by rewrite Hg).
      unfold render. rewrite incoming_feeders. simpl. rewrite Hg. simpl.
      apply functional_extensionality. intros t. rewrite Hsrc. lra. }
  split; [done|]. split; [|split].
  - rewrite (renders_node h cfg random rate input σ Destination _ Hr eq_refl).
    unfold render. rewrite incoming_feeders. simpl.
    apply functional_extensionality. intros t.
    destruct (noiseGateEnabled cfg) eqn:Hg; simpl; [|lra].
    destruct (Hgate eq_refl) as [-> _]. lra.
  - rewrite (renders_node h cfg random rate input σ Analyser _ Hr eq_refl).
    unfold render. rewrite incoming_feeders. simpl.
    apply functional_extensionality. intros t. lra.
  - intros Hg. destruct (Hgate Hg) as [Hsp Han]. split; [done|]. split; [done|].
    rewrite (renders_node h cfg random rate input σ NoiseGate (GainNode 1) Hr)
      by (simpl; by rewrite Hg).
    unfold render. rewrite automation_rebuild, !incoming_feeders. simpl. rewrite Hg. simpl.
    rewrite incoming_feeders. simpl. rewrite Hg. simpl. rewrite Hsrc.
    replace (λ t0, input t0 + 0) with input
      by (apply functional_extensionality; intros; lra).
    apply functional_extensionality. intros t. by rewrite Rplus_0_r.
Qed.

Lemma keep_alive_is_silent_witness :
  renders passthrough_host (rebuild gated_config no_random 44100) quarter
    (gated_rendering quarter) ∧
  gated_rendering quarter Source = quarter ∧
  gated_rendering quarter Destination = gated_rendering quarter FinalMixer ∧
  gated_rendering quarter Analyser = gated_rendering quarter FinalMixer ∧
  (noiseGateEnabled gated_config = true →
     gated_rendering quarter ScriptProcessor = (λ _, 0) ∧
     gated_rendering quarter NoiseGateAnalyser = quarter ∧
     gated_rendering quarter NoiseGate
     = (λ t, scheduledGain passthrough_host GateHandler quarter t * quarter t)).
Proof.
  split; [apply gated_rendering_renders|].
  apply (keep_alive_is_silent passthrough_host gated_config no_random 44100 quarter
           (gated_rendering quarter) (gated_rendering_renders quarter)).
Defined.

Lemma envelope_range len i : (i < len)%N → 0 < envelope len i <= 1.
Proof.
  intros Hi. unfold envelope.
  assert (H0 : 0 <= IZR (Z.of_N i)) by (apply IZR_le; lia).
  assert (Hl : IZR (Z.of_N i) < IZR (Z.of_N len)) by (apply IZR_lt; lia).
  assert (Hx : 0 < 1 - IZR (Z.of_N i) / IZR (Z.of_N len) <= 1).
  { assert (0 <= IZR (Z.of_N i) / IZR (Z.of_N len) < 1); [|lra].
    split.
    - apply Rmult_le_pos; [lra|]. left. apply Rinv_0_lt_compat. lra.
    - apply (Rmult_lt_reg_r (IZR (Z.of_N len))); [lra|].
      unfold Rdiv. rewrite Rmult_assoc, Rinv_l by lra. lra. }
  split; [unfold Rpower; apply exp_pos|].
  unfold Rpower. rewrite <- exp_0 at 2. destruct Hx as [Hpos [Hlt|Heq]].
  - left. apply exp_increasing.
    assert (ln (1 - IZR (Z.of_N i) / IZR (Z.of_N len)) < 0)
      by (rewrite <- ln_1; by apply ln_increasing).
    lra.
  - right. by rewrite Heq, ln_1, Rmult_0_r.
Qed.

Lemma envelope_decreasing len i j : (i < j < len)%N → envelope len j < envelope len i.
Proof.
  intros Hij. unfold envelope.
  assert (H0 : 0 <= IZR (Z.of_N i)) by (apply IZR_le; lia).
  assert (Hi : IZR (Z.of_N i) < IZR (Z.of_N j)) by (apply IZR_lt; lia).
  assert (Hl : IZR (Z.of_N j) < IZR (Z.of_N len)) by (apply IZR_lt; lia).
  assert (Hinv : 0 < / IZR (Z.of_N len)) by (apply Rinv_0_lt_compat; lra).
  apply Rlt_Rpower_l; [lra|]. unfold Rdiv. split.
  - assert (IZR (Z.of_N j) * / IZR (Z.of_N len) < 1); [|lra].
    apply (Rmult_lt_reg_r (IZR (Z.of_N len))); [lra|].
    rewrite Rmult_assoc, Rinv_l by lra. lra.
  - assert (IZR (Z.of_N i) * / IZR (Z.of_N len) < IZR (Z.of_N j) * / IZR (Z.of_N len));
      [|lra].
    by apply Rmult_lt_compat_r.
Qed.

(** X12.  The impulse response [connectNodes] synthesizes, for draws of
    [Math.random] in [0,1): a buffer of two channels, two seconds long at
    the context's rate, whose samples stay within an envelope that starts
    at 1 and falls strictly with every sample. *)
Theorem impulse_decays (random : N → R) (rate : N) :
  (∀ n, 0 <= random n < 1) →
  (0 < rate)%N →
  numberOfChannels (impulse random rate) = 2%nat ∧
  buffer_length (impulse random rate) = (rate * 2)%N ∧
  envelope (rate * 2) 0 = 1 ∧
  (∀ channel i, (i < rate * 2)%N →
     Rabs (getChannelData (impulse random rate) channel i) <= envelope (rate * 2) i <= 1) ∧
  (∀ i j, (i < j < rate * 2)%N → envelope (rate * 2) j < envelope (rate * 2) i).
Proof.
  intros Hrand Hrate. split; [done|]. split; [done|]. split; [|split].
  - unfold envelope. simpl. unfold Rdiv. rewrite Rmult_0_l, Rminus_0_r.
    unfold Rpower. rewrite ln_1, Rmult_0_r. apply exp_0.
  - intros channel i Hi. destruct (envelope_range (rate * 2) i Hi) as [Hpos Hle].
    split; [|done]. simpl. fold (envelope (rate * 2) i).
    rewrite Rabs_mult, (Rabs_pos_eq (envelope _ _)) by lra.
    pose proof (Hrand (2 * i + channel)%N) as Hr.
    assert (Rabs (random (2 * i + channel)%N * 2 - 1) <= 1) by (apply Rabs_le; lra).
    nra.
  - intros i j Hij. by apply envelope_decreasing.
Qed.

Lemma impulse_decays_witness :
  (∀ n, 0 <= no_random n < 1) ∧ (0 < 44100)%N ∧
  numberOfChannels (impulse no_random 44100) = 2%nat ∧
  buffer_length (impulse no_random 44100) = (44100 * 2)%N ∧
  envelope (44100 * 2) 0 = 1 ∧
  (∀ channel i, (i < 44100 * 2)%N →
     Rabs (getChannelData (impulse no_random 44100) channel i)
     <= envelope (44100 * 2) i <= 1) ∧
  (∀ i j, (i < j < 44100 * 2)%N → envelope (44100 * 2) j < envelope (44100 * 2) i).
Proof.
  assert (H : ∀ n, 0 <= no_random n < 1) by (intros n; unfold no_random; lra).
  split; [exact H|]. split; [reflexivity|].
  apply (impulse_decays no_random 44100 H). reflexivity.
Defined.

(** The wave shaper's output lies between two entries of its table, or is
    one. *)
Lemma waveshape_within (curve : list R) (lo hi x : R) :
  (0 < length curve)%nat →
  (∀ i, (i < length curve)%nat → lo < nth i curve 0 < hi) →
  lo < waveshape curve x < hi.
Proof.
  intros Hlen Hall. unfold waveshape.
  set (n := INR (length curve)).
  assert (Hn : 1 <= n).
  { unfold n. change 1 with (INR 1). apply le_INR. lia. }
  destruct (Rlt_dec ((n - 1) / 2 * (x + 1)) 0) as [Hlo|Hlo]; [apply Hall; lia|].
  destruct (Rle_dec (n - 1) ((n - 1) / 2 * (x + 1))) as [Hhi|Hhi]; [apply Hall; lia|].
  set (v := (n - 1) / 2 * (x + 1)) in *.
  pose proof (Zfloor_bound v) as [Hk1 Hk2].
  assert (Hk0 : (0 <= Zfloor v)%Z) by (apply Zfloor_lub; simpl; lra).
  assert (HK : INR (Z.to_nat (Zfloor v)) = IZR (Zfloor v))
    by (by rewrite INR_IZR_INZ, Z2Nat.id).
  assert (Hlt : (Z.to_nat (Zfloor v) + 1 < length curve)%nat).
  { apply INR_lt. rewrite plus_INR, HK. fold n. simpl INR. lra. }
  rewrite HK.
  pose proof (Hall (Z.to_nat (Zfloor v))) as Ha.
  pose proof (Hall (Z.to_nat (Zfloor v) + 1)%nat Hlt) as Hb.
  destruct Ha as [Ha1 Ha2]; [lia|]. destruct Hb as [Hb1 Hb2].
  set (f := v - IZR (Zfloor v)) in *.
  assert (Hf : 0 <= f < 1) by (unfold f; lra).
  set (a := nth (Z.to_nat (Zfloor v)) curve 0) in *.
  set (b := nth (Z.to_nat (Zfloor v) + 1) curve 0) in *.
  split; nra.
Qed.



(** X14.  A rebuild makes one filter per band, in the order of the bands
    and none beyond them, each with the band's kind, frequency and gain;
    its Q is the band's [q], or the node's default of 1 when the band has
    none or has 0. *)
Theorem one_filter_per_band (cfg : Configuration) (random : N → R) (rate : N) (i : nat) :
  nodes (rebuild cfg random rate) !! Eq i = filter_of <$> eqBands cfg !! i ∧
  (is_Some (nodes (rebuild cfg random rate) !! Eq i) ↔ (i < length (eqBands cfg))%nat).
Proof.
  rewrite rebuild_nodes. cbn [node_of]. split.
  - destruct (eqBands cfg !! i) as [band|]; [|done]. simpl. f_equal.
    unfold createFilter, filter_of, truthy. f_equal.
    destruct (q band) as [v|]; [|done]. by destruct (Req_dec_T v 0).
  - by rewrite fmap_is_Some, lookup_lt_is_Some.
Qed.

End Graph.

(* ===================================================================== *)
(** * src/App.tsx: the engine, its life cycle and its reactive updates    *)
(* ===================================================================== *)

Module Engine.

Import Graph.
Local Open Scope R_scope.

(** [type Status = 'stopped' | 'running' | 'error']. *)
Inductive Status := stopped | running | error.

#[global] Instance Status_eq_dec : EqDecision Status.
Proof. solve_decision. Defined.

(** ** The component's state *)

(** The [useState] values the engine reads. *)
Record ReactState := mkReact {
  status : Status;
  cfg : Configuration;
  selectedInput : string;
  selectedOutput : string;
  hasOutputSelection : bool;
  isRecording : bool
}.

(** One run of [createMediaStreamSource] and [connectNodes]: the context it
    ran in, the stream it reads and the graph it made.  A node is
    identified by the run that created it and its name. *)
Record Build := mkBuild {
  build_context : nat;
  build_stream : nat;
  graph : AudioGraph
}.

(** The refs.  [nodeRefs n] is the run whose node the ref of name [n]
    currently holds, [eqNodesRef] the runs of the filters in the array
    (entry [i] is the node [Eq i] of that run); [finalMixer] and the
    destination are not kept in a ref. *)
Record Refs := mkRefs {
  audioContextRef : option nat;
  mediaStreamRef : option nat;
  mediaRecorderRef : option nat;
  nodeRefs : NodeName → option nat;
  eqNodesRef : list nat;
  noiseGateRef : NoiseGate.NoiseGateParams
}.

(** What a frozen [async] function resumes with: the render it was called
    in ([start] calls the [connectNodes] of that render). *)
Record Closure := mkClosure {
  closure_cfg : Configuration;
  closure_input : string;
  closure_output : string;
  closure_hasOutputSelection : bool
}.

(** The [await]s at which the engine's functions can be suspended. *)
Inductive Continuation :=
| await_setSinkId (c : Closure)      (* [start], at [await ...setSinkId(...)] *)
| await_getUserMedia (c : Closure)   (* [start], at [await ...getUserMedia(...)] *)
| await_settle (c : Closure).        (* [restartAudio], at the 50 ms timer *)

Inductive LogEntry :=
| base_latency                       (* [console.log] of the base latency *)
| error_starting.                    (* ['Error starting audio processing:'] *)

(** The browser's side: audio contexts (closed or not), runs, streams (live
    or stopped), suspended functions, the console, and the next fresh id. *)
Record Browser := mkBrowser {
  contexts : gmap nat bool;
  builds : gmap nat Build;
  streams : gmap nat bool;
  tasks : gmap nat Continuation;
  console : list LogEntry;
  fresh : nat
}.

Record App := mkApp {
  react : ReactState;
  refs : Refs;
  browser : Browser
}.

(** Field updates. *)
Definition set_status (s : Status) (a : App) : App :=
  mkApp (mkReact s (cfg (react a)) (selectedInput (react a)) (selectedOutput (react a))
           (hasOutputSelection (react a)) (isRecording (react a)))
        (refs a) (browser a).
Definition set_cfg (c : Configuration) (a : App) : App :=
  mkApp (mkReact (status (react a)) c (selectedInput (react a)) (selectedOutput (react a))
           (hasOutputSelection (react a)) (isRecording (react a)))
        (refs a) (browser a).
Definition set_selectedInput (d : string) (a : App) : App :=
  mkApp (mkReact (status (react a)) (cfg (react a)) d (selectedOutput (react a))
           (hasOutputSelection (react a)) (isRecording (react a)))
        (refs a) (browser a).
Definition set_selectedOutput (d : string) (a : App) : App :=
  mkApp (mkReact (status (react a)) (cfg (react a)) (selectedInput (react a)) d
           (hasOutputSelection (react a)) (isRecording (react a)))
        (refs a) (browser a).
Definition set_isRecording (b : bool) (a : App) : App :=
  mkApp (mkReact (status (react a)) (cfg (react a)) (selectedInput (react a))
           (selectedOutput (react a)) (hasOutputSelection (react a)) b)
        (refs a) (browser a).

Definition set_audioContextRef (v : option nat) (a : App) : App :=
  mkApp (react a) (mkRefs v (mediaStreamRef (refs a)) (mediaRecorderRef (refs a)) (nodeRefs (refs a)) (eqNodesRef (refs a)) (noiseGateRef (refs a))) (browser a).
Definition set_mediaStreamRef (v : option nat) (a : App) : App :=
  mkApp (react a) (mkRefs (audioContextRef (refs a)) v (mediaRecorderRef (refs a)) (nodeRefs (refs a)) (eqNodesRef (refs a)) (noiseGateRef (refs a))) (browser a).
Definition set_mediaRecorderRef (v : option nat) (a : App) : App :=
  mkApp (react a) (mkRefs (audioContextRef (refs a)) (mediaStreamRef (refs a)) v (nodeRefs (refs a)) (eqNodesRef (refs a)) (noiseGateRef (refs a))) (browser a).
Definition set_nodeRefs (v : NodeName → option nat) (a : App) : App :=
  mkApp (react a) (mkRefs (audioContextRef (refs a)) (mediaStreamRef (refs a)) (mediaRecorderRef (refs a)) v (eqNodesRef (refs a)) (noiseGateRef (refs a))) (browser a).
Definition set_eqNodesRef (v : list nat) (a : App) : App :=
  mkApp (react a) (mkRefs (audioContextRef (refs a)) (mediaStreamRef (refs a)) (mediaRecorderRef (refs a)) (nodeRefs (refs a)) v (noiseGateRef (refs a))) (browser a).
Definition set_noiseGateRef (v : NoiseGate.NoiseGateParams) (a : App) : App :=
  mkApp (react a) (mkRefs (audioContextRef (refs a)) (mediaStreamRef (refs a)) (mediaRecorderRef (refs a)) (nodeRefs (refs a)) (eqNodesRef (refs a)) v) (browser a).

Definition set_contexts (m : gmap nat bool) (a : App) : App :=
  mkApp (react a) (refs a)
        (mkBrowser m (builds (browser a)) (streams (browser a)) (tasks (browser a))
           (console (browser a)) (fresh (browser a))).
Definition set_builds (m : gmap nat Build) (a : App) : App :=
  mkApp (react a) (refs a)
        (mkBrowser (contexts (browser a)) m (streams (browser a)) (tasks (browser a))
           (console (browser a)) (fresh (browser a))).
Definition set_streams (m : gmap nat bool) (a : App) : App :=
  mkApp (react a) (refs a)
        (mkBrowser (contexts (browser a)) (builds (browser a)) m (tasks (browser a))
           (console (browser a)) (fresh (browser a))).
Definition set_tasks (m : gmap nat Continuation) (a : App) : App :=
  mkApp (react a) (refs a)
        (mkBrowser (contexts (browser a)) (builds (browser a)) (streams (browser a)) m
           (console (browser a)) (fresh (browser a))).
Definition log (e : LogEntry) (a : App) : App :=
  mkApp (react a) (refs a)
        (mkBrowser (contexts (browser a)) (builds (browser a)) (streams (browser a))
           (tasks (browser a)) (console (browser a) ++ [e]) (fresh (browser a))).
(** A fresh id for a context, a run, a stream or a suspended function. *)
Definition allocate (a : App) : nat * App :=
  (fresh (browser a),
   mkApp (react a) (refs a)
     (mkBrowser (contexts (browser a)) (builds (browser a)) (streams (browser a))
        (tasks (browser a)) (console (browser a)) (S (fresh (browser a))))).


(** The ref that holds node [n], whichever way it is kept. *)
Definition ref_of (a : App) (n : NodeName) : option nat :=
  match n with
  | Eq i => eqNodesRef (refs a) !! i
  | _ => nodeRefs (refs a) n
  end.

(** ** Writing a parameter of a live node *)

(** [node.gain.value = v], on a gain node or a filter. *)
Definition set_gain (v : R) (node : AudioNode) : AudioNode :=
  match node with
  | GainNode _ => GainNode v
  | BiquadFilterNode ty f _ Q => BiquadFilterNode ty f v Q
  | _ => node
  end.
Definition set_frequency (v : R) (node : AudioNode) : AudioNode :=
  match node with
  | BiquadFilterNode ty _ g Q => BiquadFilterNode ty v g Q
  | _ => node
  end.
Definition set_Q (v : R) (node : AudioNode) : AudioNode :=
  match node with
  | BiquadFilterNode ty f g _ => BiquadFilterNode ty f g v
  | _ => node
  end.
Definition set_curve (c : list R) (node : AudioNode) : AudioNode :=
  match node with
  | WaveShaperNode _ o => WaveShaperNode c o
  | _ => node
  end.
Definition set_compressor (c : CompressorParams) (node : AudioNode) : AudioNode :=
  match node with
  | DynamicsCompressorNode _ _ _ _ _ =>
      DynamicsCompressorNode (threshold c) (knee c) (ratio c) (attack c) (release c)
  | _ => node
  end.
Definition set_delayTime (v : R) (node : AudioNode) : AudioNode :=
  match node with
  | DelayNode m _ => DelayNode m v
  | _ => node
  end.
Definition set_pan (v : R) (node : AudioNode) : AudioNode :=
  match node with
  | StereoPannerNode _ => StereoPannerNode v
  | _ => node
  end.

Definition alter_graph (f : AudioGraph → AudioGraph) (b : Build) : Build :=
  mkBuild (build_context b) (build_stream b) (f (graph b)).

Definition alter_node (n : NodeName) (f : AudioNode → AudioNode) (G : AudioGraph)
  : AudioGraph :=
  mkGraph (alter f n (nodes G)) (edges G).

(** [if (ref.current) ref.current.param.value = ...]: the write goes to the
    node the ref holds, in whatever run made it; nothing happens on a null
    ref. *)
Definition write_node (n : NodeName) (f : AudioNode → AudioNode) (a : App) : App :=
  match ref_of a n with
  | Some b => set_builds (alter (alter_graph (alter_node n f)) b (builds (browser a))) a
  | None => a
  end.

(** ** The effects that follow a state change, in source order *)

Definition effect_noiseGate (a : App) : App :=
  set_noiseGateRef (noiseGate (cfg (react a))) a.

Definition effect_gain (a : App) : App :=
  if decide (status (react a) = running)
  then write_node Gain (set_gain (gain (cfg (react a)))) a
  else a.

Definition effect_drive (a : App) : App :=
  if decide (status (react a) = running)
  then write_node Drive (set_curve (Drive.makeCurve (drive (cfg (react a))))) a
  else a.

(** The body of [eqNodesRef.current.forEach((node, index) => ...)] for one
    index.  The bands and the filters of the app always pair up; an index
    without a band (a [TypeError] in the source) writes nothing. *)
Definition write_band (index : nat) (a : App) : App :=
  match eqBands (cfg (react a)) !! index with
  | Some band =>
      let a := write_node (Eq index) (set_gain (band_gain band)) a in
      let a := write_node (Eq index) (set_frequency (freq band)) a in
      match truthy (q band) with
      | Some v => write_node (Eq index) (set_Q v) a
      | None => a
      end
  | None => a
  end.

Definition effect_eqBands (a : App) : App :=
  foldl (λ a index, write_band index a) a (seq 0 (length (eqNodesRef (refs a)))).

Definition effect_postGain (a : App) : App :=
  write_node PostGain (set_gain (postGain (cfg (react a)))) a.

Definition effect_compressor (a : App) : App :=
  write_node Compressor (set_compressor (compressor (cfg (react a)))) a.

Definition effect_delay_time (a : App) : App :=
  write_node Delay (set_delayTime (time (delay (cfg (react a))))) a.

Definition effect_delay_feedback (a : App) : App :=
  write_node Feedback (set_gain (feedback (delay (cfg (react a))))) a.

Definition effect_panner (a : App) : App :=
  write_node Panner (set_pan (pan (cfg (react a)))) a.

Definition effect_reverb_mix (a : App) : App :=
  match ref_of a ReverbDry, ref_of a ReverbWet with
  | Some _, Some _ =>
      let a := write_node ReverbDry (set_gain (1 - mix (cfg (react a)))) a in
      write_node ReverbWet (set_gain (mix (cfg (react a)))) a
  | _, _ => a
  end.

(** [setStatus]: the two effects that list [status] among their
    dependencies run again when it changes. *)
Definition setStatus (s : Status) (a : App) : App :=
  if decide (status (react a) = s) then a
  else effect_drive (effect_gain (set_status s a)).

(** ** [stop] *)

Definition null_ref (n : NodeName) (a : App) : App :=
  set_nodeRefs (λ m, if decide (m = n) then None else nodeRefs (refs a) m) a.

(** [scriptProcessorNodeRef.current?.disconnect()]. *)
Definition disconnect (n : NodeName) (G : AudioGraph) : AudioGraph :=
  mkGraph (nodes G) (List.filter (λ e, bool_decide (e.1 ≠ n)) (edges G)).

Definition stop (a : App) : App :=
  let a := if isRecording (react a) then set_isRecording false a else a in
  let a :=
    match mediaStreamRef (refs a) with
    | Some s => set_mediaStreamRef None (set_streams (<[s := false]> (streams (browser a))) a)
    | None => a
    end in
  let a :=
    match audioContextRef (refs a) with
    | Some c => set_audioContextRef None (set_contexts (<[c := true]> (contexts (browser a))) a)
    | None => a
    end in
  let a := null_ref Source a in
  let a := null_ref Gain a in
  let a := null_ref Drive a in
  let a := null_ref Analyser a in
  let a :=
    match nodeRefs (refs a) ScriptProcessor with
    | Some b =>
        set_builds (alter (alter_graph (disconnect ScriptProcessor)) b (builds (browser a))) a
    | None => a
    end in
  let a := null_ref ScriptProcessor a in
  setStatus stopped a.

(** ** [connectNodes] and [start] *)

(** [sampleRate: 44100]. *)
Definition sampleRate : N := 44100.

(** The refs [connectNodes] assigns for the nodes it created in run [b]. *)
Definition kept_in_ref (n : NodeName) : bool :=
  match n with
  | FinalMixer | Destination | Eq _ => false
  | _ => true
  end.

Definition assign_refs (b : nat) (G : AudioGraph) (old : NodeName → option nat)
  : NodeName → option nat :=
  λ n, if kept_in_ref n && bool_decide (is_Some (nodes G !! n)) then Some b else old n.

(** [connectNodes] in the component: its guard, the rebuild in the run the
    source belongs to, and the refs. *)
Definition connectNodes (cl : Closure) (random : N → R) (a : App) : App :=
  match audioContextRef (refs a), nodeRefs (refs a) Source with
  | Some _, Some b =>
      match builds (browser a) !! b with
      | Some bd =>
          let G := snd (Graph.connectNodes (closure_cfg cl) random sampleRate (graph bd)) in
          let a := set_builds (<[b := mkBuild (build_context bd) (build_stream bd) G]>
                                 (builds (browser a))) a in
          let a := set_nodeRefs (assign_refs b G (nodeRefs (refs a))) a in
          set_eqNodesRef (replicate (length (eqBands (closure_cfg cl))) b) a
      | None => a
      end
  | _, _ => a
  end.

Definition suspend (k : nat) (c : Continuation) (a : App) : App :=
  set_tasks (<[k := c]> (tasks (browser a))) a.

Definition finish (k : nat) (a : App) : App :=
  set_tasks (delete k (tasks (browser a))) a.

(** The [catch] of [start]. *)
Definition catch (a : App) : App := setStatus error (log error_starting a).

Definition closure_of (a : App) : Closure :=
  mkClosure (cfg (react a)) (selectedInput (react a)) (selectedOutput (react a))
    (hasOutputSelection (react a)).

(** [start] up to its first [await], as the function invocation [k]. *)
Definition start_as (k : nat) (cl : Closure) (a : App) : App :=
  let (c, a) := allocate a in
  let a := set_contexts (<[c := false]> (contexts (browser a))) a in
  let a := set_audioContextRef (Some c) a in
  let a := log base_latency a in
  if closure_hasOutputSelection cl && bool_decide (closure_output cl ≠ "default"%string)
  then suspend k (await_setSinkId cl) a
  else suspend k (await_getUserMedia cl) a.

Definition start (cl : Closure) (a : App) : App :=
  let (k, a) := allocate a in start_as k cl a.

(** What an awaited promise settles with. *)
Inductive Outcome :=
| fulfilled                                   (* [setSinkId] resolved *)
| rejected                                    (* [setSinkId] rejected *)
| granted (random : N → R) (constructs : bool)
    (* [getUserMedia] resolved with a stream; [random] are the draws of
       [Math.random] and [constructs] says whether the browser builds the
       graph without throwing *)
| denied                                      (* [getUserMedia] rejected *)
| fired.                                      (* the 50 ms timer *)

(** [start] from [getUserMedia]'s stream to its end. *)
Definition start_with_stream (k : nat) (cl : Closure) (random : N → R)
    (constructs : bool) (a : App) : App :=
  let a := finish k a in
  let (s, a) := allocate a in
  let a := set_streams (<[s := true]> (streams (browser a))) a in
  let a := set_mediaStreamRef (Some s) a in
  match audioContextRef (refs a) with
  | None => catch a                 (* [createMediaStreamSource] of [null] *)
  | Some c =>
      if constructs then
        let (b, a) := allocate a in
        let a := set_builds (<[b := mkBuild c s context_with_source]> (builds (browser a))) a in
        let a := set_nodeRefs (λ n, if decide (n = Source) then Some b
                                    else nodeRefs (refs a) n) a in
        let a := connectNodes cl random a in
        let a := set_mediaRecorderRef (Some s) a in
        setStatus running a
      else catch a
  end.

(** A suspended function resumes. *)
Definition resume (k : nat) (c : Continuation) (o : Outcome) (a : App) : App :=
  match c, o with
  | await_setSinkId cl, fulfilled => suspend k (await_getUserMedia cl) a
  | await_setSinkId cl, rejected => catch (finish k a)
  | await_getUserMedia cl, granted random constructs =>
      start_with_stream k cl random constructs a
  | await_getUserMedia cl, denied => catch (finish k a)
  | await_settle cl, fired => start_as k cl a
  | _, _ => a
  end.

(** [restartAudio], with the [status] and the [start] of the render it was
    called in. *)
Definition restartAudio (render_status : Status) (a : App) : App :=
  if decide (render_status = running) then
    let cl := closure_of a in
    let a := stop a in
    let (k, a) := allocate a in
    suspend k (await_settle cl) a
  else a.

Definition handleStartStop (a : App) : App :=
  if decide (status (react a) = running) then stop a else start (closure_of a) a.


(** ** Configuration changes: the setters and the effects they trigger *)

Inductive BandProperty := band_gain_property | q_property | freq_property.

Inductive ConfigChange :=
| setGain (v : R)
| setDrive (v : R)
| setLatency (v : R)
| handleEqBandChange (index : nat) (property : BandProperty) (value : R)
| handlePresetChange (bands : list EqBand)
| setPostGain (v : R)
| setCompressorEnabled (b : bool)
| setCompressor (c : CompressorParams)
| setDelayEnabled (b : bool)
| setDelay (d : DelayParams)
| setPanner (v : R)
| setNoiseGateEnabled (b : bool)
| setNoiseGate (p : NoiseGate.NoiseGateParams)
| setReverbEnabled (b : bool)
| setReverb (m : R)
| setSelectedInput (d : string)
| setSelectedOutput (d : string).

(** [newBands[index][property] = value]. *)
Definition set_band_property (property : BandProperty) (value : R) (b : EqBand) : EqBand :=
  match property with
  | band_gain_property => mkBand (band_id b) (label b) value (q b) (freq b) (band_type b)
  | q_property => mkBand (band_id b) (label b) (band_gain b) (Some value) (freq b) (band_type b)
  | freq_property => mkBand (band_id b) (label b) (band_gain b) (q b) value (band_type b)
  end.

(** The configuration after a setter. *)
Definition update_cfg (c : ConfigChange) (g : Configuration) : Configuration :=
  let mk gain drive latency eqBands postGain compressorEnabled compressor delayEnabled
         delay pan noiseGateEnabled noiseGate reverbEnabled mix :=
    mkConfiguration gain drive latency eqBands postGain compressorEnabled compressor
      delayEnabled delay pan noiseGateEnabled noiseGate reverbEnabled mix in
  match c with
  | setGain v =>
      mk v (drive g) (latency g) (eqBands g) (postGain g) (compressorEnabled g)
         (compressor g) (delayEnabled g) (delay g) (pan g) (noiseGateEnabled g)
         (noiseGate g) (reverbEnabled g) (mix g)
  | setDrive v =>
      mk (gain g) v (latency g) (eqBands g) (postGain g) (compressorEnabled g)
         (compressor g) (delayEnabled g) (delay g) (pan g) (noiseGateEnabled g)
         (noiseGate g) (reverbEnabled g) (mix g)
  | setLatency v =>
      mk (gain g) (drive g) v (eqBands g) (postGain g) (compressorEnabled g)
         (compressor g) (delayEnabled g) (delay g) (pan g) (noiseGateEnabled g)
         (noiseGate g) (reverbEnabled g) (mix g)
  | handleEqBandChange index property value =>
      mk (gain g) (drive g) (latency g)
         (alter (set_band_property property value) index (eqBands g))
         (postGain g) (compressorEnabled g)
         (compressor g) (delayEnabled g) (delay g) (pan g) (noiseGateEnabled g)
         (noiseGate g) (reverbEnabled g) (mix g)
  | handlePresetChange bands =>
      mk (gain g) (drive g) (latency g) bands (postGain g) (compressorEnabled g)
         (compressor g) (delayEnabled g) (delay g) (pan g) (noiseGateEnabled g)
         (noiseGate g) (reverbEnabled g) (mix g)
  | setPostGain v =>
      mk (gain g) (drive g) (latency g) (eqBands g) v (compressorEnabled g)
         (compressor g) (delayEnabled g) (delay g) (pan g) (noiseGateEnabled g)
         (noiseGate g) (reverbEnabled g) (mix g)
  | setCompressorEnabled b =>
      mk (gain g) (drive g) (latency g) (eqBands g) (postGain g) b
         (compressor g) (delayEnabled g) (delay g) (pan g) (noiseGateEnabled g)
         (noiseGate g) (reverbEnabled g) (mix g)
  | setCompressor c =>
      mk (gain g) (drive g) (latency g) (eqBands g) (postGain g) (compressorEnabled g)
         c (delayEnabled g) (delay g) (pan g) (noiseGateEnabled g)
         (noiseGate g) (reverbEnabled g) (mix g)
  | setDelayEnabled b =>
      mk (gain g) (drive g) (latency g) (eqBands g) (postGain g) (compressorEnabled g)
         (compressor g) b (delay g) (pan g) (noiseGateEnabled g)
         (noiseGate g) (reverbEnabled g) (mix g)
  | setDelay d =>
      mk (gain g) (drive g) (latency g) (eqBands g) (postGain g) (compressorEnabled g)
         (compressor g) (delayEnabled g) d (pan g) (noiseGateEnabled g)
         (noiseGate g) (reverbEnabled g) (mix g)
  | setPanner v =>
      mk (gain g) (drive g) (latency g) (eqBands g) (postGain g) (compressorEnabled g)
         (compressor g) (delayEnabled g) (delay g) v (noiseGateEnabled g)
         (noiseGate g) (reverbEnabled g) (mix g)
  | setNoiseGateEnabled b =>
      mk (gain g) (drive g) (latency g) (eqBands g) (postGain g) (compressorEnabled g)
         (compressor g) (delayEnabled g) (delay g) (pan g) b
         (noiseGate g) (reverbEnabled g) (mix g)
  | setNoiseGate p =>
      mk (gain g) (drive g) (latency g) (eqBands g) (postGain g) (compressorEnabled g)
         (compressor g) (delayEnabled g) (delay g) (pan g) (noiseGateEnabled g)
         p (reverbEnabled g) (mix g)
  | setReverbEnabled b =>
      mk (gain g) (drive g) (latency g) (eqBands g) (postGain g) (compressorEnabled g)
         (compressor g) (delayEnabled g) (delay g) (pan g) (noiseGateEnabled g)
         (noiseGate g) b (mix g)
  | setReverb m =>
      mk (gain g) (drive g) (latency g) (eqBands g) (postGain g) (compressorEnabled g)
         (compressor g) (delayEnabled g) (delay g) (pan g) (noiseGateEnabled g)
         (noiseGate g) (reverbEnabled g) m
  | setSelectedInput _ | setSelectedOutput _ => g
  end.

Definition update_state (c : ConfigChange) (a : App) : App :=
  let a := set_cfg (update_cfg c (cfg (react a))) a in
  match c with
  | setSelectedInput d => set_selectedInput d a
  | setSelectedOutput d => set_selectedOutput d a
  | _ => a
  end.

(** Whether a dependency changed between two renders: a number, boolean or
    string by value; an object or array because the setter made a new one. *)
Definition differs (x y : R) : bool := if Req_dec_T x y then false else true.

Definition replaces_eqBands (c : ConfigChange) : bool :=
  match c with handleEqBandChange _ _ _ | handlePresetChange _ => true | _ => false end.
Definition replaces_compressor (c : ConfigChange) : bool :=
  match c with setCompressor _ => true | _ => false end.
Definition replaces_panner (c : ConfigChange) : bool :=
  match c with setPanner _ => true | _ => false end.
Definition replaces_noiseGate (c : ConfigChange) : bool :=
  match c with setNoiseGate _ => true | _ => false end.

Definition when (b : bool) (effect : App → App) (a : App) : App :=
  if b then effect a else a.

(** The effects of the render that follows a setter, in the order the
    component declares them, each run when one of its dependencies
    changed between the previous render ([old]) and this one ([new]). *)
Definition run_effects (c : ConfigChange) (old : ReactState) (a : App) : App :=
  let new := react a in
  let g0 := cfg old in
  let g := cfg new in
  let a := when (replaces_noiseGate c) effect_noiseGate a in
  let a := when (differs (gain g0) (gain g)) effect_gain a in
  let a := when (differs (drive g0) (drive g)) effect_drive a in
  let a := when (replaces_eqBands c) effect_eqBands a in
  let a := when (differs (postGain g0) (postGain g)) effect_postGain a in
  let a := when (bool_decide (selectedInput old ≠ selectedInput new)
                 || bool_decide (selectedOutput old ≠ selectedOutput new)
                 || differs (latency g0) (latency g)) (restartAudio (status old)) a in
  let a := when (bool_decide (compressorEnabled g0 ≠ compressorEnabled g)
                 || bool_decide (delayEnabled g0 ≠ delayEnabled g)
                 || bool_decide (noiseGateEnabled g0 ≠ noiseGateEnabled g)
                 || bool_decide (reverbEnabled g0 ≠ reverbEnabled g))
             (λ a, if decide (status old = running) then restartAudio (status old) a
                   else a) a in
  let a := when (replaces_compressor c) effect_compressor a in
  let a := when (differs (time (delay g0)) (time (delay g))) effect_delay_time a in
  let a := when (differs (feedback (delay g0)) (feedback (delay g))) effect_delay_feedback a in
  let a := when (replaces_panner c) effect_panner a in
  let a := when (differs (mix g0) (mix g)) effect_reverb_mix a in
  a.

Definition applyConfigChange (c : ConfigChange) (a : App) : App :=
  run_effects c (react a) (update_state c a).

(** ** The engine as a transition system *)

Inductive Event :=
| call_start
| call_stop
| call_restartAudio
| click_startStop
| settle (k : nat) (o : Outcome)
| change (c : ConfigChange).

Definition step (a : App) (e : Event) : App :=
  match e with
  | call_start => start (closure_of a) a
  | call_stop => stop a
  | call_restartAudio => restartAudio (status (react a)) a
  | click_startStop => handleStartStop a
  | settle k o =>
      match tasks (browser a) !! k with
      | Some c => resume k c o a
      | None => a
      end
  | change c => applyConfigChange c a
  end.

Definition run (events : list Event) (a : App) : App := foldl step a events.

(** The component as mounted. *)
Definition mounted : App :=
  mkApp (mkReact stopped initialConfiguration "default" "default" false false)
        (mkRefs None None None (λ _, None) [] (NoiseGate.mkParams (-50) 0.25))
        (mkBrowser ∅ ∅ ∅ ∅ [] 0).

(** ** Definitions used to state the facts *)

(** The engine after a [stop]: no context, no source, not running. *)
Definition torn_down (a : App) : Prop :=
  audioContextRef (refs a) = None ∧ nodeRefs (refs a) Source = None ∧
  status (react a) ≠ running.

(** The claim of C3: once [stop] has been called, the result of a [start]
    that was in flight is discarded when it arrives, whatever was called in
    between. *)
Definition stop_discards_start : Prop :=
  ∀ (a : App) (k : nat) (cl : Closure) (later : list Event) (random : N → R),
    tasks (browser a) !! k = Some (await_getUserMedia cl) →
    tasks (browser (run later (stop a))) !! k = Some (await_getUserMedia cl) →
    status (react (step (run later (stop a)) (settle k (granted random true)))) ≠ running ∧
    builds (browser (step (run later (stop a)) (settle k (granted random true))))
    = builds (browser (run later (stop a))).

(** The events that carry a restart from its timer to [getUserMedia]. *)
Definition restart_reaches_device (cl : Closure) (k : nat) : list Event :=
  settle k fired ::
  (if closure_hasOutputSelection cl && bool_decide (closure_output cl ≠ "default"%string)
   then [settle k fulfilled] else []).

(** The claim of C8: after a rebuild that fails while the graph is built,
    the engine is left stopped. *)
Definition failed_rebuild_ends_stopped : Prop :=
  ∀ (a : App) (k : nat) (cl : Closure) (random : N → R),
    tasks (browser a) !! k = Some (await_getUserMedia cl) →
    status (react (step a (settle k (granted random false)))) = stopped.

(** The engine started from the mounted component. *)
Definition started : App :=
  run [call_start; settle 0 (granted no_random true)] mounted.

(** ** Definitions used to state the facts about configuration changes *)

(** The graph of run [b] as it is now, and its nodes and connections. *)
Definition live (a : App) (b : nat) : option AudioGraph :=
  graph <$> builds (browser a) !! b.
Definition node_at (a : App) (b : nat) (n : NodeName) : option AudioNode :=
  live a b ≫= λ G, nodes G !! n.
Definition edges_at (a : App) (b : nat) : option (list (NodeName * NodeName)) :=
  edges <$> live a b.

(** The names with a ref of their own or a place in [eqNodesRef]:
    [finalMixer] is a local of [connectNodes] and the destination belongs
    to the context. *)
Definition held_in_ref (n : NodeName) : bool :=
  match n with FinalMixer | Destination => false | _ => true end.

(** Run [b] holds the graph built from the configuration [g] with the draws
    [random], and the refs of the nodes of that graph hold the nodes of run
    [b]. *)
Record runs_graph (a : App) (b : nat) (random : N → R) (g : Configuration) : Prop :=
  mkRuns {
    sync_live : live a b = Some (rebuild g random sampleRate);
    sync_refs : ∀ n, held_in_ref n = true →
                     is_Some (node_of g random sampleRate n) → ref_of a n = Some b;
    sync_filters : length (eqNodesRef (refs a)) = length (eqBands g);
    sync_fresh : (b < fresh (browser a))%nat
  }.

(** The engine is running, on run [b], the graph of its current
    configuration. *)
Definition in_sync (a : App) (b : nat) (random : N → R) : Prop :=
  status (react a) = running ∧ runs_graph a b random (cfg (react a)).

(** Two configurations with the same stages enabled and as many bands. *)
Definition same_shape (g g' : Configuration) : Prop :=
  noiseGateEnabled g' = noiseGateEnabled g ∧
  compressorEnabled g' = compressorEnabled g ∧
  delayEnabled g' = delayEnabled g ∧
  reverbEnabled g' = reverbEnabled g ∧
  length (eqBands g') = length (eqBands g).

(** What a step leaves alone when it rebuilds nothing: the state of the
    component, the refs of the nodes, the contexts, the streams, the
    suspended functions, the ids handed out, and the contexts, streams and
    connections of the runs. *)
Record quiet (a a' : App) : Prop := mkQuiet {
  quiet_react : react a' = react a;
  quiet_context : audioContextRef (refs a') = audioContextRef (refs a);
  quiet_stream : mediaStreamRef (refs a') = mediaStreamRef (refs a);
  quiet_nodeRefs : nodeRefs (refs a') = nodeRefs (refs a);
  quiet_eqNodesRef : eqNodesRef (refs a') = eqNodesRef (refs a);
  quiet_contexts : contexts (browser a') = contexts (browser a);
  quiet_streams : streams (browser a') = streams (browser a);
  quiet_tasks : tasks (browser a') = tasks (browser a);
  quiet_fresh : fresh (browser a') = fresh (browser a);
  quiet_runs : ∀ b, build_context <$> builds (browser a') !! b
                    = build_context <$> builds (browser a) !! b;
  quiet_edges : ∀ b, edges_at a' b = edges_at a b
}.

(** What the body of the [forEach] over the filters writes into a filter. *)
Definition tune (band : EqBand) (node : AudioNode) : AudioNode :=
  let node := set_frequency (freq band) (set_gain (band_gain band) node) in
  match truthy (q band) with
  | Some v => set_Q v node
  | None => node
  end.

(** The nodes [N] after the [forEach] has visited the first [k] filters. *)
Definition tuned (bands : list EqBand) (k : nat) (N : NodeName → option AudioNode)
    (m : NodeName) : option AudioNode :=
  match m with
  | Eq i =>
      match bands !! i with
      | Some band => if decide (i < k)%nat then tune band <$> N m else N m
      | None => N m
      end
  | _ => N m
  end.

(** The spec's table: a stage switched on or off, the device selection and
    the latency are structural; every value is hot. *)
Inductive Kind := hot | structural.

Definition classify (c : ConfigChange) : Kind :=
  match c with
  | setLatency _ | setCompressorEnabled _ | setDelayEnabled _ | setNoiseGateEnabled _
  | setReverbEnabled _ | setSelectedInput _ | setSelectedOutput _ => structural
  | _ => hot
  end.

(** A band keeps its filter kind, and a [Q] that was set stays set (the
    controls offer a [Q] from 0.1 to 20 on the bands that have one). *)
Definition compatible (band band' : EqBand) : Prop :=
  band_type band' = band_type band ∧ (truthy (q band') = None → truthy (q band) = None).

(** The values the controls produce. *)
Definition admissible (c : ConfigChange) (g : Configuration) : Prop :=
  match c with
  | handleEqBandChange _ q_property value => value ≠ 0
  | handlePresetChange bands => Forall2 compatible (eqBands g) bands
  | _ => True
  end.

(** No rebuild between two states: the refs hold the same nodes, no
    context, stream or run was made or closed, nothing was scheduled. *)
Record no_rebuild (a a' : App) : Prop := mkNoRebuild {
  same_nodes : ∀ n, ref_of a' n = ref_of a n;
  same_context : audioContextRef (refs a') = audioContextRef (refs a);
  same_stream : mediaStreamRef (refs a') = mediaStreamRef (refs a);
  same_contexts : contexts (browser a') = contexts (browser a);
  same_streams : streams (browser a') = streams (browser a);
  same_tasks : tasks (browser a') = tasks (browser a);
  same_fresh : fresh (browser a') = fresh (browser a);
  same_runs : ∀ b, build_context <$> builds (browser a') !! b
                   = build_context <$> builds (browser a) !! b;
  same_edges : ∀ b, edges_at a' b = edges_at a b
}.

(** The change sets a value other than the current one. *)
Definition changes (c : ConfigChange) (s : ReactState) : Prop :=
  match c with
  | setLatency v => v ≠ latency (cfg s)
  | setCompressorEnabled e => e ≠ compressorEnabled (cfg s)
  | setDelayEnabled e => e ≠ delayEnabled (cfg s)
  | setNoiseGateEnabled e => e ≠ noiseGateEnabled (cfg s)
  | setReverbEnabled e => e ≠ reverbEnabled (cfg s)
  | setSelectedInput d => d ≠ selectedInput s
  | setSelectedOutput d => d ≠ selectedOutput s
  | _ => True
  end.

(** The initial configuration with the reverb enabled at mix 0. *)
Definition dry_reverb : Configuration :=
  update_cfg (setReverb 0) (update_cfg (setReverbEnabled true) initialConfiguration).

(** ** Definitions used to state the facts about [start] and [stop] *)

(** The events that carry a [start] from its call to [getUserMedia]: the
    output device is set first when one is selected. *)
Definition start_reaches_device (cl : Closure) (k : nat) : list Event :=
  if closure_hasOutputSelection cl && bool_decide (closure_output cl ≠ "default"%string)
  then [settle k fulfilled] else [].

(** The refs [stop] sets to [null]. *)
Definition nulled_by_stop : list NodeName :=
  [Source; Gain; Drive; Analyser; ScriptProcessor].

Definition rest_of (a : App) :=
  (contexts (browser a), streams (browser a), tasks (browser a),
   console (browser a), fresh (browser a)).

(** ** Facts about the life cycle (C3) *)

Lemma setStatus_idle s a : s ≠ running → setStatus s a = set_status s a.
Proof.
  intros Hs. unfold setStatus, effect_drive, effect_gain.
  destruct (decide (status (react a) = s)) as [<-|_].
  - by destruct a as [[] ? ?].
  - simpl. destruct (decide (s = running)) as [?|_]; [done|]. simpl.
    destruct (decide (s = running)); done.
Qed.

Ltac destruct_app a :=
  destruct a as [[st g input output hos rec] [ctx stream recorder nr eqs gate]
                   [ctxs blds strs tsks cons fr]].

Lemma stop_status a : status (react (stop a)) = stopped.
Proof. unfold stop. rewrite setStatus_idle by done. reflexivity. Qed.

Lemma stop_torn_down a : torn_down (stop a).
Proof.
  unfold torn_down, stop. rewrite setStatus_idle by done.
  destruct_app a. simpl.
  destruct rec, stream, ctx; simpl; destruct (nr ScriptProcessor); simpl; done.
Qed.

Lemma catch_status a : status (react (catch a)) = error.
Proof. unfold catch. rewrite setStatus_idle by done. reflexivity. Qed.

Lemma catch_frame a :
  builds (browser (catch a)) = builds (browser a) ∧
  refs (catch a) = refs a ∧
  console (browser (catch a)) = console (browser a) ++ [error_starting].
Proof. unfold catch. rewrite setStatus_idle by done. done. Qed.

(** A later [stop], or the output device being set, changes nothing of
    that. *)
Lemma torn_down_step a k e :
  torn_down a → e = call_stop ∨ e = settle k fulfilled → torn_down (step a e).
Proof.
  intros Ht [->| ->]; simpl; [apply stop_torn_down|].
  destruct (tasks (browser a) !! k) as [[cl|cl|cl]|]; simpl; done.
Qed.

Lemma torn_down_run k later : ∀ a,
  torn_down a →
  Forall (λ e, e = call_stop ∨ e = settle k fulfilled) later →
  torn_down (run later a).
Proof.
  induction later as [|e later IH]; intros a Ht Hl; [done|].
  apply Forall_cons in Hl as [He Hl]. simpl. apply IH; [|done].
  by apply (torn_down_step a k).
Qed.

(** In a torn-down engine, whatever a suspended function resumes with, the
    engine does not come to run and no run is added or changed. *)
Lemma torn_down_settle a k o :
  torn_down a →
  status (react (step a (settle k o))) ≠ running ∧
  builds (browser (step a (settle k o))) = builds (browser a) ∧
  nodeRefs (refs (step a (settle k o))) = nodeRefs (refs a).
Proof.
  intros (Hc & Hs & Hr). simpl.
  destruct (tasks (browser a) !! k) as [[cl|cl|cl]|]; [| | |done];
    destruct o as [| |random constructs| |]; simpl; try done.
  all: try (unfold start_with_stream; simpl; rewrite Hc).
  all: try match goal with
           | |- context [catch ?x] =>
               rewrite (catch_status x);
               destruct (catch_frame x) as (-> & -> & _); done
           end.
  unfold start_as. simpl. destruct (closure_hasOutputSelection cl && _); done.
Qed.

(** C3, as stated, fails.  [start], [stop], [start] again, and then the
    first [start]'s stream arrives: it is wired into the second [start]'s
    context (run 5 in context 3) and the engine is set running, while the
    second [start] (function 2) is still waiting for its own stream. *)
Lemma stale_start_is_installed :
  let a := run [call_start; call_stop; call_start; settle 0 (granted no_random true)]
             mounted in
  status (react a) = running ∧
  build_context <$> builds (browser a) !! 5%nat = Some 3%nat ∧
  nodeRefs (refs a) Source = Some 5%nat ∧
  tasks (browser a) !! 2%nat = Some (await_getUserMedia (closure_of mounted)) ∧
  ¬ stop_discards_start.
Proof.
  cbv zeta. split; [vm_compute; reflexivity|]. split; [vm_compute; reflexivity|].
  split; [vm_compute; reflexivity|]. split; [vm_compute; reflexivity|].
  intros H.
  destruct (H (run [call_start] mounted) 0%nat (closure_of mounted) [call_start]
              no_random) as [Hs _]; [vm_compute; reflexivity..|].
  apply Hs. vm_compute. reflexivity.
Qed.

Lemma torn_down_stream_arrives a k cl random constructs :
  torn_down a →
  tasks (browser a) !! k = Some (await_getUserMedia cl) →
  let a' := step a (settle k (granted random constructs)) in
  status (react a') = error ∧ audioContextRef (refs a') = None ∧
  mediaStreamRef (refs a') = Some (fresh (browser a)) ∧
  streams (browser a') !! fresh (browser a) = Some true.
Proof.
  intros (Hc & Hs & Hr) Hk. simpl. rewrite Hk. simpl.
  unfold start_with_stream. simpl. rewrite Hc.
  match goal with
  | |- context [catch ?x] =>
      rewrite (catch_status x); destruct (catch_frame x) as (_ & -> & _)
  end.
  unfold catch. rewrite setStatus_idle by done. simpl.
  by rewrite lookup_insert_eq.
Qed.

(** C3, amended.  When [stop] is called and, until the result of a
    suspended [start] arrives, nothing else is called but [stop] again (the
    output device of that same [start] may be set meanwhile), the result is
    not installed and the engine does not come to run: no run is added or
    changed and the refs stay as [stop] left them.  If what arrives is the
    stream, the resumed [start] fails on the missing context: the engine
    ends in [error], without a context, holding the late stream, its tracks
    live. *)
Theorem stale_start_not_installed (a : App) (k : nat) (later : list Event)
    (o : Outcome) :
  Forall (λ e, e = call_stop ∨ e = settle k fulfilled) later →
  let a1 := run later (stop a) in
  let a2 := step a1 (settle k o) in
  status (react a2) ≠ running ∧
  builds (browser a2) = builds (browser a1) ∧
  nodeRefs (refs a2) = nodeRefs (refs a1) ∧
  nodeRefs (refs a2) Source = None ∧
  (∀ cl random constructs,
     tasks (browser a1) !! k = Some (await_getUserMedia cl) →
     o = granted random constructs →
     status (react a2) = error ∧ audioContextRef (refs a2) = None ∧
     mediaStreamRef (refs a2) = Some (fresh (browser a1)) ∧
     streams (browser a2) !! fresh (browser a1) = Some true).
Proof.
  intros Hl a1 a2.
  assert (Ht : torn_down a1) by (apply (torn_down_run k); [apply stop_torn_down|done]).
  destruct (torn_down_settle a1 k o Ht) as (Hs & Hb & Hr).
  split; [done|]. split; [done|]. split; [done|]. split.
  - unfold a2. rewrite Hr. apply Ht.
  - intros cl random constructs Hk ->.
    apply (torn_down_stream_arrives a1 k cl random constructs Ht Hk).
Qed.

Lemma stale_start_not_installed_witness :
  Forall (λ e, e = call_stop ∨ e = settle 0%nat fulfilled) [call_stop] ∧
  let a1 := run [call_stop] (stop (run [call_start] mounted)) in
  let a2 := step a1 (settle 0%nat (granted no_random true)) in
  status (react a2) ≠ running ∧
  builds (browser a2) = builds (browser a1) ∧
  nodeRefs (refs a2) = nodeRefs (refs a1) ∧
  nodeRefs (refs a2) Source = None ∧
  (∀ cl random constructs,
     tasks (browser a1) !! 0%nat = Some (await_getUserMedia cl) →
     granted no_random true = granted random constructs →
     status (react a2) = error ∧ audioContextRef (refs a2) = None ∧
     mediaStreamRef (refs a2) = Some (fresh (browser a1)) ∧
     streams (browser a2) !! fresh (browser a1) = Some true).
Proof.
  split; [repeat constructor|].
  apply (stale_start_not_installed (run [call_start] mounted) 0%nat [call_stop]
           (granted no_random true)).
  repeat constructor.
Defined.

(** ** A rebuild whose graph construction throws (C8) *)

(** Reading a field through the updates, and nothing more. *)
Ltac fields :=
  cbn [react refs browser status cfg selectedInput selectedOutput hasOutputSelection
       isRecording audioContextRef mediaStreamRef mediaRecorderRef nodeRefs eqNodesRef
       noiseGateRef contexts builds streams tasks console fresh
       set_status set_cfg set_selectedInput set_selectedOutput set_isRecording
       set_audioContextRef set_mediaStreamRef set_mediaRecorderRef set_nodeRefs
       set_eqNodesRef set_noiseGateRef set_contexts set_builds set_streams set_tasks
       log allocate suspend finish fst snd
       closure_of closure_cfg closure_input closure_output closure_hasOutputSelection
       build_context build_stream graph] in *.

Lemma construction_failure a k cl random :
  tasks (browser a) !! k = Some (await_getUserMedia cl) →
  let a' := step a (settle k (granted random false)) in
  status (react a') = error ∧
  console (browser a') = console (browser a) ++ [error_starting] ∧
  builds (browser a') = builds (browser a) ∧
  nodeRefs (refs a') = nodeRefs (refs a).
Proof.
  intros Hk. cbn [step]. rewrite Hk. cbn [resume]. unfold start_with_stream. fields.
  destruct (audioContextRef (refs a));
    match goal with
    | |- context [catch ?x] =>
        rewrite (catch_status x); destruct (catch_frame x) as (-> & -> & ->)
    end; done.
Qed.

Lemma stop_frame a :
  fresh (browser (stop a)) = fresh (browser a) ∧
  console (browser (stop a)) = console (browser a) ∧
  tasks (browser (stop a)) = tasks (browser a).
Proof.
  unfold stop. rewrite setStatus_idle by done. destruct_app a. simpl.
  destruct rec, stream, ctx; simpl; destruct (nr ScriptProcessor); simpl; done.
Qed.

Lemma allocate_frame x :
  react (allocate x).2 = react x ∧ refs (allocate x).2 = refs x ∧
  builds (browser (allocate x).2) = builds (browser x) ∧
  console (browser (allocate x).2) = console (browser x) ∧
  fresh (browser (allocate x).2) = S (fresh (browser x)).
Proof. done. Qed.

Lemma suspend_react k c x : react (suspend k c x) = react x.
Proof. done. Qed.

Lemma restartAudio_running a :
  restartAudio running a
  = suspend (fresh (browser (stop a))) (await_settle (closure_of a)) (allocate (stop a)).2.
Proof. unfold restartAudio. rewrite decide_True by done. reflexivity. Qed.

(** From the timer of a restart to [getUserMedia]: a new context, nothing
    else. *)
Lemma restart_resumes cl k x :
  let a2 := run (restart_reaches_device cl k) (suspend k (await_settle cl) x) in
  tasks (browser a2) !! k = Some (await_getUserMedia cl) ∧
  console (browser a2) = console (browser x) ++ [base_latency] ∧
  builds (browser a2) = builds (browser x) ∧
  audioContextRef (refs a2) = Some (fresh (browser x)) ∧
  nodeRefs (refs a2) = nodeRefs (refs x) ∧
  eqNodesRef (refs a2) = eqNodesRef (refs x) ∧
  react a2 = react x ∧
  fresh (browser a2) = S (fresh (browser x)).
Proof.
  unfold restart_reaches_device, run. cbn [foldl step]. fields.
  rewrite lookup_insert_eq. cbn [resume]. unfold start_as. fields.
  destruct (closure_hasOutputSelection cl && bool_decide _); cbn [foldl step]; fields;
    rewrite ?lookup_insert_eq; cbn [resume]; fields; rewrite ?lookup_insert_eq;
    repeat split; done.
Qed.

Lemma restart_in_flight a :
  status (react a) = running →
  let k := fresh (browser a) in
  let a1 := step a call_restartAudio in
  let a2 := run (restart_reaches_device (closure_of a) k) a1 in
  status (react a1) = stopped ∧
  tasks (browser a2) !! k = Some (await_getUserMedia (closure_of a)) ∧
  console (browser a2) = console (browser a) ++ [base_latency] ∧
  builds (browser a2) = builds (browser (stop a)) ∧
  audioContextRef (refs a2) = Some (S (fresh (browser a))) ∧
  nodeRefs (refs a2) = nodeRefs (refs (stop a)) ∧
  eqNodesRef (refs a2) = eqNodesRef (refs (stop a)) ∧
  react a2 = react (stop a) ∧
  fresh (browser a2) = S (S (fresh (browser a))).
Proof.
  intros Hrun k a1 a2. subst a1 a2 k. cbn [step]. rewrite Hrun, restartAudio_running.
  destruct (stop_frame a) as (Hf & Hc & Ht). rewrite Hf.
  destruct (restart_resumes (closure_of a) (fresh (browser a)) (allocate (stop a)).2)
    as (H1 & H2 & H3 & H4 & H5 & H6 & H7 & H8).
  destruct (allocate_frame (stop a)) as (A1 & A2 & A3 & A4 & A5).
  rewrite A4, Hc in H2. rewrite A3 in H3. rewrite A5, Hf in H4, H8.
  rewrite A2 in H5, H6. rewrite A1 in H7.
  split; [rewrite suspend_react, A1; apply stop_status|].
  split; [exact H1|]. split; [exact H2|]. split; [exact H3|].
  split; [exact H4|]. split; [exact H5|]. split; [exact H6|].
  split; [exact H7|]. exact H8.
Qed.




(** ** Configuration changes: hot writes and restarts (C6, C7) *)

Lemma quiet_refl a : quiet a a.
Proof. by split. Qed.

Lemma quiet_trans a1 a2 a3 : quiet a1 a2 → quiet a2 a3 → quiet a1 a3.
Proof.
  intros [] []. split; congruence.
Qed.

Lemma ref_of_quiet a a' n : quiet a a' → ref_of a' n = ref_of a n.
Proof. intros []. unfold ref_of. destruct n; congruence. Qed.

Lemma live_write_node n f a b :
  live (write_node n f a) b
  = (if decide (ref_of a n = Some b) then alter_node n f else (λ G, G)) <$> live a b.
Proof.
  unfold live, write_node. destruct (ref_of a n) as [b0|]; fields.
  - rewrite lookup_alter. case_decide as Hb.
    + subst b0. rewrite decide_True by done.
      destruct (builds (browser a) !! b); done.
    + rewrite decide_False by congruence. destruct (builds (browser a) !! b); done.
  - rewrite decide_False by done. destruct (builds (browser a) !! b); done.
Qed.

Lemma node_at_write_node n f a b m :
  node_at (write_node n f a) b m
  = if decide (m = n ∧ ref_of a n = Some b) then f <$> node_at a b m else node_at a b m.
Proof.
  unfold node_at. rewrite live_write_node.
  destruct (live a b) as [G|]; simpl; [|by case_decide].
  destruct (decide (ref_of a n = Some b)) as [Hr|Hr]; simpl.
  - rewrite lookup_alter. destruct (decide (n = m)) as [->|Hm].
    + by rewrite decide_True.
    + rewrite decide_False; [done|]. intros [? _]. congruence.
  - rewrite decide_False; [done|]. by intros [_ ?].
Qed.

Lemma write_node_quiet n f a : quiet a (write_node n f a).
Proof.
  split; try (unfold write_node; destruct (ref_of a n); reflexivity).
  - intros b. unfold write_node. destruct (ref_of a n) as [b0|]; [|done]. fields.
    rewrite lookup_alter. case_decide; [subst|done].
    by destruct (builds (browser a) !! b).
  - intros b. unfold edges_at. rewrite live_write_node.
    destruct (live a b); [|done]. simpl. by case_decide.
Qed.

Lemma live_intro a b cfg random sampleRate :
  edges_at a b = Some (edges (rebuild cfg random sampleRate)) →
  (∀ m, node_at a b m = node_of cfg random sampleRate m) →
  live a b = Some (rebuild cfg random sampleRate).
Proof.
  unfold edges_at, node_at. destruct (live a b) as [[N E]|]; [|done]. simpl.
  intros [= ->] Hn. f_equal.
  destruct (rebuild cfg random sampleRate) as [N' E'] eqn:HG. simpl. f_equal.
  apply map_eq. intros m. rewrite Hn, <- rebuild_nodes, HG. done.
Qed.

Lemma node_at_live a b G m : live a b = Some G → node_at a b m = nodes G !! m.
Proof. unfold node_at. by intros ->. Qed.

Lemma edges_at_live a b G : live a b = Some G → edges_at a b = Some (edges G).
Proof. unfold edges_at. by intros ->. Qed.

Lemma rebuild_edges_shape g g' r sr r' sr' :
  same_shape g g' → edges (rebuild g' r' sr') = edges (rebuild g r sr).
Proof.
  intros (Hg & Hc & Hd & Hr & Hl). rewrite !rebuild_edges.
  unfold upstream_edges, gate_edges, compressor_edges, delay_edges, reverb_edges,
    after_filters, filter_names, after_gate, after_drive, after_postGain.
  by rewrite Hg, Hc, Hd, Hr, Hl.
Qed.

Lemma node_of_shape g g' r sr r' sr' n :
  same_shape g g' →
  is_Some (node_of g' r' sr' n) → is_Some (node_of g r sr n).
Proof.
  intros (Hg & Hc & Hd & Hr & Hl).
  destruct n as [| | | | | | |j| | | | | | | | | |]; cbn [node_of];
    rewrite ?Hg, ?Hc, ?Hd, ?Hr;
    try (by destruct (noiseGateEnabled g), (compressorEnabled g), (delayEnabled g),
              (reverbEnabled g)).
  rewrite !fmap_is_Some, !lookup_lt_is_Some. lia.
Qed.

(** A step that rebuilds nothing and leaves in run [b] the nodes of the
    configuration [g'] keeps the engine on run [b]. *)
Lemma runs_graph_hot a a' b random g g' :
  runs_graph a b random g → quiet a a' → same_shape g g' →
  (∀ m, node_at a' b m = node_of g' random sampleRate m) →
  runs_graph a' b random g'.
Proof.
  intros [Hl Hr Hf Hb] Hq Hshape Hn. split.
  - apply live_intro; [|done].
    rewrite (quiet_edges _ _ Hq), (edges_at_live _ _ _ Hl). f_equal.
    symmetry. by apply rebuild_edges_shape.
  - intros n Hh Hsome. rewrite (ref_of_quiet _ _ _ Hq). apply Hr; [done|].
    by apply (node_of_shape g g' random sampleRate random sampleRate).
  - rewrite (quiet_eqNodesRef _ _ Hq). destruct Hshape as (_ & _ & _ & _ & ->). done.
  - by rewrite (quiet_fresh _ _ Hq).
Qed.

Lemma update_state_react c a :
  react (update_state c a)
  = mkReact (status (react a)) (update_cfg c (cfg (react a)))
      (match c with setSelectedInput d => d | _ => selectedInput (react a) end)
      (match c with setSelectedOutput d => d | _ => selectedOutput (react a) end)
      (hasOutputSelection (react a)) (isRecording (react a)).
Proof. by destruct c. Qed.

Lemma update_state_rest c a :
  refs (update_state c a) = refs a ∧ browser (update_state c a) = browser a.
Proof. by destruct c. Qed.

Lemma differs_refl x : differs x x = false.
Proof. unfold differs. by destruct (Req_dec_T x x). Qed.

Lemma differs_false x y : differs x y = false → x = y.
Proof. unfold differs. by destruct (Req_dec_T x y). Qed.

Lemma unchanged `{EqDecision A} (x : A) : bool_decide (x ≠ x) = false.
Proof. by apply bool_decide_eq_false_2; intros H. Qed.

Ltac effects_of_change :=
  unfold applyConfigChange, run_effects; cbv zeta; rewrite !update_state_react;
  cbn [cfg status selectedInput selectedOutput update_cfg gain drive latency eqBands
       postGain compressorEnabled compressor delayEnabled delay pan noiseGateEnabled
       noiseGate reverbEnabled mix time feedback replaces_noiseGate replaces_eqBands
       replaces_compressor replaces_panner];
  rewrite ?differs_refl, ?unchanged; cbn [orb when].

Lemma write_view a b n f N :
  (∀ m, node_at a b m = N m) →
  (is_Some (N n) → ref_of a n = Some b) →
  ∀ m, node_at (write_node n f a) b m = if decide (m = n) then f <$> N m else N m.
Proof.
  intros HN Hr m. rewrite node_at_write_node, HN.
  destruct (decide (m = n)) as [->|Hm].
  - case_decide as Hd; [done|].
    destruct (N n) eqn:Hn; [|done]. exfalso. apply Hd. split; [done|]. by apply Hr.
  - rewrite decide_False; [done|]. by intros [? _].
Qed.

Lemma write_band_quiet i a : quiet a (write_band i a).
Proof.
  unfold write_band. destruct (eqBands (cfg (react a)) !! i) as [band|]; [|apply quiet_refl].
  cbv zeta.
  assert (H2 : quiet a (write_node (Eq i) (set_frequency (freq band))
                          (write_node (Eq i) (set_gain (band_gain band)) a))).
  { eapply quiet_trans; apply write_node_quiet. }
  destruct (truthy (q band)); [|done].
  eapply quiet_trans; [exact H2|apply write_node_quiet].
Qed.

Lemma write_band_view a b i band N :
  eqBands (cfg (react a)) !! i = Some band →
  (∀ m, node_at a b m = N m) →
  (is_Some (N (Eq i)) → ref_of a (Eq i) = Some b) →
  ∀ m, node_at (write_band i a) b m = if decide (m = Eq i) then tune band <$> N m else N m.
Proof.
  intros Hband HN Hr. unfold write_band. rewrite Hband. cbv zeta.
  set (a1 := write_node (Eq i) (set_gain (band_gain band)) a).
  set (a2 := write_node (Eq i) (set_frequency (freq band)) a1).
  assert (Q1 : quiet a a1) by apply write_node_quiet.
  assert (Q2 : quiet a1 a2) by apply write_node_quiet.
  pose proof (write_view a b (Eq i) (set_gain (band_gain band)) N HN Hr) as H1.
  fold a1 in H1.
  assert (Hr1 : is_Some ((λ m, if decide (m = Eq i) then set_gain (band_gain band) <$> N m
                               else N m) (Eq i)) → ref_of a1 (Eq i) = Some b).
  { rewrite (ref_of_quiet _ _ _ Q1). cbn beta. rewrite decide_True by done.
    rewrite fmap_is_Some. exact Hr. }
  pose proof (write_view a1 b (Eq i) (set_frequency (freq band)) _ H1 Hr1) as H2.
  fold a2 in H2. cbn beta in H2.
  assert (Hr2 : is_Some (N (Eq i)) → ref_of a2 (Eq i) = Some b).
  { rewrite (ref_of_quiet _ _ _ Q2), (ref_of_quiet _ _ _ Q1). exact Hr. }
  unfold tune. destruct (truthy (q band)) as [v|].
  - intros m.
    rewrite (write_view a2 b (Eq i) (set_Q v) _ H2).
    + case_decide; [|done]. subst m. destruct (N (Eq i)); done.
    + rewrite !decide_True by done. rewrite !fmap_is_Some. exact Hr2.
  - intros m. rewrite H2. case_decide; [|done]. destruct (N m); done.
Qed.

Lemma write_bands_view a b N k :
  (k <= length (eqBands (cfg (react a))))%nat →
  (∀ m, node_at a b m = N m) →
  (∀ i, is_Some (N (Eq i)) → ref_of a (Eq i) = Some b) →
  quiet a (foldl (λ a index, write_band index a) a (seq 0 k)) ∧
  ∀ m, node_at (foldl (λ a index, write_band index a) a (seq 0 k)) b m
       = tuned (eqBands (cfg (react a))) k N m.
Proof.
  intros Hk HN Hr. induction k as [|k IH].
  - split; [apply quiet_refl|]. intros m. rewrite HN. unfold tuned.
    destruct m; try done. destruct (_ !! _); [|done]. case_decide; [lia|done].
  - destruct IH as [Q IH]; [lia|]. rewrite seq_S, foldl_app. simpl.
    set (a' := foldl (λ a index, write_band index a) a (seq 0 k)) in *.
    split; [eapply quiet_trans; [exact Q|apply write_band_quiet]|].
    destruct (lookup_lt_is_Some_2 (eqBands (cfg (react a))) k) as [band Hband]; [lia|].
    assert (Hband' : eqBands (cfg (react a')) !! k = Some band)
      by by rewrite (quiet_react _ _ Q).
    intros m.
    rewrite (write_band_view a' b k band _ Hband' IH).
    + unfold tuned. destruct (decide (m = Eq k)) as [->|Hm].
      * rewrite Hband. repeat case_decide; try lia. done.
      * destruct m as [| | | | | | |j| | | | | | | | | |]; try done.
        destruct (_ !! j); [|done].
        assert (j ≠ k) by congruence.
        repeat case_decide; try lia; done.
    + unfold tuned. rewrite Hband. case_decide; [lia|].
      rewrite (ref_of_quiet _ _ _ Q). apply Hr.
Qed.

Lemma step_view (cond : bool) a b n f N :
  (∀ m, node_at a b m = N m) →
  (is_Some (N n) → ref_of a n = Some b) →
  quiet a (if cond then write_node n f a else a) ∧
  ∀ m, node_at (if cond then write_node n f a else a) b m
       = if cond && bool_decide (m = n) then f <$> N m else N m.
Proof.
  intros HN Hr. destruct cond.
  - split; [apply write_node_quiet|]. intros m. rewrite (write_view a b n f N HN Hr).
    simpl. by destruct (decide (m = n)); [rewrite bool_decide_true|rewrite bool_decide_false].
  - split; [apply quiet_refl|]. intros m. by rewrite HN.
Qed.

Lemma tune_createFilter band band' :
  compatible band band' → tune band' (createFilter band) = createFilter band'.
Proof.
  intros [Hty Hq]. unfold tune, createFilter. rewrite Hty.
  destruct (truthy (q band')) as [v|]; simpl; [done|]. by rewrite Hq.
Qed.

Lemma compatible_refl band : compatible band band.
Proof. by split. Qed.

Lemma compatible_alter bands index property value :
  (property = q_property → value ≠ 0) →
  Forall2 compatible bands (alter (set_band_property property value) index bands).
Proof.
  intros Hv. apply Forall2_same_length_lookup_2; [by rewrite length_alter|].
  intros j band band' Hb. rewrite list_lookup_alter. case_decide as Hj.
  - subst j. rewrite Hb. intros [= <-]. split; [by destruct property|].
    destruct property; simpl; try done. destruct (Req_dec_T value 0); [|done].
    by destruct Hv.
  - rewrite Hb. intros [= <-]. apply compatible_refl.
Qed.

(** The [forEach] over the filters brings them to the bands of the new
    configuration. *)
Lemma retune a b random g g' :
  (∀ m, node_at a b m = node_of g random sampleRate m) →
  (∀ n, held_in_ref n = true → is_Some (node_of g random sampleRate n) →
        ref_of a n = Some b) →
  length (eqNodesRef (refs a)) = length (eqBands g) →
  eqBands (cfg (react a)) = eqBands g' →
  Forall2 compatible (eqBands g) (eqBands g') →
  (∀ m, (∀ i, m ≠ Eq i) → node_of g' random sampleRate m = node_of g random sampleRate m) →
  quiet a (effect_eqBands a) ∧
  ∀ m, node_at (effect_eqBands a) b m = node_of g' random sampleRate m.
Proof.
  intros HN Hr Hlen Hbands Hcompat Hrest. unfold effect_eqBands.
  pose proof (Forall2_length _ _ _ Hcompat) as Hl.
  destruct (write_bands_view a b (node_of g random sampleRate)
              (length (eqNodesRef (refs a)))) as [Q Hv].
  - rewrite Hbands. lia.
  - exact HN.
  - intros i. by apply Hr.
  - split; [exact Q|]. intros m. rewrite Hv, Hbands. unfold tuned.
    destruct m as [| | | | | | |i| | | | | | | | | |]; try (symmetry; by apply Hrest).
    cbn [node_of]. destruct (eqBands g' !! i) as [band'|] eqn:Hb'.
    + assert (Hi : (i < length (eqBands g'))%nat) by by eapply lookup_lt_Some.
      rewrite decide_True by lia.
      destruct (lookup_lt_is_Some_2 (eqBands g) i) as [band Hb]; [lia|].
      rewrite Hb. simpl. f_equal. apply tune_createFilter.
      by eapply Forall2_lookup_lr.
    + simpl. apply lookup_ge_None in Hb'. rewrite lookup_ge_None_2 by lia. done.
Qed.

Ltac node_cases m :=
  destruct m as [| | | | | | |?j| | | | | | | | | |];
  cbn [node_of update_cfg gain drive latency eqBands postGain compressorEnabled compressor
       delayEnabled delay pan noiseGateEnabled noiseGate reverbEnabled mix time feedback
       andb bool_decide decide_rel];
  repeat first [rewrite bool_decide_true by done | rewrite bool_decide_false by done];
  rewrite ?andb_false_r, ?andb_true_r; cbn [andb].

Ltac close_node :=
  first
    [ reflexivity
    | congruence
    | repeat match goal with |- context [if ?b then _ else _] => destruct b end;
      first [reflexivity | congruence] ].

Lemma set_noiseGateRef_quiet p a : quiet a (set_noiseGateRef p a).
Proof. by split. Qed.

(** The effect of a changed [reverb.mix] on the nodes of run [b]. *)
Lemma effect_reverb_mix_view a b random g :
  (∀ m, node_at a b m = node_of g random sampleRate m) →
  (∀ n, held_in_ref n = true → is_Some (node_of g random sampleRate n) →
        ref_of a n = Some b) →
  quiet a (effect_reverb_mix a) ∧
  ∀ m, node_at (effect_reverb_mix a) b m
       = match m with
         | ReverbDry => set_gain (1 - mix (cfg (react a))) <$> node_of g random sampleRate m
         | ReverbWet => set_gain (mix (cfg (react a))) <$> node_of g random sampleRate m
         | _ => node_of g random sampleRate m
         end.
Proof.
  intros HN Href. unfold effect_reverb_mix.
  destruct (ref_of a ReverbDry) as [d|] eqn:Hd; [destruct (ref_of a ReverbWet) as [w|] eqn:Hw|].
  - cbv zeta.
    destruct (step_view true a b ReverbDry (set_gain (1 - mix (cfg (react a)))) _ HN)
      as [Q Hv]; [by apply Href|].
    cbn [andb] in *.
    match type of Q with quiet _ ?x => set (a2 := x) in * end.
    destruct (step_view true a2 b ReverbWet (set_gain (mix (cfg (react a2)))) _ Hv)
      as [Q2 Hv2].
    { rewrite bool_decide_false by done. rewrite (ref_of_quiet _ _ _ Q). by apply Href. }
    split; [by eapply quiet_trans|]. intros m. rewrite Hv2. rewrite (quiet_react _ _ Q).
    destruct m; cbn [andb];
      repeat first [rewrite bool_decide_true by done | rewrite bool_decide_false by done];
      reflexivity.
  - split; [apply quiet_refl|]. intros m. rewrite HN.
    destruct m; try reflexivity.
    + destruct (node_of g random sampleRate ReverbDry) eqn:Hn; [|done].
      cbn [node_of] in Hn. destruct (reverbEnabled g) eqn:He; [|done].
      assert (ref_of a ReverbWet = Some b) by (apply Href; [done|]; cbn [node_of]; by rewrite He).
      congruence.
    + destruct (node_of g random sampleRate ReverbWet) eqn:Hn; [|done].
      assert (ref_of a ReverbWet = Some b) by (apply Href; [done|]; by rewrite Hn).
      congruence.
  - split; [apply quiet_refl|]. intros m. rewrite HN.
    destruct m; try reflexivity.
    + destruct (node_of g random sampleRate ReverbDry) eqn:Hn; [|done].
      assert (ref_of a ReverbDry = Some b) by (apply Href; [done|]; by rewrite Hn).
      congruence.
    + destruct (node_of g random sampleRate ReverbWet) eqn:Hn; [|done].
      cbn [node_of] in Hn. destruct (reverbEnabled g) eqn:He; [|done].
      assert (ref_of a ReverbDry = Some b) by (apply Href; [done|]; cbn [node_of]; by rewrite He).
      congruence.
Qed.

Lemma hot_change c a b random :
  in_sync a b random → classify c = hot → admissible c (cfg (react a)) →
  quiet (update_state c a) (applyConfigChange c a) ∧
  same_shape (cfg (react a)) (update_cfg c (cfg (react a))) ∧
  ∀ m, node_at (applyConfigChange c a) b m
       = node_of (update_cfg c (cfg (react a))) random sampleRate m.
Proof.
  intros [Hs [Hl Hr Hf Hb]] Hhot Hadm.
  set (g := cfg (react a)) in *.
  assert (HN : ∀ m, node_at (update_state c a) b m = node_of g random sampleRate m).
  { intros m. unfold node_at, live. rewrite (proj2 (update_state_rest c a)).
    fold (live a b). rewrite Hl. simpl. apply rebuild_nodes. }
  assert (Href : ∀ n, held_in_ref n = true → is_Some (node_of g random sampleRate n) →
                      ref_of (update_state c a) n = Some b).
  { intros n. unfold ref_of. rewrite (proj1 (update_state_rest c a)). apply Hr. }
  assert (Hs1 : status (react (update_state c a)) = running)
    by (by rewrite update_state_react).
  assert (Hg1 : cfg (react (update_state c a)) = update_cfg c g)
    by (by rewrite update_state_react).
  destruct c; try discriminate; effects_of_change; fold g.
  - (* setGain *)
    unfold when, effect_gain. rewrite decide_True by done. rewrite Hg1.
    destruct (step_view (differs (gain g) v) _ b Gain
                (set_gain (gain (update_cfg (setGain v) g))) _ HN (Href Gain eq_refl))
      as [Q Hv].
    split; [exact Q|]. split; [done|]. intros m. rewrite Hv.
    destruct (differs (gain g) v) eqn:Hd; [|apply differs_false in Hd]; node_cases m;
      close_node.
  - (* setDrive *)
    unfold when, effect_drive. rewrite decide_True by done. rewrite Hg1.
    destruct (step_view (differs (drive g) v) _ b Drive
                (set_curve (Drive.makeCurve (drive (update_cfg (setDrive v) g)))) _ HN
                (Href Drive eq_refl)) as [Q Hv].
    split; [exact Q|]. split; [done|]. intros m. rewrite Hv.
    destruct (differs (drive g) v) eqn:Hd; [|apply differs_false in Hd]; node_cases m;
      close_node.
  - (* handleEqBandChange *)
    destruct (retune _ b random g (update_cfg (handleEqBandChange index property value) g)
                HN Href) as [Q Hv].
    + by rewrite (proj1 (update_state_rest _ a)).
    + by rewrite Hg1.
    + apply compatible_alter. intros ->. exact Hadm.
    + intros m Hm. destruct m; try done. by destruct (Hm index0).
    + split; [exact Q|]. split; [|exact Hv].
      repeat split; try done. cbn [update_cfg eqBands]. by rewrite length_alter.
  - (* handlePresetChange *)
    destruct (retune _ b random g (update_cfg (handlePresetChange bands) g) HN Href)
      as [Q Hv].
    + by rewrite (proj1 (update_state_rest _ a)).
    + by rewrite Hg1.
    + exact Hadm.
    + intros m Hm. destruct m; try done. by destruct (Hm index).
    + split; [exact Q|]. split; [|exact Hv].
      repeat split; try done. cbn [update_cfg eqBands].
      symmetry. by eapply Forall2_length.
  - (* setPostGain *)
    unfold when, effect_postGain. rewrite Hg1.
    destruct (step_view (differs (postGain g) v) _ b PostGain
                (set_gain (postGain (update_cfg (setPostGain v) g))) _ HN
                (Href PostGain eq_refl)) as [Q Hv].
    split; [exact Q|]. split; [done|]. intros m. rewrite Hv.
    destruct (differs (postGain g) v) eqn:Hd; [|apply differs_false in Hd]; node_cases m;
      close_node.
  - (* setCompressor *)
    unfold effect_compressor. rewrite Hg1.
    destruct (step_view true _ b Compressor
                (set_compressor (compressor (update_cfg (setCompressor c) g))) _ HN
                (Href Compressor eq_refl)) as [Q Hv].
    split; [exact Q|]. split; [done|]. intros m. rewrite Hv.
    node_cases m; close_node.
  - (* setDelay *)
    unfold when, effect_delay_time, effect_delay_feedback.
    destruct (step_view (differs (time (delay g)) (time d)) _ b Delay
                (set_delayTime (time (delay (cfg (react (update_state (setDelay d) a))))))
                _ HN (Href Delay eq_refl)) as [Q Hv].
    match type of Q with quiet _ ?x => set (a2 := x) in * end.
    assert (Hr2 : is_Some
              (if differs (time (delay g)) (time d) && bool_decide (Feedback = Delay)
               then set_delayTime (time (delay (cfg (react (update_state (setDelay d) a)))))
                    <$> node_of g random sampleRate Feedback
               else node_of g random sampleRate Feedback) → ref_of a2 Feedback = Some b).
    { rewrite andb_false_r, (ref_of_quiet _ _ _ Q). by apply Href. }
    destruct (step_view (differs (feedback (delay g)) (feedback d)) a2 b Feedback
                (set_gain (feedback (delay (cfg (react a2))))) _ Hv Hr2) as [Q2 Hv2].
    split; [by eapply quiet_trans|]. split; [done|]. intros m. rewrite Hv2.
    rewrite (quiet_react _ _ Q), Hg1.
    destruct (differs (time (delay g)) (time d)) eqn:Hd1;
      [|apply differs_false in Hd1];
      (destruct (differs (feedback (delay g)) (feedback d)) eqn:Hd2;
       [|apply differs_false in Hd2]); node_cases m; close_node.
  - (* setPanner *)
    unfold effect_panner. rewrite Hg1.
    destruct (step_view true _ b Panner
                (set_pan (pan (update_cfg (setPanner v) g))) _ HN
                (Href Panner eq_refl)) as [Q Hv].
    split; [exact Q|]. split; [done|]. intros m. rewrite Hv.
    node_cases m; close_node.
  - (* setNoiseGate *)
    split; [apply set_noiseGateRef_quiet|]. split; [done|]. intros m.
    change (node_at (effect_noiseGate (update_state (setNoiseGate p) a)) b m)
      with (node_at (update_state (setNoiseGate p) a) b m).
    rewrite HN. node_cases m; close_node.
  - (* setReverb *)
    unfold when. destruct (differs (mix g) m) eqn:Hd; [|apply differs_false in Hd].
    + destruct (effect_reverb_mix_view _ b random g HN Href) as [Q Hv].
      split; [exact Q|]. split; [done|]. intros m0. rewrite Hv, Hg1.
      node_cases m0; close_node.
    + split; [apply quiet_refl|]. split; [done|]. intros m0. rewrite HN.
      node_cases m0; close_node.
Qed.

Lemma no_rebuild_intro a a1 a' :
  refs a1 = refs a → browser a1 = browser a → quiet a1 a' → no_rebuild a a'.
Proof.
  intros Hr Hb Q.
  split.
  - intros n. rewrite (ref_of_quiet _ _ _ Q). unfold ref_of. by rewrite Hr.
  - by rewrite (quiet_context _ _ Q), Hr.
  - by rewrite (quiet_stream _ _ Q), Hr.
  - by rewrite (quiet_contexts _ _ Q), Hb.
  - by rewrite (quiet_streams _ _ Q), Hb.
  - by rewrite (quiet_tasks _ _ Q), Hb.
  - by rewrite (quiet_fresh _ _ Q), Hb.
  - intros b. by rewrite (quiet_runs _ _ Q), Hb.
  - intros b. rewrite (quiet_edges _ _ Q). unfold edges_at, live. by rewrite Hb.
Qed.

Lemma quiet_no_rebuild c a a' : quiet (update_state c a) a' → no_rebuild a a'.
Proof.
  intros Q. destruct (update_state_rest c a) as [Hr Hb].
  by apply (no_rebuild_intro a (update_state c a)).
Qed.

(** A hot change keeps the engine on its run, with the graph of the new
    configuration, and rebuilds nothing. *)
Lemma hot_change_in_sync c a b random :
  in_sync a b random → classify c = hot → admissible c (cfg (react a)) →
  in_sync (applyConfigChange c a) b random ∧
  cfg (react (applyConfigChange c a)) = update_cfg c (cfg (react a)) ∧
  no_rebuild a (applyConfigChange c a).
Proof.
  intros Hsync Hhot Hadm.
  destruct (hot_change c a b random Hsync Hhot Hadm) as (Q & Hshape & Hn).
  assert (Hcfg : cfg (react (applyConfigChange c a)) = update_cfg c (cfg (react a))).
  { by rewrite (quiet_react _ _ Q), update_state_react. }
  split; [|split; [exact Hcfg|by apply (quiet_no_rebuild c)]].
  destruct Hsync as [Hs Hrun]. split.
  - by rewrite (quiet_react _ _ Q), update_state_react.
  - rewrite Hcfg.
    apply (runs_graph_hot (update_state c a) _ b random (cfg (react a))); try done.
    destruct Hrun as [Hl Hr Hf Hb]. destruct (update_state_rest c a) as [Er Eb].
    split.
    + unfold live. by rewrite Eb.
    + intros n. unfold ref_of. rewrite Er. apply Hr.
    + by rewrite Er.
    + by rewrite Eb.
Qed.

Lemma differs_true x y : x ≠ y → differs x y = true.
Proof. unfold differs. by destruct (Req_dec_T x y). Qed.

Lemma structural_change_restarts c a :
  status (react a) = running → classify c = structural → changes c (react a) →
  applyConfigChange c a = restartAudio running (update_state c a).
Proof.
  intros Hs Hc Hch.
  destruct c; try discriminate; effects_of_change; cbn [changes] in Hch.
  all: rewrite ?Hs.
  all: try rewrite (differs_true _ _ (not_eq_sym Hch)).
  all: try rewrite (bool_decide_true (_ ≠ _)) by (by apply not_eq_sym).
  all: rewrite ?orb_true_r; cbn [orb when].
  all: rewrite ?decide_True by done.
  all: reflexivity.
Qed.

Lemma stop_react a :
  cfg (react (stop a)) = cfg (react a) ∧
  selectedInput (react (stop a)) = selectedInput (react a) ∧
  selectedOutput (react (stop a)) = selectedOutput (react a) ∧
  hasOutputSelection (react (stop a)) = hasOutputSelection (react a).
Proof.
  unfold stop. rewrite setStatus_idle by done. destruct_app a. simpl.
  destruct rec, stream, ctx; simpl; destruct (nr ScriptProcessor); simpl; done.
Qed.

Lemma closure_of_stop a : closure_of (stop a) = closure_of a.
Proof.
  destruct (stop_react a) as (H1 & H2 & H3 & H4). unfold closure_of.
  by rewrite H1, H2, H3, H4.
Qed.

Lemma closure_of_react a a' : react a' = react a → closure_of a' = closure_of a.
Proof. unfold closure_of. by intros ->. Qed.

Lemma runs_graph_frame a a' b random g :
  runs_graph a b random g →
  builds (browser a') = builds (browser a) →
  nodeRefs (refs a') = nodeRefs (refs a) →
  eqNodesRef (refs a') = eqNodesRef (refs a) →
  fresh (browser a') = fresh (browser a) →
  runs_graph a' b random g.
Proof.
  intros [Hl Hr Hf Hb] E1 E2 E3 E4. split.
  - unfold live. by rewrite E1.
  - intros n. unfold ref_of. rewrite E2, E3. apply Hr.
  - by rewrite E3.
  - by rewrite E4.
Qed.

Lemma same_shape_refl g : same_shape g g.
Proof. by repeat split. Qed.

(** [setStatus('running')] after [connectNodes]: the two effects that
    depend on [status] write the gain and the curve the nodes already
    have. *)
Lemma setStatus_running a b random :
  status (react a) ≠ running →
  runs_graph a b random (cfg (react a)) →
  in_sync (setStatus running a) b random ∧
  cfg (react (setStatus running a)) = cfg (react a) ∧
  no_rebuild a (setStatus running a).
Proof.
  intros Hs Hrun. unfold setStatus. rewrite decide_False by done.
  set (g := cfg (react a)) in *.
  set (a1 := set_status running a).
  assert (Hrun1 : runs_graph a1 b random g) by by apply (runs_graph_frame a).
  assert (HN : ∀ m, node_at a1 b m = node_of g random sampleRate m).
  { intros m. rewrite (node_at_live _ _ _ _ (sync_live _ _ _ _ Hrun1)). apply rebuild_nodes. }
  unfold effect_gain. rewrite decide_True by done.
  destruct (step_view true a1 b Gain (set_gain (gain (cfg (react a1)))) _ HN) as [Q Hv].
  { intros _. by apply (sync_refs _ _ _ _ Hrun1). }
  match type of Q with quiet _ ?x => set (a2 := x) in * end.
  unfold effect_drive. rewrite decide_True by by rewrite (quiet_react _ _ Q).
  destruct (step_view true a2 b Drive
              (set_curve (Drive.makeCurve (drive (cfg (react a2))))) _ Hv) as [Q2 Hv2].
  { intros _. rewrite (ref_of_quiet _ _ _ Q). by apply (sync_refs _ _ _ _ Hrun1). }
  match type of Q2 with quiet _ ?x => set (a3 := x) in * end.
  assert (Q3 : quiet a1 a3) by by eapply quiet_trans.
  assert (Hr3 : react a3 = react a1) by apply (quiet_react _ _ Q3).
  split; [split|split].
  - by rewrite Hr3.
  - rewrite Hr3. apply (runs_graph_hot a1 a3 b random g g Hrun1 Q3 (same_shape_refl g)).
    intros m. rewrite Hv2, (quiet_react _ _ Q).
    destruct m; cbn [andb];
      repeat first [rewrite bool_decide_true by done | rewrite bool_decide_false by done];
      reflexivity.
  - by rewrite Hr3.
  - by apply (no_rebuild_intro a a1).
Qed.

Lemma connectNodes_runs cl random a b c0 bd :
  audioContextRef (refs a) = Some c0 →
  nodeRefs (refs a) Source = Some b →
  builds (browser a) !! b = Some bd →
  graph bd = context_with_source →
  (b < fresh (browser a))%nat →
  runs_graph (connectNodes cl random a) b random (closure_cfg cl) ∧
  react (connectNodes cl random a) = react a ∧
  audioContextRef (refs (connectNodes cl random a)) = Some c0 ∧
  build_context <$> builds (browser (connectNodes cl random a)) !! b
  = Some (build_context bd).
Proof.
  intros Hc Hs Hb Hg Hf. unfold connectNodes. rewrite Hc, Hs, Hb, Hg. cbv zeta.
  change (Graph.connectNodes (closure_cfg cl) random sampleRate context_with_source).2
    with (rebuild (closure_cfg cl) random sampleRate).
  split; [split|split; [reflexivity|split; [fields; exact Hc|]]].
  5: { fields. by rewrite lookup_insert_eq. }
  - unfold live. fields. rewrite lookup_insert_eq. reflexivity.
  - intros n Hh Hn. unfold ref_of.
    destruct n as [| | | | | | |i| | | | | | | | | |]; try discriminate Hh; fields.
    8: { apply lookup_replicate_2. apply fmap_is_Some, lookup_lt_is_Some in Hn. exact Hn. }
    all: unfold assign_refs; cbn [kept_in_ref andb];
      rewrite bool_decide_true by (by rewrite rebuild_nodes); reflexivity.
  - fields. by rewrite length_replicate.
  - fields. done.
Qed.

(** [start], resumed with the stream in a stopped engine that has a
    context: the engine runs the graph of the configuration [start] was
    called with, in a new run. *)
Lemma start_with_stream_sync k cl random a c0 :
  audioContextRef (refs a) = Some c0 →
  status (react a) ≠ running →
  closure_cfg cl = cfg (react a) →
  in_sync (start_with_stream k cl random true a) (S (fresh (browser a))) random ∧
  cfg (react (start_with_stream k cl random true a)) = cfg (react a) ∧
  build_context <$> builds (browser (start_with_stream k cl random true a))
                      !! S (fresh (browser a)) = Some c0 ∧
  audioContextRef (refs (start_with_stream k cl random true a)) = Some c0.
Proof.
  intros Hc Hs Hcl. unfold start_with_stream. fields. rewrite Hc.
  match goal with
  | |- context [connectNodes cl random ?x] =>
      destruct (connectNodes_runs cl random x (S (fresh (browser a))) c0
                  (mkBuild c0 (fresh (browser a)) context_with_source))
        as (Hrun & Hreact & Hctx & Hbuild)
  end.
  1-5: fields.
  { reflexivity. }
  { by rewrite decide_True. }
  { by rewrite lookup_insert_eq. }
  { reflexivity. }
  { lia. }
  match type of Hrun with runs_graph ?y _ _ _ => set (Y := y) in * end.
  clearbody Y. fields. rewrite Hcl in Hrun.
  set (Y' := set_mediaRecorderRef (Some (fresh (browser a))) Y).
  assert (Hrun' : runs_graph Y' (S (fresh (browser a))) random (cfg (react Y'))).
  { unfold Y'. fields. rewrite Hreact. by apply (runs_graph_frame Y). }
  destruct (setStatus_running Y' (S (fresh (browser a))) random) as (Hsync & Hcfg & Hno).
  { unfold Y'. fields. by rewrite Hreact. }
  { exact Hrun'. }
  split; [exact Hsync|]. split; [by rewrite Hcfg; unfold Y'; fields; rewrite Hreact|].
  split.
  - rewrite (same_runs _ _ Hno). exact Hbuild.
  - rewrite (same_context _ _ Hno). exact Hctx.
Qed.

Lemma closure_of_restart a :
  status (react a) = running → closure_of (step a call_restartAudio) = closure_of a.
Proof.
  intros Hs. cbn [step]. rewrite Hs, restartAudio_running.
  rewrite <- (closure_of_stop a). apply closure_of_react.
  rewrite suspend_react. by destruct (allocate_frame (stop a)) as [-> _].
Qed.

(** A structural change of a running engine stops it and, once the timer
    has fired and the stream is granted, leaves the engine on a new run,
    built from the new configuration in a new context. *)
Lemma structural_change_rebuilds c a b random random' :
  in_sync a b random → classify c = structural → changes c (react a) →
  let a1 := step a (change c) in
  let k := fresh (browser a) in
  let a2 := run (restart_reaches_device (closure_of a1) k) a1 in
  let a3 := step a2 (settle k (granted random' true)) in
  status (react a1) = stopped ∧
  in_sync a3 (S (S (S k))) random' ∧
  cfg (react a3) = update_cfg c (cfg (react a)) ∧
  audioContextRef (refs a3) = Some (S k) ∧
  build_context <$> builds (browser a3) !! S (S (S k)) = Some (S k).
Proof.
  intros [Hs Hrun] Hc Hch.
  set (a0 := update_state c a).
  assert (Hs0 : status (react a0) = running)
    by (unfold a0; by rewrite update_state_react).
  assert (Hg0 : cfg (react a0) = update_cfg c (cfg (react a)))
    by (unfold a0; by rewrite update_state_react).
  assert (E1 : step a (change c) = step a0 call_restartAudio).
  { cbn [step]. rewrite Hs0. by apply structural_change_restarts. }
  assert (Ek : fresh (browser a) = fresh (browser a0))
    by (unfold a0; by rewrite (proj2 (update_state_rest c a))).
  cbv zeta. rewrite E1, Ek, (closure_of_restart a0 Hs0).
  destruct (restart_in_flight a0 Hs0) as (R1 & R2 & R3 & R4 & R5 & R6 & R7 & R8 & R9).
  cbv zeta in R1, R2, R3, R4, R5, R6, R7, R8, R9.
  set (a2 := run (restart_reaches_device (closure_of a0) (fresh (browser a0)))
               (step a0 call_restartAudio)) in *.
  clearbody a2.
  split; [exact R1|].
  assert (E3 : step a2 (settle (fresh (browser a0)) (granted random' true))
               = start_with_stream (fresh (browser a0)) (closure_of a0) random' true a2).
  { cbn [step]. rewrite R2. reflexivity. }
  rewrite E3.
  destruct (stop_react a0) as (S1 & _).
  destruct (start_with_stream_sync (fresh (browser a0)) (closure_of a0) random' a2
              (S (fresh (browser a0)))) as (Hsync & Hcfg & Hb & Hctx).
  - exact R5.
  - rewrite R8, stop_status. discriminate.
  - rewrite R8, S1. reflexivity.
  - rewrite R9 in Hsync, Hb. rewrite R8, S1, Hg0 in Hcfg. done.
Qed.

(** The engine started from the mounted component runs the graph of the
    initial configuration, in run 3. *)
Lemma started_in_sync : in_sync started 3 no_random.
Proof.
  unfold started, run. cbn [foldl].
  set (a1 := step mounted call_start).
  assert (Htask : tasks (browser a1) !! 0%nat = Some (await_getUserMedia (closure_of mounted)))
    by (vm_compute; reflexivity).
  assert (Hctx : audioContextRef (refs a1) = Some 1%nat) by (vm_compute; reflexivity).
  assert (Hst : status (react a1) ≠ running) by (vm_compute; discriminate).
  assert (Hcfg : closure_cfg (closure_of mounted) = cfg (react a1)) by reflexivity.
  assert (Hf : fresh (browser a1) = 2%nat) by (vm_compute; reflexivity).
  clearbody a1. cbn [step]. rewrite Htask. cbn [resume].
  destruct (start_with_stream_sync 0 (closure_of mounted) no_random a1 1 Hctx Hst Hcfg)
    as (Hsync & _).
  rewrite Hf in Hsync. exact Hsync.
Qed.

Lemma started_cfg : cfg (react started) = initialConfiguration.
Proof.
  unfold started, run. cbn [foldl].
  set (a1 := step mounted call_start).
  assert (Htask : tasks (browser a1) !! 0%nat = Some (await_getUserMedia (closure_of mounted)))
    by (vm_compute; reflexivity).
  assert (Hctx : audioContextRef (refs a1) = Some 1%nat) by (vm_compute; reflexivity).
  assert (Hst : status (react a1) ≠ running) by (vm_compute; discriminate).
  assert (Hcfg : closure_cfg (closure_of mounted) = cfg (react a1)) by reflexivity.
  assert (Hg : cfg (react a1) = initialConfiguration) by reflexivity.
  clearbody a1. cbn [step]. rewrite Htask. cbn [resume].
  destruct (start_with_stream_sync 0 (closure_of mounted) no_random a1 1 Hctx Hst Hcfg)
    as (_ & -> & _).
  exact Hg.
Qed.

(** C6.  With the reverb enabled, for every mix: the stage is built with a
    dry gain of [1 - mix] and a wet gain of [mix], the two and nothing else
    feed the one mixer, and the mixer renders the panner's signal times
    [1 - mix] plus its convolution times [mix]; a change of the mix writes
    [1 - mix] and [mix] into those two nodes of the running graph; and at
    mix 0 the graph renders what the graph built with the reverb disabled
    renders, on every input: a rendering of the one is a rendering of the
    other, and a rendering of the other extends to the reverb's three nodes
    as a rendering of the one, the same on every other node. *)
Theorem reverb_dry_wet_mix (h : Host) (g : Configuration) (random : N → R) (rate : N) :
  reverbEnabled g = true →
  let G := rebuild g random rate in
  let G0 := rebuild (bypass_reverb g) random rate in
  nodes G !! ReverbDry = Some (GainNode (1 - mix g)) ∧
  nodes G !! ReverbWet = Some (GainNode (mix g)) ∧
  (∀ n, (n, FinalMixer) ∈ edges G ↔ n = ReverbDry ∨ n = ReverbWet) ∧
  (∀ input σ, renders h G input σ →
     σ ReverbDry = (λ t, (1 - mix g) * σ Panner t) ∧
     σ ReverbWet = (λ t, mix g * convolver h (impulse random rate) (σ Panner) t) ∧
     σ FinalMixer = (λ t, σ ReverbDry t + σ ReverbWet t)) ∧
  (∀ a b m, in_sync a b random → cfg (react a) = g →
     let a' := step a (change (setReverb m)) in
     node_at a' b ReverbDry = Some (GainNode (1 - m)) ∧
     node_at a' b ReverbWet = Some (GainNode m) ∧
     no_rebuild a a') ∧
  (mix g = 0 →
     (∀ input σ, renders h G input σ → renders h G0 input σ) ∧
     (∀ input σ, renders h G0 input σ →
        renders h G input (with_reverb h g random rate σ) ∧
        ∀ n, reverb_node n = false → with_reverb h g random rate σ n = σ n)).
Proof.
  intros He G G0. subst G G0.
  split; [by rewrite rebuild_nodes; simpl; rewrite He|].
  split; [by rewrite rebuild_nodes; simpl; rewrite He|].
  split; [intros n; by apply reverb_mixer_edges|].
  split; [intros input σ; by apply reverb_mixer_output|].
  split.
  - intros a b m Hsync Hg a'. subst a'. cbn [step].
    destruct (hot_change_in_sync (setReverb m) a b random Hsync eq_refl I)
      as ([_ Hrun] & Hcfg & Hno).
    rewrite Hcfg, Hg in Hrun.
    rewrite !(node_at_live _ _ _ _ (sync_live _ _ _ _ Hrun)), !rebuild_nodes.
    simpl. rewrite He. split; [done|]. split; [done|]. exact Hno.
  - intros Hm. split.
    + intros input σ. by apply mix_0_renders_bypass.
    + intros input σ Hr. split; [by apply bypass_renders_mix_0|].
      intros n Hn. by destruct n.
Qed.

Lemma reverb_dry_wet_mix_witness :
  reverbEnabled dry_reverb = true ∧
  let G := rebuild dry_reverb no_random 44100 in
  let G0 := rebuild (bypass_reverb dry_reverb) no_random 44100 in
  nodes G !! ReverbDry = Some (GainNode (1 - mix dry_reverb)) ∧
  nodes G !! ReverbWet = Some (GainNode (mix dry_reverb)) ∧
  (∀ n, (n, FinalMixer) ∈ edges G ↔ n = ReverbDry ∨ n = ReverbWet) ∧
  (∀ input σ, renders passthrough_host G input σ →
     σ ReverbDry = (λ t, (1 - mix dry_reverb) * σ Panner t) ∧
     σ ReverbWet = (λ t, mix dry_reverb
                         * convolver passthrough_host (impulse no_random 44100) (σ Panner) t) ∧
     σ FinalMixer = (λ t, σ ReverbDry t + σ ReverbWet t)) ∧
  (∀ a b m, in_sync a b no_random → cfg (react a) = dry_reverb →
     let a' := step a (change (setReverb m)) in
     node_at a' b ReverbDry = Some (GainNode (1 - m)) ∧
     node_at a' b ReverbWet = Some (GainNode m) ∧
     no_rebuild a a') ∧
  (mix dry_reverb = 0 →
     (∀ input σ, renders passthrough_host G input σ → renders passthrough_host G0 input σ) ∧
     (∀ input σ, renders passthrough_host G0 input σ →
        renders passthrough_host G input (with_reverb passthrough_host dry_reverb no_random 44100 σ) ∧
        ∀ n, reverb_node n = false →
             with_reverb passthrough_host dry_reverb no_random 44100 σ n = σ n)).
Proof.
  split; [reflexivity|].
  apply (reverb_dry_wet_mix passthrough_host dry_reverb no_random 44100). reflexivity.
Defined.



(** ** The life cycle: [stop], [start] and its failures *)

Lemma setStatus_refs s a : refs (setStatus s a) = refs a.
Proof.
  unfold setStatus. destruct (decide (status (react a) = s)) as [|_]; [reflexivity|].
  assert (Hw : ∀ m f x, refs (write_node m f x) = refs x).
  { intros m f x. unfold write_node. by destruct (ref_of x m). }
  unfold effect_drive, effect_gain.
  repeat first [rewrite Hw | case_decide]; reflexivity.
Qed.

Lemma stop_released a :
  status (react (stop a)) = stopped ∧ isRecording (react (stop a)) = false ∧
  audioContextRef (refs (stop a)) = None ∧ mediaStreamRef (refs (stop a)) = None ∧
  (∀ n, n ∈ nulled_by_stop → nodeRefs (refs (stop a)) n = None) ∧
  (∀ n, n ∉ nulled_by_stop → nodeRefs (refs (stop a)) n = nodeRefs (refs a) n) ∧
  eqNodesRef (refs (stop a)) = eqNodesRef (refs a) ∧
  mediaRecorderRef (refs (stop a)) = mediaRecorderRef (refs a).
Proof.
  unfold stop. rewrite setStatus_idle by done. destruct_app a. simpl.
  destruct rec, stream, ctx; simpl; destruct (nr ScriptProcessor); simpl.
  all: split; [done|]; split; [done|]; split; [done|]; split; [done|].
  all: split; [|split; [|done]].
  all: try (intros m Hm; unfold nulled_by_stop in Hm;
            repeat (apply elem_of_cons in Hm as [->|Hm]; [done|]);
            by apply elem_of_nil in Hm).
  all: intros m Hm; unfold nulled_by_stop in Hm;
       repeat (case_decide; [subst m; exfalso; apply Hm; set_solver|]); done.
Qed.

Lemma stop_browser a :
  contexts (browser (stop a))
  = match audioContextRef (refs a) with
    | Some c => <[c := true]> (contexts (browser a))
    | None => contexts (browser a)
    end ∧
  streams (browser (stop a))
  = match mediaStreamRef (refs a) with
    | Some s => <[s := false]> (streams (browser a))
    | None => streams (browser a)
    end ∧
  tasks (browser (stop a)) = tasks (browser a) ∧
  fresh (browser (stop a)) = fresh (browser a) ∧
  console (browser (stop a)) = console (browser a).
Proof.
  unfold stop. rewrite setStatus_idle by done. destruct_app a. simpl.
  destruct rec, stream, ctx; simpl; destruct (nr ScriptProcessor); simpl; done.
Qed.

(** [stop] on an engine that holds nothing changes nothing. *)
Lemma stop_idle a :
  status (react a) = stopped → isRecording (react a) = false →
  audioContextRef (refs a) = None → mediaStreamRef (refs a) = None →
  (∀ n, n ∈ nulled_by_stop → nodeRefs (refs a) n = None) →
  stop a = a.
Proof.
  intros Hs Hr Hc Hm Hn.
  destruct_app a. simpl in Hs, Hr, Hc, Hm, Hn. subst. unfold stop. simpl.
  rewrite (Hn ScriptProcessor) by set_solver. simpl.
  unfold setStatus. simpl. unfold null_ref, set_nodeRefs. simpl. f_equal. f_equal.
  apply functional_extensionality. intros m. unfold nulled_by_stop in Hn.
  repeat case_decide; try done; subst; symmetry; apply Hn; set_solver.
Qed.

(** X15.  [stop], from any state: the engine is stopped and not recording,
    the context it held is closed and the tracks of the stream it held are
    stopped, the context, the stream and the refs of the source, the gain,
    the drive, the analyser and the script processor are null; nothing else
    is closed or stopped, a function waiting for the device stays
    suspended; and a second [stop] changes nothing. *)
Theorem stop_releases_everything (a : App) :
  let a' := stop a in
  status (react a') = stopped ∧ isRecording (react a') = false ∧
  audioContextRef (refs a') = None ∧ mediaStreamRef (refs a') = None ∧
  Forall (λ n, nodeRefs (refs a') n = None) nulled_by_stop ∧
  contexts (browser a')
  = match audioContextRef (refs a) with
    | Some c => <[c := true]> (contexts (browser a))
    | None => contexts (browser a)
    end ∧
  streams (browser a')
  = match mediaStreamRef (refs a) with
    | Some s => <[s := false]> (streams (browser a))
    | None => streams (browser a)
    end ∧
  tasks (browser a') = tasks (browser a) ∧
  stop a' = a'.
Proof.
  intros a'. subst a'.
  destruct (stop_released a) as (H1 & H2 & H3 & H4 & H5 & _).
  destruct (stop_browser a) as (B1 & B2 & B3 & _).
  split; [done|]. split; [done|]. split; [done|]. split; [done|].
  split; [by apply Forall_forall|]. split; [done|]. split; [done|]. split; [done|].
  by apply stop_idle.
Qed.

Lemma setStatus_browser s a :
  contexts (browser (setStatus s a)) = contexts (browser a) ∧
  streams (browser (setStatus s a)) = streams (browser a) ∧
  tasks (browser (setStatus s a)) = tasks (browser a) ∧
  console (browser (setStatus s a)) = console (browser a) ∧
  fresh (browser (setStatus s a)) = fresh (browser a).
Proof.
  unfold setStatus. destruct (decide (status (react a) = s)) as [|_]; [done|].
  assert (Hw : ∀ m f x, rest_of (write_node m f x) = rest_of x).
  { intros m f x. unfold write_node, rest_of. by destruct (ref_of x m). }
  assert (Hr : ∀ x, rest_of x = rest_of (set_status s a) →
               contexts (browser x) = contexts (browser a) ∧
               streams (browser x) = streams (browser a) ∧
               tasks (browser x) = tasks (browser a) ∧
               console (browser x) = console (browser a) ∧
               fresh (browser x) = fresh (browser a)).
  { intros x Hx. unfold rest_of in Hx. simpl in Hx. by simplify_eq. }
  apply Hr. unfold effect_drive, effect_gain.
  repeat first [rewrite Hw | case_decide]; reflexivity.
Qed.

Lemma connectNodes_frame cl random a :
  audioContextRef (refs (connectNodes cl random a)) = audioContextRef (refs a) ∧
  mediaStreamRef (refs (connectNodes cl random a)) = mediaStreamRef (refs a) ∧
  mediaRecorderRef (refs (connectNodes cl random a)) = mediaRecorderRef (refs a) ∧
  contexts (browser (connectNodes cl random a)) = contexts (browser a) ∧
  streams (browser (connectNodes cl random a)) = streams (browser a) ∧
  tasks (browser (connectNodes cl random a)) = tasks (browser a) ∧
  console (browser (connectNodes cl random a)) = console (browser a) ∧
  fresh (browser (connectNodes cl random a)) = fresh (browser a).
Proof.
  unfold connectNodes.
  destruct (audioContextRef (refs a)) eqn:Hc; [|by rewrite Hc].
  destruct (nodeRefs (refs a) Source) as [b|]; [|by rewrite Hc].
  destruct (builds (browser a) !! b); [|by rewrite Hc].
  cbn [refs browser set_eqNodesRef set_nodeRefs set_builds audioContextRef
       mediaStreamRef mediaRecorderRef contexts streams tasks console fresh].
  by rewrite Hc.
Qed.

(** From the call of [start] to [getUserMedia]: a new context, open, and
    nothing else. *)
Lemma start_reaches cl k x :
  let a2 := run (start_reaches_device cl k) (start_as k cl x) in
  tasks (browser a2) !! k = Some (await_getUserMedia cl) ∧
  (∀ j, j ≠ k → tasks (browser a2) !! j = tasks (browser x) !! j) ∧
  console (browser a2) = console (browser x) ++ [base_latency] ∧
  builds (browser a2) = builds (browser x) ∧
  streams (browser a2) = streams (browser x) ∧
  contexts (browser a2) = <[fresh (browser x) := false]> (contexts (browser x)) ∧
  refs a2 = refs (set_audioContextRef (Some (fresh (browser x))) x) ∧
  react a2 = react x ∧
  fresh (browser a2) = S (fresh (browser x)).
Proof.
  unfold start_reaches_device, run, start_as. fields.
  destruct (closure_hasOutputSelection cl && bool_decide _); cbn [foldl step]; fields;
    rewrite ?lookup_insert_eq; cbn [resume]; fields; rewrite ?lookup_insert_eq.
  all: split; [done|]; split; [|done].
  all: intros j Hj; by rewrite ?lookup_insert_ne by done.
Qed.

Lemma start_with_stream_media k cl random a c0 :
  audioContextRef (refs a) = Some c0 →
  let a' := start_with_stream k cl random true a in
  mediaStreamRef (refs a') = Some (fresh (browser a)) ∧
  mediaRecorderRef (refs a') = Some (fresh (browser a)) ∧
  streams (browser a') = <[fresh (browser a) := true]> (streams (browser a)) ∧
  contexts (browser a') = contexts (browser a) ∧
  tasks (browser a') = delete k (tasks (browser a)) ∧
  console (browser a') = console (browser a).
Proof.
  intros Hc. unfold start_with_stream. fields. rewrite Hc.
  rewrite setStatus_refs.
  match goal with
  | |- context [setStatus running ?x] =>
      destruct (setStatus_browser running x) as (-> & -> & -> & -> & _)
  end.
  fields.
  match goal with
  | |- context [connectNodes cl random ?x] =>
      destruct (connectNodes_frame cl random x) as (_ & -> & _ & -> & -> & -> & -> & _)
  end.
  done.
Qed.

(** A click on the button of an engine that is not running, up to the
    stream: the graph of the configuration, in a new context. *)
Lemma click_starts a random :
  status (react a) ≠ running →
  let k := fresh (browser a) in
  let a1 := step a click_startStop in
  let a2 := run (start_reaches_device (closure_of a) k) a1 in
  let a3 := step a2 (settle k (granted random true)) in
  react a2 = react a ∧
  in_sync a3 (S (S (S k))) random ∧
  cfg (react a3) = cfg (react a) ∧
  build_context <$> builds (browser a3) !! S (S (S k)) = Some (S k) ∧
  audioContextRef (refs a3) = Some (S k) ∧
  contexts (browser a3) = <[S k := false]> (contexts (browser a)) ∧
  mediaStreamRef (refs a3) = Some (S (S k)) ∧
  mediaRecorderRef (refs a3) = Some (S (S k)) ∧
  streams (browser a3) = <[S (S k) := true]> (streams (browser a)) ∧
  tasks (browser a3) !! k = None.
Proof.
  intros Hs k a1 a2 a3.
  assert (E1 : a1 = start_as k (closure_of a) (allocate a).2).
  { unfold a1. cbn [step]. unfold handleStartStop. by rewrite decide_False. }
  destruct (start_reaches (closure_of a) k (allocate a).2)
    as (T & _ & _ & _ & S2 & C2 & R2 & Re2 & F2).
  rewrite <- E1 in T, S2, C2, R2, Re2, F2. fold a2 in T, S2, C2, R2, Re2, F2.
  fields. fold k in T, S2, C2, R2, Re2, F2.
  assert (Hc2 : audioContextRef (refs a2) = Some (S k)) by by rewrite R2.
  assert (E3 : a3 = start_with_stream k (closure_of a) random true a2).
  { unfold a3. cbn [step]. rewrite T. reflexivity. }
  destruct (start_with_stream_sync k (closure_of a) random a2 (S k) Hc2)
    as (Hsync & Hcfg & Hb & Hc3).
  { by rewrite Re2. }
  { by rewrite Re2. }
  destruct (start_with_stream_media k (closure_of a) random a2 (S k) Hc2)
    as (M1 & M2 & M3 & M4 & M5 & _).
  rewrite <- E3 in Hsync, Hcfg, Hb, Hc3, M1, M2, M3, M4, M5.
  rewrite F2 in Hsync, Hb, M1, M2, M3.
  split; [exact Re2|]. split; [exact Hsync|]. split; [by rewrite Hcfg, Re2|].
  split; [exact Hb|]. split; [exact Hc3|]. split; [by rewrite M4, C2|].
  split; [exact M1|]. split; [exact M2|]. split; [by rewrite M3, S2|].
  rewrite M5. apply lookup_delete_eq.
Qed.

(** X16.  A click on the start button of an engine that is not running,
    once the device grants the stream: the engine runs the graph of its
    configuration on a new run in a new, open context; the stream is live,
    held in the ref and given to the recorder; the function that waited
    for the device has finished. *)
Theorem click_start_runs_graph (a : App) (random : N → R) :
  status (react a) ≠ running →
  let k := fresh (browser a) in
  let a1 := step a click_startStop in
  let a2 := run (start_reaches_device (closure_of a) k) a1 in
  let a3 := step a2 (settle k (granted random true)) in
  in_sync a3 (S (S (S k))) random ∧
  cfg (react a3) = cfg (react a) ∧
  build_context <$> builds (browser a3) !! S (S (S k)) = Some (S k) ∧
  audioContextRef (refs a3) = Some (S k) ∧
  contexts (browser a3) = <[S k := false]> (contexts (browser a)) ∧
  mediaStreamRef (refs a3) = Some (S (S k)) ∧
  mediaRecorderRef (refs a3) = Some (S (S k)) ∧
  streams (browser a3) = <[S (S k) := true]> (streams (browser a)) ∧
  tasks (browser a3) !! k = None.
Proof.
  intros Hs k a1 a2 a3. by destruct (click_starts a random Hs) as (_ & H).
Qed.

Lemma click_start_runs_graph_witness :
  status (react mounted) ≠ running ∧
  let k := fresh (browser mounted) in
  let a1 := step mounted click_startStop in
  let a2 := run (start_reaches_device (closure_of mounted) k) a1 in
  let a3 := step a2 (settle k (granted no_random true)) in
  in_sync a3 (S (S (S k))) no_random ∧
  cfg (react a3) = cfg (react mounted) ∧
  build_context <$> builds (browser a3) !! S (S (S k)) = Some (S k) ∧
  audioContextRef (refs a3) = Some (S k) ∧
  contexts (browser a3) = <[S k := false]> (contexts (browser mounted)) ∧
  mediaStreamRef (refs a3) = Some (S (S k)) ∧
  mediaRecorderRef (refs a3) = Some (S (S k)) ∧
  streams (browser a3) = <[S (S k) := true]> (streams (browser mounted)) ∧
  tasks (browser a3) !! k = None.
Proof.
  split; [discriminate|]. apply (click_start_runs_graph mounted no_random). discriminate.
Defined.

Lemma catch_rest a :
  contexts (browser (catch a)) = contexts (browser a) ∧
  streams (browser (catch a)) = streams (browser a) ∧
  tasks (browser (catch a)) = tasks (browser a) ∧
  fresh (browser (catch a)) = fresh (browser a).
Proof. unfold catch. rewrite setStatus_idle by done. done. Qed.

Lemma start_as_context k cl x :
  audioContextRef (refs (start_as k cl x)) = Some (fresh (browser x)) ∧
  contexts (browser (start_as k cl x))
  = <[fresh (browser x) := false]> (contexts (browser x)).
Proof.
  unfold start_as. fields. by destruct (closure_hasOutputSelection cl && bool_decide _).
Qed.

(** X17.  A click on the start button whose request for the device is
    denied: the engine ends in [error] with the failure logged, no run and
    no stream; the context the attempt made stays open, held in the ref.
    The next click starts again: it puts a new context in the ref and
    leaves the first one open. *)
Theorem denied_start_leaves_context_open (a : App) :
  status (react a) ≠ running →
  let k := fresh (browser a) in
  let a1 := step a click_startStop in
  let a2 := run (start_reaches_device (closure_of a) k) a1 in
  let a3 := step a2 (settle k denied) in
  let a4 := step a3 click_startStop in
  status (react a3) = error ∧
  console (browser a3) = console (browser a) ++ [base_latency; error_starting] ∧
  builds (browser a3) = builds (browser a) ∧
  streams (browser a3) = streams (browser a) ∧
  tasks (browser a3) !! k = None ∧
  audioContextRef (refs a3) = Some (S k) ∧
  contexts (browser a3) !! S k = Some false ∧
  audioContextRef (refs a4) = Some (S (S (S k))) ∧
  contexts (browser a4) !! S k = Some false.
Proof.
  intros Hs k a1 a2 a3 a4.
  assert (E1 : a1 = start_as k (closure_of a) (allocate a).2).
  { unfold a1. cbn [step]. unfold handleStartStop. by rewrite decide_False. }
  destruct (start_reaches (closure_of a) k (allocate a).2)
    as (T & _ & L2 & B2 & S2 & C2 & R2 & Re2 & F2).
  rewrite <- E1 in T, L2, B2, S2, C2, R2, Re2, F2. fold a2 in T, L2, B2, S2, C2, R2, Re2, F2.
  fields. fold k in T, L2, B2, S2, C2, R2, Re2, F2.
  assert (E3 : a3 = catch (finish k a2)).
  { unfold a3. cbn [step]. rewrite T. reflexivity. }
  destruct (catch_frame (finish k a2)) as (B3 & R3 & L3).
  destruct (catch_rest (finish k a2)) as (C3 & S3 & T3 & F3).
  pose proof (catch_status (finish k a2)) as St3.
  rewrite <- E3 in B3, R3, L3, C3, S3, T3, F3, St3. fields.
  assert (Hc3 : contexts (browser a3) !! S k = Some false).
  { rewrite C3, C2. apply lookup_insert_eq. }
  assert (E4 : a4 = start_as (S (S k)) (closure_of a3) (allocate a3).2).
  { unfold a4. cbn [step]. unfold handleStartStop. rewrite St3, decide_False by done.
    unfold start. fields. by rewrite F3, F2. }
  destruct (start_as_context (S (S k)) (closure_of a3) (allocate a3).2) as (R4 & C4).
  rewrite <- E4 in R4, C4. fields. rewrite F3, F2 in R4, C4.
  split; [exact St3|]. split; [by rewrite L3, L2, <- app_assoc|].
  split; [by rewrite B3, B2|]. split; [by rewrite S3, S2|].
  split; [rewrite T3; apply lookup_delete_eq|].
  split; [by rewrite R3, R2|]. split; [exact Hc3|]. split; [exact R4|].
  rewrite C4, lookup_insert_ne by lia. exact Hc3.
Qed.

Lemma denied_start_leaves_context_open_witness :
  status (react mounted) ≠ running ∧
  let k := fresh (browser mounted) in
  let a1 := step mounted click_startStop in
  let a2 := run (start_reaches_device (closure_of mounted) k) a1 in
  let a3 := step a2 (settle k denied) in
  let a4 := step a3 click_startStop in
  status (react a3) = error ∧
  console (browser a3) = console (browser mounted) ++ [base_latency; error_starting] ∧
  builds (browser a3) = builds (browser mounted) ∧
  streams (browser a3) = streams (browser mounted) ∧
  tasks (browser a3) !! k = None ∧
  audioContextRef (refs a3) = Some (S k) ∧
  contexts (browser a3) !! S k = Some false ∧
  audioContextRef (refs a4) = Some (S (S (S k))) ∧
  contexts (browser a4) !! S k = Some false.
Proof.
  split; [discriminate|]. apply (denied_start_leaves_context_open mounted). discriminate.
Defined.

Lemma when_quiet (c : bool) (effect : App → App) a a' :
  quiet a a' → (∀ x, quiet x (effect x)) → quiet a (when c effect a').
Proof.
  intros Q H. destruct c; [|exact Q]. eapply quiet_trans; [exact Q|apply H].
Qed.

Lemma effect_eqBands_quiet a : quiet a (effect_eqBands a).
Proof.
  unfold effect_eqBands. generalize (seq 0 (length (eqNodesRef (refs a)))). intros l.
  revert a. induction l as [|i l IH]; intros a; [apply quiet_refl|].
  simpl. eapply quiet_trans; [apply write_band_quiet|apply IH].
Qed.

Lemma effect_reverb_mix_quiet a : quiet a (effect_reverb_mix a).
Proof.
  unfold effect_reverb_mix. destruct (ref_of a ReverbDry), (ref_of a ReverbWet);
    try apply quiet_refl.
  eapply quiet_trans; apply write_node_quiet.
Qed.

(** The effects of a change on an engine that is not running write, at
    most, into the nodes the refs still hold: no restart. *)
Lemma idle_change c a :
  status (react a) ≠ running → quiet (update_state c a) (applyConfigChange c a).
Proof.
  intros Hs. unfold applyConfigChange, run_effects. cbv zeta.
  repeat (apply when_quiet;
          [|intros x;
            first [ apply set_noiseGateRef_quiet
                  | unfold effect_gain; case_decide; [apply write_node_quiet|apply quiet_refl]
                  | unfold effect_drive; case_decide; [apply write_node_quiet|apply quiet_refl]
                  | apply effect_eqBands_quiet
                  | apply write_node_quiet
                  | apply effect_reverb_mix_quiet
                  | rewrite decide_False by done; apply quiet_refl
                  | unfold restartAudio; rewrite decide_False by done; apply quiet_refl ]]).
  apply quiet_refl.
Qed.

(** X18.  A change of any setting while the engine is not running stores
    the value and rebuilds nothing: the status, the refs, the contexts,
    the streams and the connections stay and nothing is scheduled.  The
    next start builds the graph of the changed configuration. *)
Theorem idle_change_waits_for_start (c : ConfigChange) (a : App) (random : N → R) :
  status (react a) ≠ running →
  let a1 := step a (change c) in
  let k := fresh (browser a) in
  let a2 := step a1 click_startStop in
  let a3 := run (start_reaches_device (closure_of a1) k) a2 in
  let a4 := step a3 (settle k (granted random true)) in
  status (react a1) = status (react a) ∧
  cfg (react a1) = update_cfg c (cfg (react a)) ∧
  no_rebuild a a1 ∧
  in_sync a4 (S (S (S k))) random ∧
  cfg (react a4) = update_cfg c (cfg (react a)).
Proof.
  intros Hs a1 k a2 a3 a4.
  pose proof (idle_change c a Hs) as Q. change (applyConfigChange c a) with a1 in Q.
  assert (Hst : status (react a1) = status (react a))
    by by rewrite (quiet_react _ _ Q), update_state_react.
  assert (Hcfg : cfg (react a1) = update_cfg c (cfg (react a)))
    by by rewrite (quiet_react _ _ Q), update_state_react.
  pose proof (quiet_no_rebuild c a a1 Q) as Hno.
  assert (Hs1 : status (react a1) ≠ running) by by rewrite Hst.
  destruct (click_starts a1 random Hs1) as (_ & Hsync & Hcfg4 & _).
  rewrite (same_fresh _ _ Hno) in Hsync, Hcfg4. fold k a2 a3 a4 in Hsync, Hcfg4.
  split; [exact Hst|]. split; [exact Hcfg|]. split; [exact Hno|].
  split; [exact Hsync|]. by rewrite Hcfg4.
Qed.

Lemma idle_change_waits_for_start_witness :
  status (react mounted) ≠ running ∧
  let a1 := step mounted (change (setDelayEnabled true)) in
  let k := fresh (browser mounted) in
  let a2 := step a1 click_startStop in
  let a3 := run (start_reaches_device (closure_of a1) k) a2 in
  let a4 := step a3 (settle k (granted no_random true)) in
  status (react a1) = status (react mounted) ∧
  cfg (react a1) = update_cfg (setDelayEnabled true) (cfg (react mounted)) ∧
  no_rebuild mounted a1 ∧
  in_sync a4 (S (S (S k))) no_random ∧
  cfg (react a4) = update_cfg (setDelayEnabled true) (cfg (react mounted)).
Proof.
  split; [discriminate|].
  apply (idle_change_waits_for_start (setDelayEnabled true) mounted no_random). discriminate.
Defined.

End Engine.

(* ===================================================================== *)
(** * src/unnamed/part_000: the equalizer's controls                      *)
(* ===================================================================== *)

Module Controls.

Import Graph Engine.
Local Open Scope R_scope.

(** ** The equalizer's controls (src/unnamed/part_000)

    The values the buttons and the number inputs of [EqualizerControl]
    hand to [onBandChange] (the component's [handleEqBandChange]) and to
    [onPostGainChange] ([setPostGain]). *)

(** [Math.round]: the nearest integer, a half rounded up. *)
Definition Math_round (x : R) : R := IZR (Zfloor (x + 1 / 2)).

(** [Math.min(40, band.gain + 1)] and [Math.max(-40, band.gain - 1)]. *)
Definition increase_gain (band : EqBand) : R := Rmin 40 (band_gain band + 1).
Definition decrease_gain (band : EqBand) : R := Rmax (-40) (band_gain band - 1).

(** [Math.min(20, Math.round((band.q + 0.1) * 10) / 10)] and
    [Math.max(0.1, Math.round((band.q - 0.1) * 10) / 10)]. *)
Definition increase_Q (q : R) : R := Rmin 20 (Math_round ((q + 0.1) * 10) / 10).
Definition decrease_Q (q : R) : R := Rmax 0.1 (Math_round ((q - 0.1) * 10) / 10).

(** [Math.max(0.1, Math.min(20, val))], for a [val] that is a number. *)
Definition input_Q (val : R) : R := Rmax 0.1 (Rmin 20 val).

Definition getFreqRange (bandId : string) : R * R :=
  if String.eqb bandId "bass" then (100, 600)
  else if String.eqb bandId "mid" then (600, 2500)
  else if String.eqb bandId "upperMid" then (2500, 8000)
  else (20, 20000).

(** [Math.max(freqRange.min, Math.min(freqRange.max, val))]. *)
Definition input_freq (band : EqBand) (val : R) : R :=
  let freqRange := getFreqRange (band_id band) in
  Rmax (fst freqRange) (Rmin (snd freqRange) val).

(** [Math.max(0, postGain - 0.1)] and [Math.min(2, postGain + 0.1)]. *)
Definition decrease_postGain (postGain : R) : R := Rmax 0 (postGain - 0.1).
Definition increase_postGain (postGain : R) : R := Rmin 2 (postGain + 0.1).

Lemma Math_round_integer (z : Z) : Math_round (IZR z) = IZR z.
Proof.
  unfold Math_round. f_equal. apply Zfloor_eq. lra.
Qed.

Lemma Math_round_monotone x y : x <= y → Math_round x <= Math_round y.
Proof.
  intros H. unfold Math_round. apply IZR_le, Zfloor_le. lra.
Qed.

Lemma increase_Q_range q : 0.1 <= q → 0.1 <= increase_Q q <= 20.
Proof.
  intros Hq. unfold increase_Q.
  assert (H2 : 2 <= Math_round ((q + 0.1) * 10)).
  { change 2 with (IZR 2). rewrite <- (Math_round_integer 2).
    apply Math_round_monotone. simpl. lra. }
  split; [apply Rmin_glb; lra|apply Rmin_l].
Qed.

Lemma decrease_Q_range q : q <= 20 → 0.1 <= decrease_Q q <= 20.
Proof.
  intros Hq. unfold decrease_Q.
  assert (H2 : Math_round ((q - 0.1) * 10) <= 199).
  { change 199 with (IZR 199). rewrite <- (Math_round_integer 199).
    apply Math_round_monotone. simpl. lra. }
  split; [apply Rmax_l|apply Rmax_lub; lra].
Qed.

Lemma input_Q_range val : 0.1 <= input_Q val <= 20.
Proof.
  unfold input_Q. split; [apply Rmax_l|].
  apply Rmax_lub; [lra|apply Rmin_l].
Qed.

Lemma getFreqRange_cases bandId :
  let r := getFreqRange bandId in 20 <= fst r ∧ fst r <= snd r ∧ snd r <= 20000.
Proof.
  unfold getFreqRange. repeat (destruct (String.eqb bandId _)); simpl; lra.
Qed.

(** X19.  The values the equalizer's buttons and number inputs set stay in
    the range of their control: a gain from -40 to 40, a [Q] from 0.1 to
    20, a frequency within the band's range, an output level from 0 to 2.
    A [Q] they set is never 0, so the effect that follows always writes
    it into the filter. *)
Theorem controls_stay_in_range (band : EqBand) (q0 postGain0 val : R) :
  -40 <= band_gain band <= 40 → 0.1 <= q0 <= 20 → 0 <= postGain0 <= 2 →
  Forall (λ v, -40 <= v <= 40) [increase_gain band; decrease_gain band] ∧
  Forall (λ v, 0.1 <= v <= 20 ∧ truthy (Some v) = Some v ∧
               ∀ index g, admissible (handleEqBandChange index q_property v) g)
         [increase_Q q0; decrease_Q q0; input_Q val] ∧
  fst (getFreqRange (band_id band)) <= input_freq band val
    <= snd (getFreqRange (band_id band)) ∧
  20 <= input_freq band val <= 20000 ∧
  Forall (λ v, 0 <= v <= 2) [decrease_postGain postGain0; increase_postGain postGain0].
Proof.
  intros Hg Hq Hp.
  assert (HQ : ∀ v, 0.1 <= v <= 20 →
                 0.1 <= v <= 20 ∧ truthy (Some v) = Some v ∧
                 ∀ index g, admissible (handleEqBandChange index q_property v) g).
  { intros v Hv. split; [exact Hv|]. split.
    - unfold truthy. destruct (Req_dec_T v 0); [lra|done].
    - intros index g. cbn [admissible]. lra. }
  pose proof (getFreqRange_cases (band_id band)) as (F1 & F2 & F3).
  assert (HF : fst (getFreqRange (band_id band)) <= input_freq band val
               <= snd (getFreqRange (band_id band))).
  { unfold input_freq. cbv zeta. split; [apply Rmax_l|].
    apply Rmax_lub; [exact F2|apply Rmin_l]. }
  split.
  { repeat apply Forall_cons_2; [| |apply Forall_nil_2].
    - unfold increase_gain. split; [apply Rmin_glb; lra|apply Rmin_l].
    - unfold decrease_gain. split; [apply Rmax_l|apply Rmax_lub; lra]. }
  split.
  { repeat apply Forall_cons_2; [| | |apply Forall_nil_2]; apply HQ.
    - apply increase_Q_range; lra.
    - apply decrease_Q_range; lra.
    - apply input_Q_range. }
  split; [exact HF|]. split; [lra|].
  repeat apply Forall_cons_2; [| |apply Forall_nil_2].
  - unfold decrease_postGain. split; [apply Rmax_l|apply Rmax_lub; lra].
  - unfold increase_postGain. split; [apply Rmin_glb; lra|apply Rmin_l].
Qed.

Lemma controls_stay_in_range_witness :
  let band := mkBand "mid" "Mid" 40 (Some 20) 1000 peaking in
  Forall (λ v, -40 <= v <= 40) [increase_gain band; decrease_gain band] ∧
  Forall (λ v, 0.1 <= v <= 20 ∧ truthy (Some v) = Some v ∧
               ∀ index g, admissible (handleEqBandChange index q_property v) g)
         [increase_Q 20; decrease_Q 20; input_Q 0] ∧
  fst (getFreqRange (band_id band)) <= input_freq band 0
    <= snd (getFreqRange (band_id band)) ∧
  20 <= input_freq band 0 <= 20000 ∧
  Forall (λ v, 0 <= v <= 2) [decrease_postGain 2; increase_postGain 2].
Proof.
  intros band. apply (controls_stay_in_range band 20 2 0); simpl; lra.
Defined.

(** X20.  On the grid of tenths the [Q] buttons move one step and undo
    each other: from [n/10] with n from 1 to 199 the increase gives
    [(n+1)/10] and the decrease after it gives [n/10] again; at 20 the
    increase stays at 20 and at 0.1 the decrease stays at 0.1. *)
Theorem Q_buttons_step_by_tenths (n : Z) :
  (1 <= n <= 199)%Z →
  increase_Q (IZR n / 10) = IZR (n + 1) / 10 ∧
  decrease_Q (IZR (n + 1) / 10) = IZR n / 10 ∧
  decrease_Q (increase_Q (IZR n / 10)) = IZR n / 10 ∧
  increase_Q 20 = 20 ∧ decrease_Q 0.1 = 0.1.
Proof.
  intros Hn.
  assert (H1 : 1 <= IZR n <= 199) by (split; apply IZR_le; lia).
  assert (Hup : ∀ m : Z, 1 <= IZR m <= 199 → increase_Q (IZR m / 10) = IZR (m + 1) / 10).
  { intros m Hm. unfold increase_Q.
    replace ((IZR m / 10 + 0.1) * 10) with (IZR (m + 1)) by (rewrite plus_IZR; lra).
    rewrite Math_round_integer. apply Rmin_right. rewrite plus_IZR. lra. }
  assert (Hdown : ∀ m : Z, 1 <= IZR m <= 199 → decrease_Q (IZR (m + 1) / 10) = IZR m / 10).
  { intros m Hm. unfold decrease_Q.
    replace ((IZR (m + 1) / 10 - 0.1) * 10) with (IZR m) by (rewrite plus_IZR; lra).
    rewrite Math_round_integer. apply Rmax_right. lra. }
  split; [by apply Hup|]. split; [by apply Hdown|].
  split; [rewrite Hup by done; by apply Hdown|]. split.
  - unfold increase_Q. replace ((20 + 0.1) * 10) with (IZR 201) by lra.
    rewrite Math_round_integer. apply Rmin_left. lra.
  - unfold decrease_Q. replace ((0.1 - 0.1) * 10) with (IZR 0) by lra.
    rewrite Math_round_integer. apply Rmax_left. lra.
Qed.

Lemma Q_buttons_step_by_tenths_witness :
  (1 <= 10 <= 199)%Z ∧
  increase_Q (IZR 10 / 10) = IZR (10 + 1) / 10 ∧
  decrease_Q (IZR (10 + 1) / 10) = IZR 10 / 10 ∧
  decrease_Q (increase_Q (IZR 10 / 10)) = IZR 10 / 10 ∧
  increase_Q 20 = 20 ∧ decrease_Q 0.1 = 0.1.
Proof.
  split; [lia|]. apply (Q_buttons_step_by_tenths 10). lia.
Defined.

Lemma Q_write_retunes a b random index band v :
  in_sync a b random →
  eqBands (cfg (react a)) !! index = Some band → v ≠ 0 →
  let a' := step a (change (handleEqBandChange index q_property v)) in
  in_sync a' b random ∧ no_rebuild a a' ∧
  node_at a' b (Eq index)
  = Some (BiquadFilterNode (band_type band) (freq band) (band_gain band) v).
Proof.
  intros Hsync Hband Hv a'.
  destruct (hot_change_in_sync (handleEqBandChange index q_property v) a b random Hsync)
    as (Hsync' & Hcfg & Hno); [done|exact Hv|].
  change (applyConfigChange (handleEqBandChange index q_property v) a) with a'
    in Hsync', Hcfg, Hno.
  split; [exact Hsync'|]. split; [exact Hno|].
  destruct Hsync' as [_ [Hl _ _ _]].
  rewrite (node_at_live _ _ _ _ Hl), rebuild_nodes, Hcfg. cbn [node_of update_cfg eqBands].
  rewrite list_lookup_alter, Hband, decide_True by done.
  unfold createFilter, set_band_property. simpl.
  by destruct (Req_dec_T v 0).
Qed.



End Controls.

(* ===================================================================== *)
(** * src/App.tsx: the search history                                     *)
(* ===================================================================== *)

Module SearchHistory.

(** ** The search history (src/App.tsx, [handleYoutubeSearch])

    [String.prototype.trim] and [String.prototype.toLowerCase] are the
    browser's; the history is kept the same way whatever they compute. *)

Section History.

Variable trim : string → string.
Variable toLowerCase : string → string.

(** The history [setYoutubeSearchHistory] receives when the form is
    submitted with [youtubeSearchQuery]; a query that trims to the empty
    string leaves the history as it is. *)
Definition handleYoutubeSearch (youtubeSearchHistory : list string)
    (youtubeSearchQuery : string) : list string :=
  let trimmedQuery := trim youtubeSearchQuery in
  if decide (trimmedQuery = EmptyString) then youtubeSearchHistory
  else take 10 (trimmedQuery
                :: filter (λ item, toLowerCase item ≠ toLowerCase trimmedQuery)
                     youtubeSearchHistory).

(** The history after the queries submitted one after the other, from the
    history the component has loaded from [localStorage] (the empty one
    when nothing is stored). *)
Definition submitted (stored : list string) (queries : list string) : list string :=
  foldl handleYoutubeSearch stored queries.

Lemma NoDup_fmap_take (l : list string) k :
  NoDup (toLowerCase <$> l) → NoDup (toLowerCase <$> take k l).
Proof.
  intros H. eapply sublist_NoDup; [exact H|]. apply fmap_sublist, sublist_take.
Qed.

Lemma NoDup_fmap_filter (P : string → Prop) `{∀ x, Decision (P x)} (l : list string) :
  NoDup (toLowerCase <$> l) → NoDup (toLowerCase <$> filter P l).
Proof.
  intros Hn. eapply sublist_NoDup; [exact Hn|]. apply fmap_sublist, sublist_filter.
Qed.

Lemma handleYoutubeSearch_keeps history query :
  (length history <= 10)%nat → NoDup (toLowerCase <$> history) →
  (length (handleYoutubeSearch history query) <= 10)%nat ∧
  NoDup (toLowerCase <$> handleYoutubeSearch history query).
Proof.
  intros Hl Hn. unfold handleYoutubeSearch. cbv zeta. case_decide; [done|].
  split; [rewrite length_take; lia|].
  apply NoDup_fmap_take. rewrite fmap_cons. apply NoDup_cons. split.
  - rewrite list_elem_of_fmap. intros (item & Heq & Hin).
    apply list_elem_of_filter in Hin as [Hne _]. by apply Hne.
  - by apply NoDup_fmap_filter.
Qed.

Lemma handleYoutubeSearch_entries history query item :
  item ∈ handleYoutubeSearch history query →
  item ∈ history ∨ (item = trim query ∧ item ≠ EmptyString).
Proof.
  unfold handleYoutubeSearch. cbv zeta. case_decide; [by left|].
  intros Hin. apply (subseteq_take 10), elem_of_cons in Hin as [->|Hin]; [by right|].
  left. by apply list_elem_of_filter in Hin as [_ ?].
Qed.

(** X22.  From a stored history of at most ten entries, no two of them
    equal up to letter case (the empty history is one), the history after
    any searches again holds at most ten entries, no two of them equal up
    to letter case, each a stored entry or the trimmed, non-empty text of a
    submitted query; a query that is not blank is at the head of the
    history after its search, and a blank one changes nothing. *)
Theorem search_history_invariant (stored queries : list string) (query : string) :
  (length stored <= 10)%nat → NoDup (toLowerCase <$> stored) →
  let history := submitted stored queries in
  (length history <= 10)%nat ∧
  NoDup (toLowerCase <$> history) ∧
  Forall (λ item, item ∈ stored ∨ (item ≠ EmptyString ∧ item ∈ trim <$> queries)) history ∧
  head (handleYoutubeSearch history query)
  = (if decide (trim query = EmptyString) then head history else Some (trim query)) ∧
  (trim query = EmptyString → handleYoutubeSearch history query = history).
Proof.
  intros Hl0 Hn0 history. subst history.
  assert (Inv : (length (submitted stored queries) <= 10)%nat ∧
                NoDup (toLowerCase <$> submitted stored queries) ∧
                Forall (λ item, item ∈ stored ∨
                                (item ≠ EmptyString ∧ item ∈ trim <$> queries))
                  (submitted stored queries)).
  { unfold submitted. induction queries as [|q0 queries IH] using rev_ind.
    - simpl. split; [exact Hl0|]. split; [exact Hn0|].
      apply Forall_forall. intros item Hin. by left.
    - rewrite foldl_app. simpl. destruct IH as (Hl & Hn & Hf).
      destruct (handleYoutubeSearch_keeps (foldl handleYoutubeSearch stored queries) q0 Hl Hn)
        as [Hl' Hn'].
      split; [exact Hl'|]. split; [exact Hn'|].
      apply Forall_forall. intros item Hin.
      apply handleYoutubeSearch_entries in Hin as [Hin|[-> Hne]].
      + rewrite Forall_forall in Hf. destruct (Hf item Hin) as [Hs|[Hne Hq]]; [by left|].
        right. split; [exact Hne|]. rewrite fmap_app. apply elem_of_app. by left.
      + right. split; [exact Hne|]. rewrite fmap_app. apply elem_of_app. right.
        simpl. apply list_elem_of_singleton. done. }
  destruct Inv as (Hl & Hn & Hf).
  split; [exact Hl|]. split; [exact Hn|]. split; [exact Hf|].
  unfold handleYoutubeSearch. cbv zeta. case_decide; [done|]. split; [done|done].
Qed.

End History.

Lemma search_history_invariant_witness :
  let trim := λ s : string, s in
  let toLowerCase := λ s : string, s in
  let stored := ["amp"%string] in
  let queries := ["reverb"%string; "amp"%string] in
  (length stored <= 10)%nat ∧ NoDup (toLowerCase <$> stored) ∧
  let history := submitted trim toLowerCase stored queries in
  (length history <= 10)%nat ∧
  NoDup (toLowerCase <$> history) ∧
  Forall (λ item, item ∈ stored ∨ (item ≠ EmptyString ∧ item ∈ trim <$> queries)) history ∧
  head (handleYoutubeSearch trim toLowerCase history "drive")
  = (if decide (trim "drive"%string = EmptyString) then head history
     else Some (trim "drive"%string)) ∧
  (trim "drive"%string = EmptyString
   → handleYoutubeSearch trim toLowerCase history "drive" = history).
Proof.
  intros trim toLowerCase stored queries.
  assert (Hl : (length stored <= 10)%nat) by (simpl; lia).
  assert (Hn : NoDup (toLowerCase <$> stored)) by (apply NoDup_singleton).
  split; [exact Hl|]. split; [exact Hn|].
  exact (search_history_invariant trim toLowerCase stored queries "drive" Hl Hn).
Defined.

End SearchHistory.
